(** * GrafoApp: the graph model and its analyses

    A shallow embedding of the two variants of the application:
    - [Main11] follows [main-11.py] (undirected mirror storage, degrees,
      Eulerian and Hamiltonian checks);
    - [Part000] follows the older variant (Kosaraju components,
      reduced graph, category of a directed graph).

    Python integers are [Z]; optional weights are [option string]; the
    dictionaries whose iteration order the code observes ([vertices],
    [adj], [graus]) are insertion-ordered association lists; dictionaries
    that are only looked up ([transposto], [comp_de], [reduzido]) are
    [gmap]s and Python sets are [gset]s.  Raised exceptions are values of
    [result]. *)

From Stdlib Require Import ZArith List Lia Permutation.
From stdpp Require Import base option list gmap sets fin_sets strings.

Open Scope Z_scope.
Set Warnings "-clear-no-such-hyp".

(** ** Exceptions *)

Inductive exc : Type :=
| KeyError (k : Z)
| OutOfFuel.

Inductive result (A : Type) : Type :=
| Ok (a : A)
| Err (e : exc).
Arguments Ok {A} a.
Arguments Err {A} e.

#[global] Instance result_ret : MRet result := fun A a => Ok a.
#[global] Instance result_bind : MBind result := fun A B f m =>
  match m with
  | Ok a => f a
  | Err e => Err e
  end.

(** [for x in l: st = body(st, x)], stopping at the first exception. *)
Fixpoint foldM {A S : Type} (body : S -> A -> result S) (l : list A) (st : S)
  : result S :=
  match l with
  | [] => Ok st
  | x :: l' =>
      match body st x with
      | Ok st' => foldM body l' st'
      | Err e => Err e
      end
  end.

(** ** Insertion-ordered dictionaries with integer keys *)

Module Dict.

Definition t (V : Type) : Type := list (Z * V).

Definition keys {V} (d : t V) : list Z := map fst d.
Definition values {V} (d : t V) : list V := map snd d.

Fixpoint get {V} (k : Z) (d : t V) : option V :=
  match d with
  | [] => None
  | (k', v) :: d' => if Z.eqb k k' then Some v else get k d'
  end.

Definition mem {V} (k : Z) (d : t V) : bool :=
  match get k d with Some _ => true | None => false end.

(** [d[k] = v]: an existing key keeps its position, a new one goes last. *)
Fixpoint set {V} (k : Z) (v : V) (d : t V) : t V :=
  match d with
  | [] => [(k, v)]
  | (k', v') :: d' =>
      if Z.eqb k k' then (k', v) :: d' else (k', v') :: set k v d'
  end.

(** [del d[k]] / [d.pop(k, None)]. *)
Definition del {V} (k : Z) (d : t V) : t V :=
  List.filter (fun kv => negb (Z.eqb k (fst kv))) d.

Definition map_values {V W} (f : V -> W) (d : t V) : t W :=
  map (fun kv => (fst kv, f (snd kv))) d.

End Dict.

(** ** Classes of the application *)

Record Vertice : Type := mkVertice {
  v_id : Z;
  rotulo : string;
  meta : option (list string)
}.

Record Aresta : Type := mkAresta {
  origem : Z;
  destino : Z;
  peso : option string
}.

Record Grafo : Type := mkGrafo {
  tipo : Z;
  vertices : Dict.t Vertice;
  adj : Dict.t (list Aresta)
}.

(** [Grafo(tipo)] *)
Definition Grafo_init (tp : Z) : Grafo := mkGrafo tp [] [].

(** [self.adj.get(u, [])] *)
Definition adj_get (a : Dict.t (list Aresta)) (u : Z) : list Aresta :=
  match Dict.get u a with Some l => l | None => [] end.

(** equality of optional weights, Python's [e.peso == peso] *)
Definition peso_eqb (p q : option string) : bool :=
  match p, q with
  | None, None => true
  | Some a, Some b => String.eqb a b
  | _, _ => false
  end.

(** Is there an [e] in [l] with [e.destino == d and e.peso == p]? *)
Definition tem_aresta (l : list Aresta) (d : Z) (p : option string) : bool :=
  existsb (fun e => Z.eqb (destino e) d && peso_eqb (peso e) p) l.

(** [self.adj.setdefault(o, []).append(e)] *)
Definition adj_append (a : Dict.t (list Aresta)) (o : Z) (e : Aresta)
  : Dict.t (list Aresta) :=
  Dict.set o (adj_get a o ++ [e]) a.

(** [for lista in self.adj.values(): todas.extend(lista)] *)
Definition lista_arestas (g : Grafo) : list Aresta :=
  concat (Dict.values (adj g)).

(** ** main-11.py *)

Module Main11.

(** [meta or ()] *)
Definition meta_or_empty (m : option (list string)) : list string :=
  match m with
  | Some (x :: l) => x :: l
  | _ => []
  end.

Definition adicionar_vertice (g : Grafo) (id_ : Z) (rot : string)
    (m : option (list string)) : bool * Grafo :=
  if Dict.mem id_ (vertices g) then (false, g)
  else
    let vs := Dict.set id_ (mkVertice id_ rot (Some (meta_or_empty m))) (vertices g) in
    let a := if Dict.mem id_ (adj g) then adj g else Dict.set id_ [] (adj g) in
    (true, mkGrafo (tipo g) vs a).

Definition remover_vertice (g : Grafo) (id_ : Z) : bool * Grafo :=
  if negb (Dict.mem id_ (vertices g)) then (false, g)
  else
    let vs := Dict.del id_ (vertices g) in
    let a := Dict.del id_ (adj g) in
    let a' := Dict.map_values
                (List.filter (fun e => negb (Z.eqb (destino e) id_))) a in
    (true, mkGrafo (tipo g) vs a').

Definition adicionar_aresta (g : Grafo) (o d : Z) (p : option string)
  : bool * Grafo :=
  if negb (Dict.mem o (vertices g)) || negb (Dict.mem d (vertices g))
  then (false, g)
  else if tem_aresta (adj_get (adj g) o) d p then (false, g)
  else
    let a1 := adj_append (adj g) o (mkAresta o d p) in
    let a2 :=
      if Z.eqb (tipo g) 3 then
        if negb (tem_aresta (adj_get a1 d) o p)
        then adj_append a1 d (mkAresta d o p)
        else a1
      else a1 in
    (true, mkGrafo (tipo g) (vertices g) a2).

Definition remover_aresta (g : Grafo) (o d : Z) : bool * Grafo :=
  match Dict.get o (adj g) with
  | None => (false, g)
  | Some lo =>
      let original := length lo in
      let lo' := List.filter (fun e => negb (Z.eqb (destino e) d)) lo in
      let a1 := Dict.set o lo' (adj g) in
      let a2 :=
        if Z.eqb (tipo g) 3 && Dict.mem d a1 then
          Dict.set d (List.filter (fun e => negb (Z.eqb (destino e) o))
                        (adj_get a1 d)) a1
        else a1 in
      (Nat.ltb (length (adj_get a2 o)) original,
       mkGrafo (tipo g) (vertices g) a2)
  end.

(** *** Connectivity (stack-based search) *)

(** One run of the [while pilha:] loop.  The stack is a list whose head is
    the top ([pilha.pop()] takes the head, [pilha.append] conses).  The
    loop has no bound in the source; [fuel] counts its iterations. *)
Fixpoint conexo_laco (fuel : nat) (a : Dict.t (list Aresta))
    (pilha : list Z) (visitados : gset Z) : result (gset Z) :=
  match fuel with
  | O => Err OutOfFuel
  | S f =>
      match pilha with
      | [] => Ok visitados
      | u :: resto =>
          if decide (u ∈ visitados) then conexo_laco f a resto visitados
          else
            let vis := {[u]} ∪ visitados in
            let novos :=
              List.filter (fun d => negb (bool_decide (d ∈ vis)))
                     (map destino (adj_get a u)) in
            conexo_laco f a (rev novos ++ resto) vis
      end
  end.

Definition conexo_fuel (g : Grafo) : nat :=
  S (S (length (lista_arestas g))).

Definition conexo_nao_direcionado (g : Grafo) : result bool :=
  match Dict.keys (vertices g) with
  | [] => Ok true
  | inicio :: _ =>
      visitados ← conexo_laco (conexo_fuel g) (adj g) [inicio] ∅;
      Ok (Nat.eqb (size visitados) (length (vertices g)))
  end.

(** *** Degrees *)

(** [graus[k] += 1] *)
Definition incr (k : Z) (graus : Dict.t Z) : result (Dict.t Z) :=
  match Dict.get k graus with
  | Some n => Ok (Dict.set k (n + 1) graus)
  | None => Err (KeyError k)
  end.

Definition conta_aresta (tp : Z) (o : Z) (graus : Dict.t Z) (e : Aresta)
  : result (Dict.t Z) :=
  if Z.eqb tp 3 then
    if Z.ltb o (destino e) then
      graus1 ← incr o graus; incr (destino e) graus1
    else Ok graus
  else incr o graus.

Definition graus_zero (vs : Dict.t Vertice) : Dict.t Z :=
  fold_left (fun graus v => Dict.set v 0 graus) (Dict.keys vs) [].

Definition calcular_graus (g : Grafo) : result (Dict.t Z) :=
  foldM (fun graus ol => foldM (conta_aresta (tipo g) (fst ol)) (snd ol) graus)
        (adj g) (graus_zero (vertices g)).

(** *** Eulerian and Hamiltonian checks *)

(** The lines the checks print, one constructor per [print] call. *)
Inductive Msg : Type :=
| EulerSoNaoDirigido
| EulerNaoConexo
| EulerGrauImpar (quantos : nat) (impares : list Z)
| EulerSim
| HamMuitoPequeno
| HamSoNaoDirigido
| HamSimDirac (metade : Z)
| HamOreNaoSatisfeito (u v n : Z)
| HamSimOre
| HamNaoGarantido
| HamProblemaNPCompleto
| HamConclusaoProvavelNao.

(** Returned value and printed lines. *)
Definition saida : Type := (bool * list Msg)%type.

Definition tem_ciclo_euleriano (g : Grafo) : result saida :=
  if negb (Z.eqb (tipo g) 3) then Ok (false, [EulerSoNaoDirigido])
  else
    c ← conexo_nao_direcionado g;
    if negb c then Ok (false, [EulerNaoConexo])
    else
      graus ← calcular_graus g;
      let impares :=
        map fst (List.filter (fun vg => Z.eqb (snd vg mod 2) 1) graus) in
      match impares with
      | _ :: _ => Ok (false, [EulerGrauImpar (length impares) impares])
      | [] => Ok (true, [EulerSim])
      end.

(** [graus[u]] for a key [u] of [graus] *)
Definition grau_de (graus : Dict.t Z) (u : Z) : Z :=
  match Dict.get u graus with Some x => x | None => 0 end.

(** [all(g >= n//2 for g in graus.values())] *)
Definition dirac (graus : Dict.t Z) (n : Z) : bool :=
  forallb (fun x => Z.leb (n / 2) x) (Dict.values graus).

(** Condition of the innermost [if]s of the Ore loops for the pair (u, v). *)
Definition ore_viola (a : Dict.t (list Aresta)) (graus : Dict.t Z) (n : Z)
    (u v : Z) : bool :=
  negb (existsb (fun e => Z.eqb (destino e) v) (adj_get a u))
  && Z.ltb (grau_de graus u + grau_de graus v) n.

(** The two nested [for] loops over indices [i < j] of [list(graus.keys())]
    ([graus] has one key per vertex, so [n] is its length): the first
    pair at which the loops [break], if any. *)
Fixpoint ore_busca (a : Dict.t (list Aresta)) (graus : Dict.t Z) (n : Z)
    (ks : list Z) : option (Z * Z) :=
  match ks with
  | [] => None
  | u :: resto =>
      match find (ore_viola a graus n u) resto with
      | Some v => Some (u, v)
      | None => ore_busca a graus n resto
      end
  end.

Definition tem_ciclo_hamiltoniano (g : Grafo) : result saida :=
  let n := Z.of_nat (length (vertices g)) in
  if Z.ltb n 3 then Ok (false, [HamMuitoPequeno])
  else if negb (Z.eqb (tipo g) 3) then Ok (false, [HamSoNaoDirigido])
  else
    graus ← calcular_graus g;
    if dirac graus n then Ok (true, [HamSimDirac (n / 2)])
    else
      match ore_busca (adj g) graus n (Dict.keys graus) with
      | None => Ok (true, [HamSimOre])
      | Some (u, v) =>
          Ok (false, [HamOreNaoSatisfeito u v n; HamNaoGarantido;
                      HamProblemaNPCompleto; HamConclusaoProvavelNao])
      end.

(** *** The edges written by [salvar_grafo] *)

(** One pass of the body of [for e in g.adj[o]]: the state is ([arestas],
    [vistas]). *)
Definition salvar_passo (tp : Z) (o : Z) (st : list Aresta * gset (Z * Z))
    (e : Aresta) : list Aresta * gset (Z * Z) :=
  if Z.eqb tp 3 && bool_decide ((destino e, o) ∈ st.2) then st
  else (st.1 ++ [e], {[ (o, destino e) ]} ∪ st.2).

(** The list [arestas] that [salvar_grafo] writes, one line per element. *)
Definition salvar_grafo_arestas (g : Grafo) : list Aresta :=
  fst (fold_left
         (fun st o => fold_left (salvar_passo (tipo g) o) (adj_get (adj g) o) st)
         (Dict.keys (adj g)) ([], ∅)).

End Main11.

(** ** The older variant (Kosaraju, reduced graph, category) *)

Module Part000.

Definition adicionar_vertice (g : Grafo) (id_ : Z) (rot : string)
    (m : option (list string)) : bool * Grafo :=
  if Dict.mem id_ (vertices g) then (false, g)
  else
    let vs := Dict.set id_ (mkVertice id_ rot m) (vertices g) in
    let a := if Dict.mem id_ (adj g) then adj g else Dict.set id_ [] (adj g) in
    (true, mkGrafo (tipo g) vs a).

Definition remover_vertice (g : Grafo) (id_ : Z) : bool * Grafo :=
  if negb (Dict.mem id_ (vertices g)) then (false, g)
  else
    let vs := Dict.del id_ (vertices g) in
    let a := if Dict.mem id_ (adj g) then Dict.del id_ (adj g) else adj g in
    let a' := Dict.map_values
                (List.filter (fun e => negb (Z.eqb (destino e) id_))) a in
    (true, mkGrafo (tipo g) vs a').

Definition adicionar_aresta (g : Grafo) (o d : Z) (p : option string)
  : bool * Grafo :=
  if negb (Dict.mem o (vertices g)) || negb (Dict.mem d (vertices g))
  then (false, g)
  else if tem_aresta (adj_get (adj g) o) d p then (false, g)
  else
    (true, mkGrafo (tipo g) (vertices g)
                   (adj_append (adj g) o (mkAresta o d p))).

Definition remover_aresta (g : Grafo) (o d : Z) : bool * Grafo :=
  match Dict.get o (adj g) with
  | None => (false, g)
  | Some lo =>
      let lo' := List.filter (fun e => negb (Z.eqb (destino e) d)) lo in
      (Nat.ltb (length lo') (length lo),
       mkGrafo (tipo g) (vertices g) (Dict.set o lo' (adj g)))
  end.

(** *** Strongly connected components *)

(** [dfs1(u)]; the state is ([visitados], [ordem]).  The recursion has no
    bound in the source; [fuel] bounds its depth. *)
Fixpoint dfs1 (fuel : nat) (a : Dict.t (list Aresta)) (u : Z)
    (st : gset Z * list Z) : result (gset Z * list Z) :=
  match fuel with
  | O => Err OutOfFuel
  | S f =>
      st' ← foldM (fun st e =>
                     if decide (destino e ∈ st.1) then Ok st
                     else dfs1 f a (destino e) st)
                  (adj_get a u) ({[u]} ∪ st.1, st.2);
      Ok (st'.1, st'.2 ++ [u])
  end.

(** [transposto[d].append(src)] *)
Definition transposto_append (d src : Z) (t : gmap Z (list Z))
  : result (gmap Z (list Z)) :=
  match t !! d with
  | Some l => Ok (<[d := l ++ [src]]> t)
  | None => Err (KeyError d)
  end.

Definition transposto_de (g : Grafo) : result (gmap Z (list Z)) :=
  let t0 : gmap Z (list Z) :=
    fold_left (fun t v => <[v := []]> t) (Dict.keys (vertices g)) ∅ in
  foldM (fun t sl =>
           foldM (fun t e => transposto_append (destino e) (fst sl) t)
                 (snd sl) t)
        (adj g) t0.

(** [transposto.get(u, [])] *)
Definition transposto_get (t : gmap Z (list Z)) (u : Z) : list Z :=
  match t !! u with Some l => l | None => [] end.

(** [dfs2(u, comp)]; the state is ([visitados], [comp]). *)
Fixpoint dfs2 (fuel : nat) (t : gmap Z (list Z)) (u : Z)
    (st : gset Z * list Z) : result (gset Z * list Z) :=
  match fuel with
  | O => Err OutOfFuel
  | S f =>
      foldM (fun st w =>
               if decide (w ∈ st.1) then Ok st else dfs2 f t w st)
            (transposto_get t u) ({[u]} ∪ st.1, st.2 ++ [u])
  end.

Definition scc_fuel (g : Grafo) : nat :=
  S (length (vertices g) + length (lista_arestas g)).

Definition componentes_fortemente_conexas (g : Grafo)
  : result (list (list Z)) :=
  let fuel := scc_fuel g in
  st1 ← foldM (fun st v =>
                 if decide (v ∈ st.1) then Ok st else dfs1 fuel (adj g) v st)
              (Dict.keys (vertices g)) (∅, []);
  t ← transposto_de g;
  st2 ← foldM (fun (st : gset Z * list (list Z)) v =>
                 if decide (v ∈ st.1) then Ok st
                 else
                   r ← dfs2 fuel t v (st.1, []);
                   Ok (r.1, st.2 ++ [r.2]))
              (rev st1.2) (∅, []);
  Ok st2.2.

(** *** Reduced graph *)

(** [for idx, comp in enumerate(comps): for v in comp: comp_de[v] = idx] *)
Fixpoint comp_de_desde (idx : nat) (comps : list (list Z))
    (cd : gmap Z nat) : gmap Z nat :=
  match comps with
  | [] => cd
  | comp :: resto =>
      comp_de_desde (S idx) resto
        (fold_left (fun cd v => <[v := idx]> cd) comp cd)
  end.

(** [comp_de[v]] *)
Definition comp_de_get (cd : gmap Z nat) (v : Z) : result nat :=
  match cd !! v with Some i => Ok i | None => Err (KeyError v) end.

(** [reduzido.setdefault(cu, set()).add(cv)] *)
Definition reduzido_add (cu cv : nat) (r : gmap nat (gset nat))
  : gmap nat (gset nat) :=
  <[cu := {[cv]} ∪ default ∅ (r !! cu)]> r.

Definition reduz_aresta (cd : gmap Z nat) (u : Z)
    (r : gmap nat (gset nat)) (e : Aresta) : result (gmap nat (gset nat)) :=
  cu ← comp_de_get cd u;
  cv ← comp_de_get cd (destino e);
  if decide (cu ≠ cv) then Ok (reduzido_add cu cv r) else Ok r.

Definition grafo_reduzido (g : Grafo)
  : result (list (list Z) * gmap nat (gset nat)) :=
  comps ← componentes_fortemente_conexas g;
  let cd := comp_de_desde 0 comps ∅ in
  reduzido ← foldM (fun r ul => foldM (reduz_aresta cd (fst ul)) (snd ul) r)
                   (adj g) ∅;
  Ok (comps, reduzido).

(** *** Category *)

(** The returned labels ["C0"], ["C1"], ["C2"], ["C3"]. *)
Inductive Categoria : Type := C0 | C1 | C2 | C3.

Definition categoria_direcionado (g : Grafo) : result Categoria :=
  match vertices g with
  | [] => Ok C0
  | _ :: _ =>
      match lista_arestas g with
      | [] => Ok C0
      | _ :: _ =>
          comps ← componentes_fortemente_conexas g;
          if Nat.eqb (length comps) 1
             && Nat.eqb (length (nth 0 comps [])) (length (vertices g))
          then Ok C3
          else
            let unitarios :=
              List.filter (fun c => Nat.eqb (length c) 1) comps in
            match unitarios with
            | _ :: _ =>
                if Nat.ltb 1 (length comps) then Ok C1 else Ok C2
            | [] => Ok C2
            end
      end
  end.

(** *** Connectivity, following edges in both directions *)

(** One run of the [while pilha:] loop.  After the destinations of the
    edges of [u], the loop over [adj.items()] pushes the origin of every
    stored edge that ends at [u], once per edge.  The stack is a list whose
    head is the top; the loop has no bound in the source, [fuel] counts its
    iterations. *)
Fixpoint conexo_laco (fuel : nat) (a : Dict.t (list Aresta))
    (pilha : list Z) (visitados : gset Z) : result (gset Z) :=
  match fuel with
  | O => Err OutOfFuel
  | S f =>
      match pilha with
      | [] => Ok visitados
      | u :: resto =>
          if decide (u ∈ visitados) then conexo_laco f a resto visitados
          else
            let vis := {[u]} ∪ visitados in
            let destinos :=
              List.filter (fun d => negb (bool_decide (d ∈ vis)))
                     (map destino (adj_get a u)) in
            let origens :=
              flat_map
                (fun sl =>
                   flat_map
                     (fun e =>
                        if Z.eqb (destino e) u
                           && negb (bool_decide (fst sl ∈ vis))
                        then [fst sl] else [])
                     (snd sl))
                a in
            conexo_laco f a (rev origens ++ rev destinos ++ resto) vis
      end
  end.

Definition conexo_fuel (g : Grafo) : nat :=
  S (S (2 * length (lista_arestas g))).

Definition conexo_nao_direcionado (g : Grafo) : result bool :=
  match Dict.keys (vertices g) with
  | [] => Ok true
  | inicio :: _ =>
      visitados ← conexo_laco (conexo_fuel g) (adj g) [inicio] ∅;
      Ok (Nat.eqb (size visitados) (length (vertices g)))
  end.

End Part000.

(** ** Graphs built by the mutation operations *)

Inductive Op : Type :=
| AddVertice (id_ : Z) (rot : string) (m : option (list string))
| RemVertice (id_ : Z)
| AddAresta (o d : Z) (p : option string)
| RemAresta (o d : Z).

Definition exec11 (g : Grafo) (op : Op) : Grafo :=
  match op with
  | AddVertice i r m => snd (Main11.adicionar_vertice g i r m)
  | RemVertice i => snd (Main11.remover_vertice g i)
  | AddAresta o d p => snd (Main11.adicionar_aresta g o d p)
  | RemAresta o d => snd (Main11.remover_aresta g o d)
  end.

Definition exec000 (g : Grafo) (op : Op) : Grafo :=
  match op with
  | AddVertice i r m => snd (Part000.adicionar_vertice g i r m)
  | RemVertice i => snd (Part000.remover_vertice g i)
  | AddAresta o d p => snd (Part000.adicionar_aresta g o d p)
  | RemAresta o d => snd (Part000.remover_aresta g o d)
  end.

(** The graph obtained from [Grafo(tp)] by a sequence of operations. *)
Definition construido11 (tp : Z) (ops : list Op) : Grafo :=
  fold_left exec11 ops (Grafo_init tp).

Definition construido000 (tp : Z) (ops : list Op) : Grafo :=
  fold_left exec000 ops (Grafo_init tp).

(** The invariant of the data model: identifiers are unique, every vertex
    has its adjacency list (in the same order) and every edge ends at a
    vertex. *)
Fixpoint nodupb (l : list Z) : bool :=
  match l with
  | [] => true
  | x :: l' => negb (existsb (Z.eqb x) l') && nodupb l'
  end.

Definition bem_formado (g : Grafo) : bool :=
  nodupb (Dict.keys (vertices g))
  && bool_decide (Dict.keys (adj g) = Dict.keys (vertices g))
  && forallb (fun e => Dict.mem (destino e) (vertices g)) (lista_arestas g).

(** A stored edge from [o] to [d] with weight [p]. *)
Definition aresta_em (g : Grafo) (o d : Z) (p : option string) : Prop :=
  exists e, In e (adj_get (adj g) o) /\ destino e = d /\ peso e = p.

(** ** Definitions used in the statements *)

(** The same invariant as a proposition, with the edges reached through
    [adj_get]. *)
Definition inv (g : Grafo) : Prop :=
  List.NoDup (Dict.keys (vertices g))
  /\ Dict.keys (adj g) = Dict.keys (vertices g)
  /\ (forall o e, In e (adj_get (adj g) o) ->
                  In (destino e) (Dict.keys (vertices g))).

(** What identifies an edge inside an adjacency list. *)
Definition chave (e : Aresta) : Z * option string := (destino e, peso e).

(** Every stored edge has its mirror, and no list repeats an edge. *)
Definition espelhado (g : Grafo) : Prop :=
  (forall o d p, aresta_em g o d p -> aresta_em g d o p)
  /\ (forall o, List.NoDup (map chave (adj_get (adj g) o))).

(** The stored edges in iteration order, each with the key it is stored
    under. *)
Definition arestas_com_origem (a : Dict.t (list Aresta)) : list (Z * Aresta) :=
  flat_map (fun ol => map (pair (fst ol)) (snd ol)) a.

(** The keys whose counter an edge increments. *)
Definition incrementos (tp : Z) (oe : Z * Aresta) : list Z :=
  if Z.eqb tp 3 then
    if Z.ltb (fst oe) (destino (snd oe)) then [fst oe; destino (snd oe)] else []
  else [fst oe].

(** The degree of [v] in an undirected graph: the stored edges that leave
    [v] for another vertex (each logical edge [v]-[w] is stored once in the
    list of [v] and once, mirrored, in the list of [w]). *)
Definition grau (g : Grafo) (v : Z) : Z :=
  Z.of_nat (length (List.filter (fun e => negb (Z.eqb (destino e) v))
                                (adj_get (adj g) v))).

(** The number of stored edges from [o] to [d] with weight [p]. *)
Definition copias (g : Grafo) (o d : Z) (p : option string) : nat :=
  length (List.filter (fun e => Z.eqb (destino e) d && peso_eqb (peso e) p)
                      (adj_get (adj g) o)).

(** Dirac's condition: every degree is at least [n // 2]. *)
Definition dirac_vale (g : Grafo) : Prop :=
  forall v, In v (Dict.keys (vertices g)) ->
            Z.of_nat (length (vertices g)) / 2 <= grau g v.

(** Ore's condition: the degrees of two distinct vertices that are not
    adjacent add up to at least [n]. *)
Definition ore_vale (g : Grafo) : Prop :=
  forall u v, In u (Dict.keys (vertices g)) -> In v (Dict.keys (vertices g)) ->
              u <> v -> (forall p, ~ aresta_em g u v p) ->
              Z.of_nat (length (vertices g)) <= grau g u + grau g v.

(** What a search does to the set of visited vertices and to the list it
    extends: it adds the same new vertices of [U] to both, and the visited
    set it leaves satisfies [P]. *)
Definition visita (U vis : gset Z) (l : list Z) (P : gset Z -> Prop)
    (r : result (gset Z * list Z)) : Prop :=
  exists novos,
    r = Ok (vis ∪ list_to_set novos, l ++ novos)
    /\ NoDup novos
    /\ (forall x, x ∈ novos -> x ∈ U /\ x ∉ vis)
    /\ P (vis ∪ list_to_set novos).

(** One step of a loop over candidate vertices: [if w not in visitados:
    busca(w)]. *)
Definition laco (busca : Z -> gset Z * list Z -> result (gset Z * list Z))
    (st : gset Z * list Z) (w : Z) : result (gset Z * list Z) :=
  if decide (w ∈ st.1) then Ok st else busca w st.

(** The second pass: one component per unvisited vertex of the reversed
    finishing order. *)
Definition passo2 (fuel : nat) (t : gmap Z (list Z))
    (st : gset Z * list (list Z)) (v : Z) : result (gset Z * list (list Z)) :=
  if decide (v ∈ st.1) then Ok st
  else r ← Part000.dfs2 fuel t v (st.1, []); Ok (r.1, st.2 ++ [r.2]).

(** The directed 3-cycle 1 -> 2 -> 3 -> 1. *)
Definition ciclo3 : Grafo :=
  construido000 0
    [AddVertice 1 "a" None; AddVertice 2 "b" None; AddVertice 3 "c" None;
     AddAresta 1 2 None; AddAresta 2 3 None; AddAresta 3 1 None].

(** The index of the component of [v]. *)
Definition componente_de (comps : list (list Z)) (v : Z) (i : nat) : Prop :=
  exists c, nth_error comps i = Some c /\ In v c.

(** The edges the connectivity search may still push: those stored under
    keys it has not visited. *)
Definition peso_restante (a : Dict.t (list Aresta)) (vis : gset Z) : nat :=
  list_sum (map (fun kl => if decide (fst kl ∈ vis) then 0%nat
                           else length (snd kl)) a).

(** ** Definitions used in the further properties *)

(** The sum of a list of integers. *)
Definition soma (l : list Z) : Z := fold_right Z.add 0 l.

(** The stored edges counted by [calcular_graus] in a graph of kind 3:
    those whose origin is smaller than their destination. *)
Definition arestas_contadas (g : Grafo) : list (Z * Aresta) :=
  List.filter (fun oe => Z.ltb (fst oe) (destino (snd oe)))
              (arestas_com_origem (adj g)).

(** A stored edge leads from [x] to [y]. *)
Definition aresta_entre (a : Dict.t (list Aresta)) (x y : Z) : Prop :=
  exists e, In e (adj_get a x) /\ destino e = y.

(** [y] can be reached from [x] along stored edges. *)
Definition alcanca (a : Dict.t (list Aresta)) : Z -> Z -> Prop :=
  rtc (aresta_entre a).

(** Every vertex can be reached from every vertex. *)
Definition conexo_vale (g : Grafo) : Prop :=
  forall u v, In u (Dict.keys (vertices g)) -> In v (Dict.keys (vertices g)) ->
              alcanca (adj g) u v.

(** The stack-based search of both variants of [conexo_nao_direcionado],
    for any function [suc] that lists what a vertex pushes. *)
Fixpoint busca_pilha (suc : Z -> list Z) (fuel : nat) (pilha : list Z)
    (visitados : gset Z) : result (gset Z) :=
  match fuel with
  | O => Err OutOfFuel
  | S f =>
      match pilha with
      | [] => Ok visitados
      | u :: resto =>
          if decide (u ∈ visitados) then busca_pilha suc f resto visitados
          else
            let vis := {[u]} ∪ visitados in
            let novos :=
              List.filter (fun d => negb (bool_decide (d ∈ vis))) (suc u) in
            busca_pilha suc f (rev novos ++ resto) vis
      end
  end.

(** [x] and [y] reach each other: they are in the same strongly connected
    component. *)
Definition fortemente (a : Dict.t (list Aresta)) (x y : Z) : Prop :=
  alcanca a x y /\ alcanca a y x.

(** [z] is [m] or comes before [m] in the list [L]. *)
Definition antes_ou_igual (L : list Z) (z m : Z) : Prop :=
  exists L1 L2, L = L1 ++ m :: L2 /\ In z (L1 ++ [m]).

(** The state of the first pass of Kosaraju's algorithm: [L] lists the
    finished vertices in finishing order, the vertices of [vis] that are
    not in [L] are those whose search is still running.  Every edge from a
    finished vertex leads to a visited one; and a finished vertex either
    shares its component with a running one, or everything it reaches is
    finished and the last to finish among that is in its component. *)
Definition estado1 (a : Dict.t (list Aresta)) (vis : gset Z) (L : list Z)
  : Prop :=
  (forall x, In x L -> x ∈ vis)
  /\ (forall x z, In x L -> aresta_entre a x z -> z ∈ vis)
  /\ (forall y, In y L ->
        (exists g, g ∈ vis /\ ~ In g L /\ fortemente a y g)
        \/ (exists m, fortemente a y m
                      /\ forall z, alcanca a y z -> antes_ou_igual L z m)).

(** What a search of the first pass guarantees when it returns. *)
Definition busca1_correta (a : Dict.t (list Aresta))
    (busca : Z -> gset Z * list Z -> result (gset Z * list Z)) : Prop :=
  forall u vis L vis' L',
    busca u (vis, L) = Ok (vis', L') ->
    u ∉ vis -> estado1 a vis L ->
    (forall g, g ∈ vis -> ~ In g L -> alcanca a g u) ->
    estado1 a vis' L'
    /\ exists N, L' = L ++ N /\ vis' = vis ∪ list_to_set N
                 /\ (forall x, In x N -> x ∉ vis) /\ In u N.

(** What a search of the second pass guarantees when it returns: the new
    vertices are reached from [u] in the transposed adjacency, and whatever
    the transposed adjacency lists for them is visited. *)
Definition busca2_correta (t : gmap Z (list Z))
    (busca : Z -> gset Z * list Z -> result (gset Z * list Z)) : Prop :=
  forall u vis l vis' l',
    busca u (vis, l) = Ok (vis', l') -> u ∉ vis ->
    exists N, l' = l ++ N /\ vis' = vis ∪ list_to_set N
              /\ (forall x, In x N -> x ∉ vis) /\ In u N
              /\ (forall x, In x N ->
                    rtc (fun x y => In y (Part000.transposto_get t x)) u x)
              /\ (forall x w, In x N -> In w (Part000.transposto_get t x) ->
                              w ∈ vis').

(** The state of the second pass: the visited vertices are those of the
    components found so far, no edge enters them from outside, and each
    component found is a class of mutually reachable vertices. *)
Definition estado2 (a : Dict.t (list Aresta)) (W : gset Z)
    (comps : list (list Z)) : Prop :=
  (forall x, x ∈ W <-> In x (concat comps))
  /\ (forall w x, x ∈ W -> aresta_entre a w x -> w ∈ W)
  /\ (forall c x y, In c comps -> In x c -> (In y c <-> fortemente a x y)).

(** [v] is a vertex that forms a strongly connected component on its own:
    no other vertex both is reached from it and reaches it. *)
Definition sozinho (g : Grafo) (v : Z) : Prop :=
  In v (Dict.keys (vertices g))
  /\ forall w, alcanca (adj g) v w -> alcanca (adj g) w v -> w = v.

(** The origins of the stored edges that end at [u], one per edge, in
    storage order. *)
Definition origens (a : Dict.t (list Aresta)) (u : Z) : list Z :=
  map fst (List.filter (fun oe => Z.eqb (destino (snd oe)) u)
                       (arestas_com_origem a)).

(** What the older variant of the connectivity search pushes for [u]. *)
Definition vizinhos (a : Dict.t (list Aresta)) (u : Z) : list Z :=
  map destino (adj_get a u) ++ origens a u.

(** A stored edge joins [x] and [y], in one direction or the other. *)
Definition ligados (a : Dict.t (list Aresta)) (x y : Z) : Prop :=
  aresta_entre a x y \/ aresta_entre a y x.

(** The pushes the older connectivity search may still make: for every
    stored edge, one for its origin and one for its destination, as long
    as that endpoint is not visited. *)
Definition peso_duplo (E : list (Z * Aresta)) (vis : gset Z) : nat :=
  list_sum (map (fun oe =>
                   ((if decide (fst oe ∈ vis) then 0 else 1)
                    + (if decide (destino (snd oe) ∈ vis) then 0 else 1))%nat)
                E).

(** The stored edges in the order [salvar_grafo] visits them: key by key,
    each with its key. *)
Definition arestas_por_chave (a : Dict.t (list Aresta)) : list (Z * Aresta) :=
  flat_map (fun o => map (pair o) (adj_get a o)) (Dict.keys a).

(** The edge [oe] (with its key) joins [x] and [y], in one direction or the
    other. *)
Definition liga (x y : Z) (oe : Z * Aresta) : bool :=
  (Z.eqb (fst oe) x && Z.eqb (destino (snd oe)) y)
  || (Z.eqb (fst oe) y && Z.eqb (destino (snd oe)) x).

(** The direction (key, destination) of the first edge of [E] that joins
    [x] and [y]. *)
Definition primeira (E : list (Z * Aresta)) (x y : Z) : option (Z * Z) :=
  match find (liga x y) E with
  | Some oe => Some (fst oe, destino (snd oe))
  | None => None
  end.

(** The edges of [Er] that are kept after the edges [Ep] have been seen:
    those that are not preceded by an edge joining the same two vertices in
    the opposite direction (for a self-loop: by a self-loop at the same
    vertex). *)
Fixpoint selecionadas (Ep Er : list (Z * Aresta)) : list Aresta :=
  match Er with
  | [] => []
  | oe :: Er' =>
      (if decide (primeira Ep (destino (snd oe)) (fst oe)
                  = Some (destino (snd oe), fst oe))
       then [] else [snd oe])
      ++ selecionadas (Ep ++ [oe]) Er'
  end.

(** ** Example graphs *)

(** The undirected path 1 - 2 - 3 - 4 - 5. *)
Definition caminho5 : Grafo :=
  construido11 3
    [AddVertice 1 "a" None; AddVertice 2 "b" None; AddVertice 3 "c" None;
     AddVertice 4 "d" None; AddVertice 5 "e" None;
     AddAresta 1 2 None; AddAresta 2 3 None; AddAresta 3 4 None;
     AddAresta 4 5 None].

(** The undirected 4-cycle 1 - 2 - 3 - 4 - 1, and the same with the pendant
    edge 4 - 5. *)
Definition ciclo4 : Grafo :=
  construido11 3
    [AddVertice 1 "a" None; AddVertice 2 "b" None; AddVertice 3 "c" None;
     AddVertice 4 "d" None;
     AddAresta 1 2 None; AddAresta 2 3 None; AddAresta 3 4 None;
     AddAresta 4 1 None].

Definition ciclo4_pendente : Grafo :=
  exec11 (exec11 ciclo4 (AddVertice 5 "e" None)) (AddAresta 4 5 None).

(** The complete undirected graph on 5 vertices. *)
Definition completo5 : Grafo :=
  construido11 3
    [AddVertice 1 "a" None; AddVertice 2 "b" None; AddVertice 3 "c" None;
     AddVertice 4 "d" None; AddVertice 5 "e" None;
     AddAresta 1 2 None; AddAresta 1 3 None; AddAresta 1 4 None;
     AddAresta 1 5 None; AddAresta 2 3 None; AddAresta 2 4 None;
     AddAresta 2 5 None; AddAresta 3 4 None; AddAresta 3 5 None;
     AddAresta 4 5 None].

(** A directed graph with the single edge 1 -> 2. *)
Definition dirigido2 : Grafo :=
  construido11 0
    [AddVertice 1 "a" None; AddVertice 2 "b" None; AddAresta 1 2 None].

(** Two isolated vertices in an undirected graph. *)
Definition desconexo2 : Grafo :=
  construido11 3 [AddVertice 1 "a" None; AddVertice 2 "b" None].

(** One vertex with a self-loop, undirected. *)
Definition laco1 : Grafo :=
  construido11 3 [AddVertice 1 "a" None; AddAresta 1 1 None].

(** The undirected edge 1 - 2 stored with two different weights. *)
Definition paralelas : Grafo :=
  construido11 3
    [AddVertice 1 "a" None; AddVertice 2 "b" None;
     AddAresta 1 2 None; AddAresta 1 2 (Some "1.2 km")].

(** ** Facts about dictionaries *)

Section DictFacts.
Context {V : Type}.
Implicit Types (d : Dict.t V) (k : Z) (v : V).

Lemma get_set_eq k v d : Dict.get k (Dict.set k v d) = Some v.
Proof.
  induction d as [|[k' v'] d IH]; simpl.
  - now rewrite Z.eqb_refl.
  - destruct (Z.eqb k k') eqn:E; simpl; rewrite E; auto.
Qed.

Lemma get_set_ne k k' v d :
  k <> k' -> Dict.get k' (Dict.set k v d) = Dict.get k' d.
Proof.
  intros Hne. induction d as [|[k1 v1] d IH]; simpl.
  - destruct (Z.eqb k' k) eqn:E; auto. apply Z.eqb_eq in E. congruence.
  - destruct (Z.eqb k k1) eqn:E; simpl.
    + apply Z.eqb_eq in E. subst k1.
      destruct (Z.eqb k' k) eqn:E'; auto. apply Z.eqb_eq in E'. congruence.
    + now rewrite IH.
Qed.

Lemma get_Some_In k v d : Dict.get k d = Some v -> In (k, v) d.
Proof.
  induction d as [|[k' v'] d IH]; simpl; [discriminate|].
  destruct (Z.eqb k k') eqn:E.
  - apply Z.eqb_eq in E. intros [= ->]. subst. now left.
  - intros H. right. auto.
Qed.

Lemma get_None_keys k d : Dict.get k d = None <-> ~ In k (Dict.keys d).
Proof.
  induction d as [|[k' v'] d IH]; simpl.
  - tauto.
  - destruct (Z.eqb k k') eqn:E.
    + apply Z.eqb_eq in E. subst. split; [discriminate|]. tauto.
    + apply Z.eqb_neq in E. rewrite IH. split; [|tauto].
      intros H [H'|H']; [congruence|tauto].
Qed.

Lemma mem_keys k d : Dict.mem k d = true <-> In k (Dict.keys d).
Proof.
  unfold Dict.mem. destruct (Dict.get k d) eqn:E.
  - split; auto. intros _. apply get_Some_In in E.
    apply in_map_iff. exists (k, v). auto.
  - split; [discriminate|]. apply get_None_keys in E. tauto.
Qed.

Lemma mem_false_keys k d : Dict.mem k d = false <-> ~ In k (Dict.keys d).
Proof.
  rewrite <- mem_keys. destruct (Dict.mem k d); split; congruence.
Qed.

Lemma In_get k v d : List.NoDup (Dict.keys d) -> In (k, v) d -> Dict.get k d = Some v.
Proof.
  induction d as [|[k' v'] d IH]; simpl; [tauto|].
  intros Hnd [H|H].
  - injection H as -> ->. now rewrite Z.eqb_refl.
  - apply NoDup_cons_iff in Hnd as [Hn Hnd].
    destruct (Z.eqb k k') eqn:E; auto.
    apply Z.eqb_eq in E. subst. exfalso. apply Hn.
    apply in_map_iff. exists (k', v). auto.
Qed.

Lemma keys_set_mem k v d :
  Dict.mem k d = true -> Dict.keys (Dict.set k v d) = Dict.keys d.
Proof.
  unfold Dict.mem. induction d as [|[k' v'] d IH]; simpl; [discriminate|].
  destruct (Z.eqb k k') eqn:E; simpl; auto.
  intros H. now rewrite IH.
Qed.

Lemma keys_set_new k v d :
  Dict.mem k d = false -> Dict.keys (Dict.set k v d) = Dict.keys d ++ [k].
Proof.
  unfold Dict.mem. induction d as [|[k' v'] d IH]; simpl; auto.
  destruct (Z.eqb k k') eqn:E; simpl; [discriminate|].
  intros H. now rewrite IH.
Qed.

Lemma keys_del k d :
  Dict.keys (Dict.del k d)
  = List.filter (fun k' => negb (Z.eqb k k')) (Dict.keys d).
Proof.
  unfold Dict.del, Dict.keys. induction d as [|[k' v'] d IH]; simpl; auto.
  destruct (Z.eqb k k'); simpl; now rewrite IH.
Qed.

Lemma get_del_eq k d : Dict.get k (Dict.del k d) = None.
Proof.
  apply get_None_keys. rewrite keys_del, filter_In.
  intros [_ H]. now rewrite Z.eqb_refl in H.
Qed.

Lemma get_del_ne k k' d :
  k <> k' -> Dict.get k' (Dict.del k d) = Dict.get k' d.
Proof.
  intros Hne. unfold Dict.del.
  induction d as [|[k1 v1] d IH]; simpl; auto.
  destruct (Z.eqb k k1) eqn:E; simpl.
  - apply Z.eqb_eq in E. subst k1.
    destruct (Z.eqb k' k) eqn:E'; auto. apply Z.eqb_eq in E'. congruence.
  - now rewrite IH.
Qed.

Lemma get_map_values {W} (f : V -> W) k d :
  Dict.get k (Dict.map_values f d) = option_map f (Dict.get k d).
Proof.
  induction d as [|[k' v'] d IH]; simpl; auto.
  destruct (Z.eqb k k'); auto.
Qed.

Lemma keys_map_values {W} (f : V -> W) d :
  Dict.keys (Dict.map_values f d) = Dict.keys d.
Proof.
  unfold Dict.keys, Dict.map_values. rewrite map_map. reflexivity.
Qed.

End DictFacts.

(** ** Facts about adjacency lists *)

Lemma peso_eqb_eq p q : peso_eqb p q = true <-> p = q.
Proof.
  destruct p as [a|], q as [b|]; simpl; try (split; congruence).
  rewrite String.eqb_eq. split; congruence.
Qed.

Lemma tem_aresta_spec l d p :
  tem_aresta l d p = true
  <-> exists e, In e l /\ destino e = d /\ peso e = p.
Proof.
  unfold tem_aresta. rewrite existsb_exists.
  split; intros (e & He & H); exists e; split; auto.
  - apply andb_true_iff in H as [H1 H2].
    apply Z.eqb_eq in H1. apply peso_eqb_eq in H2. auto.
  - destruct H as [H1 H2]. apply andb_true_iff.
    split; [now apply Z.eqb_eq | now apply peso_eqb_eq].
Qed.

Lemma adj_get_set_eq a o l : adj_get (Dict.set o l a) o = l.
Proof. unfold adj_get. now rewrite get_set_eq. Qed.

Lemma adj_get_set_ne a o o' l :
  o <> o' -> adj_get (Dict.set o l a) o' = adj_get a o'.
Proof. intros H. unfold adj_get. now rewrite get_set_ne. Qed.

Lemma adj_get_append_eq a o e :
  adj_get (adj_append a o e) o = adj_get a o ++ [e].
Proof. apply adj_get_set_eq. Qed.

Lemma adj_get_append_ne a o o' e :
  o <> o' -> adj_get (adj_append a o e) o' = adj_get a o'.
Proof. apply adj_get_set_ne. Qed.

Lemma adj_get_In_lista g o e :
  In e (adj_get (adj g) o) -> In e (lista_arestas g).
Proof.
  unfold adj_get, lista_arestas. destruct (Dict.get o (adj g)) eqn:E; [|easy].
  intros He. apply in_concat. exists l. split; auto.
  apply get_Some_In in E. unfold Dict.values.
  apply in_map_iff. exists (o, l). auto.
Qed.

Lemma adj_get_nil_of_absent (a : Dict.t (list Aresta)) o :
  ~ In o (Dict.keys a) -> adj_get a o = [].
Proof. intros H. apply get_None_keys in H. unfold adj_get. now rewrite H. Qed.

Lemma nodupb_spec l : nodupb l = true <-> List.NoDup l.
Proof.
  induction l as [|x l IH]; simpl.
  - split; auto. constructor.
  - rewrite andb_true_iff, negb_true_iff, IH, List.NoDup_cons_iff.
    assert (existsb (Z.eqb x) l = false <-> ~ In x l) as ->; [|tauto].
    rewrite <- not_true_iff_false, existsb_exists.
    split; intros H H'; apply H.
    + exists x. split; auto. apply Z.eqb_refl.
    + destruct H' as (y & Hy & E). apply Z.eqb_eq in E. now subst.
Qed.

Lemma bem_formado_spec g :
  bem_formado g = true
  <-> List.NoDup (Dict.keys (vertices g))
      /\ Dict.keys (adj g) = Dict.keys (vertices g)
      /\ (forall e, In e (lista_arestas g) ->
                    In (destino e) (Dict.keys (vertices g))).
Proof.
  unfold bem_formado.
  rewrite !andb_true_iff, nodupb_spec, bool_decide_eq_true, forallb_forall.
  split.
  - intros [[H1 H2] H3]. repeat split; auto.
    intros e He. apply mem_keys. auto.
  - intros (H1 & H2 & H3). repeat split; auto.
    intros e He. apply mem_keys. auto.
Qed.

(** ** Adding and removing edges *)

Lemma aresta_em_tem g o d p :
  aresta_em g o d p <-> tem_aresta (adj_get (adj g) o) d p = true.
Proof. unfold aresta_em. now rewrite tem_aresta_spec. Qed.

Lemma adicionar_aresta_falha g o d p :
  fst (Main11.adicionar_aresta g o d p) = false
  <-> (~ In o (Dict.keys (vertices g))
       \/ ~ In d (Dict.keys (vertices g))
       \/ aresta_em g o d p).
Proof.
  unfold Main11.adicionar_aresta. rewrite aresta_em_tem, <- !mem_false_keys.
  destruct (Dict.mem o (vertices g)), (Dict.mem d (vertices g)); simpl;
    try (split; auto; fail).
  destruct (tem_aresta (adj_get (adj g) o) d p); simpl.
  - split; auto.
  - split; [discriminate|]. intros [H|[H|H]]; discriminate.
Qed.

Lemma adicionar_aresta_sucesso g o d p :
  fst (Main11.adicionar_aresta g o d p) = true ->
  let a1 := adj_append (adj g) o (mkAresta o d p) in
  adj (snd (Main11.adicionar_aresta g o d p))
  = (if Z.eqb (tipo g) 3 && negb (tem_aresta (adj_get a1 d) o p)
     then adj_append a1 d (mkAresta d o p) else a1)
  /\ vertices (snd (Main11.adicionar_aresta g o d p)) = vertices g
  /\ tipo (snd (Main11.adicionar_aresta g o d p)) = tipo g.
Proof.
  unfold Main11.adicionar_aresta.
  destruct (negb (Dict.mem o (vertices g)) || negb (Dict.mem d (vertices g)));
    [discriminate|].
  destruct (tem_aresta (adj_get (adj g) o) d p); [discriminate|].
  simpl. intros _. destruct (Z.eqb (tipo g) 3); simpl; auto.
Qed.

(** C3. [adicionar_aresta] returns [False] exactly when an endpoint is not
    a vertex or an edge with the same origin, destination and weight is
    already stored, and then the graph is unchanged; when it returns [True]
    the edge is stored and, in a graph of kind 3, so is its mirror. *)
Theorem adicionar_aresta_spec (g : Grafo) (o d : Z) (p : option string) :
  let r := Main11.adicionar_aresta g o d p in
  (fst r = false
   <-> (~ In o (Dict.keys (vertices g))
        \/ ~ In d (Dict.keys (vertices g))
        \/ aresta_em g o d p))
  /\ (fst r = false -> snd r = g)
  /\ (fst r = true -> aresta_em (snd r) o d p)
  /\ (fst r = true -> tipo g = 3 ->
      aresta_em (snd r) d o p
      /\ (aresta_em (snd r) o d p <-> aresta_em (snd r) d o p)).
Proof.
  cbv zeta. split; [apply adicionar_aresta_falha|].
  split.
  { unfold Main11.adicionar_aresta.
    destruct (negb (Dict.mem o (vertices g)) || negb (Dict.mem d (vertices g)));
      auto.
    destruct (tem_aresta (adj_get (adj g) o) d p); auto.
    discriminate. }
  assert (Hfwd : fst (Main11.adicionar_aresta g o d p) = true ->
                 aresta_em (snd (Main11.adicionar_aresta g o d p)) o d p).
  { intros Hok. destruct (adicionar_aresta_sucesso g o d p Hok) as (Ha & _ & _).
    unfold aresta_em. rewrite Ha. exists (mkAresta o d p).
    split; [|auto].
    destruct (Z.eqb (tipo g) 3
              && negb (tem_aresta
                         (adj_get (adj_append (adj g) o (mkAresta o d p)) d)
                         o p)).
    - destruct (Z.eq_dec d o) as [->|Hne].
      + rewrite adj_get_append_eq, adj_get_append_eq, !in_app_iff. simpl. auto.
      + rewrite adj_get_append_ne by auto.
        rewrite adj_get_append_eq, in_app_iff. simpl. auto.
    - rewrite adj_get_append_eq, in_app_iff. simpl. auto. }
  split; [exact Hfwd|].
  intros Hok Htp.
  assert (Hmir : aresta_em (snd (Main11.adicionar_aresta g o d p)) d o p).
  { destruct (adicionar_aresta_sucesso g o d p Hok) as (Ha & _ & _).
    apply Z.eqb_eq in Htp. rewrite Htp in Ha. simpl in Ha.
    unfold aresta_em. rewrite Ha.
    destruct (tem_aresta
                (adj_get (adj_append (adj g) o (mkAresta o d p)) d) o p)
      eqn:E; simpl.
    - now apply tem_aresta_spec.
    - exists (mkAresta d o p). rewrite adj_get_append_eq, in_app_iff.
      simpl. auto. }
  split; [exact Hmir|]. split; auto.
Qed.

(** In the older variant the same conditions reject an edge, and no mirror
    is ever stored; on graphs of a kind other than 3 the two variants
    agree. *)
Lemma adicionar_aresta_000_falha g o d p :
  fst (Part000.adicionar_aresta g o d p) = fst (Main11.adicionar_aresta g o d p).
Proof.
  unfold Part000.adicionar_aresta, Main11.adicionar_aresta.
  destruct (negb (Dict.mem o (vertices g)) || negb (Dict.mem d (vertices g)));
    auto.
  destruct (tem_aresta (adj_get (adj g) o) d p); auto.
Qed.

Lemma adicionar_aresta_000_dirigido g o d p :
  tipo g <> 3 ->
  Part000.adicionar_aresta g o d p = Main11.adicionar_aresta g o d p.
Proof.
  intros H. apply Z.eqb_neq in H.
  unfold Part000.adicionar_aresta, Main11.adicionar_aresta. now rewrite H.
Qed.

Lemma adj_get_remover_aresta_origem g o d e :
  In e (adj_get (adj (snd (Main11.remover_aresta g o d))) o) ->
  In e (adj_get (adj g) o) /\ destino e <> d.
Proof.
  unfold Main11.remover_aresta.
  destruct (Dict.get o (adj g)) as [lo|] eqn:Eo; simpl.
  2:{ unfold adj_get. now rewrite Eo. }
  assert (Hlo : adj_get (adj g) o = lo) by (unfold adj_get; now rewrite Eo).
  rewrite Hlo.
  destruct (Z.eqb (tipo g) 3 && Dict.mem d (Dict.set o _ (adj g))).
  - destruct (Z.eq_dec d o) as [->|Hne].
    + rewrite !adj_get_set_eq, !filter_In, negb_true_iff, Z.eqb_neq. tauto.
    + rewrite adj_get_set_ne, adj_get_set_eq by auto.
      rewrite filter_In, negb_true_iff, Z.eqb_neq. tauto.
  - rewrite adj_get_set_eq, filter_In, negb_true_iff, Z.eqb_neq. tauto.
Qed.

Lemma adj_get_remover_aresta_espelho g o d e :
  tipo g = 3 -> In o (Dict.keys (adj g)) ->
  In e (adj_get (adj (snd (Main11.remover_aresta g o d))) d) ->
  In e (adj_get (adj g) d) /\ destino e <> o.
Proof.
  intros Htp Ho. apply Z.eqb_eq in Htp.
  unfold Main11.remover_aresta.
  destruct (Dict.get o (adj g)) as [lo|] eqn:Eo; simpl.
  2:{ apply get_None_keys in Eo. tauto. }
  assert (Hlo : adj_get (adj g) o = lo) by (unfold adj_get; now rewrite Eo).
  rewrite Htp. simpl.
  set (a1 := Dict.set o _ (adj g)).
  assert (Ha1 : forall e', In e' (adj_get a1 d) -> In e' (adj_get (adj g) d)).
  { intros e'. unfold a1. destruct (Z.eq_dec o d) as [->|Hne].
    - rewrite adj_get_set_eq, Hlo, filter_In. tauto.
    - now rewrite adj_get_set_ne by auto. }
  destruct (Dict.mem d a1) eqn:Em.
  - rewrite adj_get_set_eq, filter_In, negb_true_iff, Z.eqb_neq.
    intros [H1 H2]. auto.
  - unfold adj_get at 1. unfold Dict.mem in Em.
    destruct (Dict.get d a1); [discriminate|]. easy.
Qed.

(** C4. After [remover_aresta(o, d)] no edge from [o] to [d] is stored,
    whatever its weight, and in a graph of kind 3 no edge from [d] to [o]
    either; the other edges leaving [o] are kept. *)
Theorem remover_aresta_spec (g : Grafo) (o d : Z) :
  bem_formado g = true ->
  let g' := snd (Main11.remover_aresta g o d) in
  (forall p, ~ aresta_em g' o d p)
  /\ (tipo g = 3 -> forall p, ~ aresta_em g' d o p)
  /\ (forall e, In e (adj_get (adj g) o) -> destino e <> d ->
                In e (adj_get (adj g') o)).
Proof.
  intros Hwf. apply bem_formado_spec in Hwf as (Hnd & Hk & Hd). cbv zeta.
  split; [|split].
  - intros p (e & He & Hde & _).
    apply adj_get_remover_aresta_origem in He. tauto.
  - intros Htp p (e & He & Hde & _).
    destruct (in_dec Z.eq_dec o (Dict.keys (adj g))) as [Ho|Ho].
    + apply adj_get_remover_aresta_espelho in He; tauto.
    + assert (Heq : snd (Main11.remover_aresta g o d) = g).
      { unfold Main11.remover_aresta. apply get_None_keys in Ho.
        now rewrite Ho. }
      rewrite Heq in He. apply adj_get_In_lista, Hd in He.
      rewrite Hde, <- Hk in He. tauto.
  - intros e He Hde.
    unfold Main11.remover_aresta.
    destruct (Dict.get o (adj g)) as [lo|] eqn:Eo; simpl; auto.
    assert (Hlo : adj_get (adj g) o = lo) by (unfold adj_get; now rewrite Eo).
    rewrite Hlo in He.
    destruct (Z.eqb (tipo g) 3 && Dict.mem d (Dict.set o _ (adj g))).
    + destruct (Z.eq_dec d o) as [->|Hne].
      * rewrite !adj_get_set_eq, !filter_In, negb_true_iff, Z.eqb_neq. tauto.
      * rewrite adj_get_set_ne, adj_get_set_eq by auto.
        rewrite filter_In, negb_true_iff, Z.eqb_neq. tauto.
    + rewrite adj_get_set_eq, filter_In, negb_true_iff, Z.eqb_neq. tauto.
Qed.

(** In the older variant only the forward direction is filtered; on graphs
    of a kind other than 3 the two variants agree. *)
Lemma remover_aresta_000_dirigido g o d :
  tipo g <> 3 -> Part000.remover_aresta g o d = Main11.remover_aresta g o d.
Proof.
  intros H. apply Z.eqb_neq in H.
  unfold Part000.remover_aresta, Main11.remover_aresta.
  destruct (Dict.get o (adj g)); auto.
  rewrite H. simpl. now rewrite adj_get_set_eq.
Qed.

(** ** Removing and re-adding a vertex *)

Lemma remover_vertice_sucesso g v :
  In v (Dict.keys (vertices g)) ->
  Main11.remover_vertice g v
  = (true,
     mkGrafo (tipo g) (Dict.del v (vertices g))
       (Dict.map_values
          (List.filter (fun e => negb (Z.eqb (destino e) v)))
          (Dict.del v (adj g)))).
Proof.
  intros H. apply mem_keys in H. unfold Main11.remover_vertice. now rewrite H.
Qed.

Lemma adj_get_remover_vertice g v o :
  In v (Dict.keys (vertices g)) ->
  adj_get (adj (snd (Main11.remover_vertice g v))) o
  = if Z.eqb o v then []
    else List.filter (fun e => negb (Z.eqb (destino e) v)) (adj_get (adj g) o).
Proof.
  intros H. rewrite remover_vertice_sucesso by auto. simpl.
  unfold adj_get. rewrite get_map_values.
  destruct (Z.eqb o v) eqn:E.
  - apply Z.eqb_eq in E. subst. now rewrite get_del_eq.
  - apply Z.eqb_neq in E. rewrite get_del_ne by auto.
    destruct (Dict.get o (adj g)); auto.
Qed.

Lemma adj_get_adicionar_vertice g v r m o :
  adj_get (adj (snd (Main11.adicionar_vertice g v r m))) o = adj_get (adj g) o.
Proof.
  unfold Main11.adicionar_vertice.
  destruct (Dict.mem v (vertices g)); simpl; auto.
  destruct (Dict.mem v (adj g)) eqn:E; auto.
  destruct (Z.eq_dec v o) as [->|Hne].
  - rewrite adj_get_set_eq. symmetry. apply adj_get_nil_of_absent.
    now apply mem_false_keys.
  - now apply adj_get_set_ne.
Qed.

(** C9. Removing a present vertex and adding it again both succeed, and in
    the resulting graph no stored edge leaves [v] or ends at [v]: the
    edges that were incident to [v] are not restored. *)
Theorem remover_adicionar_vertice (g : Grafo) (v : Z) (r : string)
    (m : option (list string)) :
  In v (Dict.keys (vertices g)) ->
  let g1 := snd (Main11.remover_vertice g v) in
  let g2 := snd (Main11.adicionar_vertice g1 v r m) in
  fst (Main11.remover_vertice g v) = true
  /\ fst (Main11.adicionar_vertice g1 v r m) = true
  /\ In v (Dict.keys (vertices g2))
  /\ adj_get (adj g2) v = []
  /\ (forall o e, In e (adj_get (adj g2) o) -> o <> v /\ destino e <> v)
  /\ (forall o e, In e (adj_get (adj g2) o) -> In e (adj_get (adj g) o)).
Proof.
  intros Hv. cbv zeta.
  assert (Hget : forall o,
    adj_get (adj (snd (Main11.adicionar_vertice
                         (snd (Main11.remover_vertice g v)) v r m))) o
    = if Z.eqb o v then []
      else List.filter (fun e => negb (Z.eqb (destino e) v)) (adj_get (adj g) o)).
  { intros o. rewrite adj_get_adicionar_vertice.
    now apply adj_get_remover_vertice. }
  assert (Hmem : Dict.mem v (vertices (snd (Main11.remover_vertice g v))) = false).
  { rewrite remover_vertice_sucesso by auto. simpl.
    unfold Dict.mem. now rewrite get_del_eq. }
  split; [now rewrite remover_vertice_sucesso|].
  split; [unfold Main11.adicionar_vertice; now rewrite Hmem|].
  split.
  { unfold Main11.adicionar_vertice. rewrite Hmem. simpl.
    apply mem_keys. unfold Dict.mem. now rewrite get_set_eq. }
  split; [rewrite Hget; now rewrite Z.eqb_refl|].
  split.
  - intros o e. rewrite Hget. destruct (Z.eqb o v) eqn:E; [easy|].
    apply Z.eqb_neq in E. rewrite filter_In, negb_true_iff, Z.eqb_neq. tauto.
  - intros o e. rewrite Hget. destruct (Z.eqb o v); [easy|].
    rewrite filter_In. tauto.
Qed.

(** ** The invariant of graphs built by the operations *)

Lemma In_lista_adj_get g e :
  List.NoDup (Dict.keys (adj g)) ->
  In e (lista_arestas g) -> exists o, In e (adj_get (adj g) o).
Proof.
  intros Hnd He. unfold lista_arestas in He.
  apply in_concat in He as (l & Hl & He).
  apply in_map_iff in Hl as ([o l'] & <- & Hol). simpl in He.
  exists o. unfold adj_get. now rewrite (In_get _ _ _ Hnd Hol).
Qed.

Lemma inv_bem_formado g : inv g <-> bem_formado g = true.
Proof.
  rewrite bem_formado_spec. unfold inv.
  split; intros (H1 & H2 & H3); repeat split; auto.
  - intros e He. apply In_lista_adj_get in He as [o Ho]; eauto.
    now rewrite H2.
  - intros o e He. eapply H3, adj_get_In_lista, He.
Qed.

Lemma inv_init tp : inv (Grafo_init tp).
Proof. repeat split; simpl; [constructor|easy]. Qed.

Lemma adj_get_In_keys (a : Dict.t (list Aresta)) o e :
  In e (adj_get a o) -> In o (Dict.keys a).
Proof.
  intros He. destruct (in_dec Z.eq_dec o (Dict.keys a)); auto.
  rewrite adj_get_nil_of_absent in He; easy.
Qed.

Lemma NoDup_filter_Z (f : Z -> bool) l :
  List.NoDup l -> List.NoDup (List.filter f l).
Proof. apply List.NoDup_filter. Qed.

Lemma inv_adicionar_vertice g v r m :
  inv g -> inv (snd (Main11.adicionar_vertice g v r m)).
Proof.
  intros (Hnd & Hk & Hd).
  assert (Hget := adj_get_adicionar_vertice g v r m).
  unfold inv. unfold Main11.adicionar_vertice in *.
  destruct (Dict.mem v (vertices g)) eqn:Ev; simpl in *; [easy|].
  assert (Ea : Dict.mem v (adj g) = false).
  { apply mem_false_keys. rewrite Hk. now apply mem_false_keys. }
  rewrite Ea in *. rewrite !keys_set_new by auto.
  split; [|split].
  - apply List.NoDup_app; auto.
    + constructor; [easy|constructor].
    + intros x Hx [<-|[]]. now apply mem_false_keys in Ev.
  - now rewrite Hk.
  - intros o e He. rewrite Hget in He. apply in_app_iff. left. eauto.
Qed.

Lemma inv_remover_vertice g v :
  inv g -> inv (snd (Main11.remover_vertice g v)).
Proof.
  intros (Hnd & Hk & Hd).
  destruct (in_dec Z.eq_dec v (Dict.keys (vertices g))) as [Hv|Hv].
  2:{ unfold Main11.remover_vertice. apply mem_false_keys in Hv.
      rewrite Hv. simpl. now repeat split. }
  assert (Hget := fun o => adj_get_remover_vertice g v o Hv).
  rewrite remover_vertice_sucesso in * by auto. simpl in *.
  split; [|split]; simpl.
  - rewrite keys_del. now apply NoDup_filter_Z.
  - rewrite keys_map_values, !keys_del. now rewrite Hk.
  - intros o e He. rewrite Hget in He.
    destruct (Z.eqb o v); [easy|].
    apply filter_In in He as [He Hne].
    rewrite keys_del. apply filter_In. split; eauto.
    rewrite negb_true_iff in *. rewrite Z.eqb_neq in *. congruence.
Qed.

Lemma keys_append (a : Dict.t (list Aresta)) o e :
  In o (Dict.keys a) -> Dict.keys (adj_append a o e) = Dict.keys a.
Proof. intros H. apply keys_set_mem. now apply mem_keys. Qed.

Lemma adj_get_append a o e x :
  adj_get (adj_append a o e) x
  = adj_get a x ++ (if Z.eqb x o then [e] else []).
Proof.
  destruct (Z.eqb x o) eqn:E.
  - apply Z.eqb_eq in E. subst. apply adj_get_append_eq.
  - apply Z.eqb_neq in E. rewrite adj_get_append_ne by auto.
    now rewrite app_nil_r.
Qed.

Lemma inv_append g o d p :
  inv g -> In o (Dict.keys (vertices g)) -> In d (Dict.keys (vertices g)) ->
  inv (mkGrafo (tipo g) (vertices g)
               (adj_append (adj g) o (mkAresta o d p))).
Proof.
  intros (Hnd & Hk & Hd) Ho Hdv. split; [|split]; simpl; auto.
  - rewrite keys_append; auto. now rewrite Hk.
  - intros x e. rewrite adj_get_append, in_app_iff.
    intros [He|He]; eauto.
    destruct (Z.eqb x o); [|easy]. destruct He as [<-|[]]. auto.
Qed.

Lemma adicionar_aresta_endpoints g o d p :
  fst (Main11.adicionar_aresta g o d p) = true ->
  In o (Dict.keys (vertices g)) /\ In d (Dict.keys (vertices g))
  /\ ~ aresta_em g o d p.
Proof.
  intros Hok.
  destruct (in_dec Z.eq_dec o (Dict.keys (vertices g))) as [Ho|Ho];
  [destruct (in_dec Z.eq_dec d (Dict.keys (vertices g))) as [Hd|Hd]|].
  - repeat split; auto. intros H.
    assert (fst (Main11.adicionar_aresta g o d p) = false)
      by (apply adicionar_aresta_falha; auto).
    congruence.
  - assert (fst (Main11.adicionar_aresta g o d p) = false)
      by (apply adicionar_aresta_falha; auto).
    congruence.
  - assert (fst (Main11.adicionar_aresta g o d p) = false)
      by (apply adicionar_aresta_falha; auto).
    congruence.
Qed.

Lemma adicionar_aresta_inalterado g o d p :
  fst (Main11.adicionar_aresta g o d p) = false ->
  snd (Main11.adicionar_aresta g o d p) = g.
Proof.
  unfold Main11.adicionar_aresta.
  destruct (negb (Dict.mem o (vertices g)) || negb (Dict.mem d (vertices g)));
    auto.
  destruct (tem_aresta (adj_get (adj g) o) d p); auto.
  discriminate.
Qed.

Lemma inv_adicionar_aresta g o d p :
  inv g -> inv (snd (Main11.adicionar_aresta g o d p)).
Proof.
  intros Hinv.
  destruct (fst (Main11.adicionar_aresta g o d p)) eqn:Hok.
  2:{ now rewrite adicionar_aresta_inalterado. }
  destruct (adicionar_aresta_endpoints _ _ _ _ Hok) as (Ho & Hd & _).
  destruct (adicionar_aresta_sucesso _ _ _ _ Hok) as (Ha & Hv & Ht).
  cbv zeta in Ha.
  pose proof (inv_append g o d p Hinv Ho Hd) as H1.
  destruct (snd (Main11.adicionar_aresta g o d p)) as [t' v' a'].
  simpl in *. subst t' v' a'.
  destruct (Z.eqb (tipo g) 3 && _); auto.
  apply (inv_append _ d o p H1); auto.
Qed.

Lemma adj_get_set_filter_In (a : Dict.t (list Aresta)) k f x e :
  In e (adj_get (Dict.set k (List.filter f (adj_get a k)) a) x) ->
  In e (adj_get a x).
Proof.
  destruct (Z.eq_dec k x) as [->|Hne].
  - rewrite adj_get_set_eq, filter_In. tauto.
  - now rewrite adj_get_set_ne.
Qed.

Lemma inv_remover_aresta g o d :
  inv g -> inv (snd (Main11.remover_aresta g o d)).
Proof.
  intros (Hnd & Hk & Hd). unfold Main11.remover_aresta.
  destruct (Dict.get o (adj g)) as [lo|] eqn:Eo; simpl; [|now repeat split].
  assert (Hlo : lo = adj_get (adj g) o) by (unfold adj_get; now rewrite Eo).
  assert (Ho : Dict.mem o (adj g) = true) by (unfold Dict.mem; now rewrite Eo).
  subst lo. set (a1 := Dict.set o _ (adj g)).
  assert (Hk1 : Dict.keys a1 = Dict.keys (adj g)) by now apply keys_set_mem.
  assert (H1 : forall x e, In e (adj_get a1 x) -> In e (adj_get (adj g) x)).
  { intros x e. apply adj_get_set_filter_In. }
  destruct (Z.eqb (tipo g) 3 && Dict.mem d a1) eqn:E.
  - apply andb_true_iff in E as [_ E].
    split; [|split]; simpl; auto.
    + rewrite keys_set_mem by auto. congruence.
    + intros x e He. apply adj_get_set_filter_In in He. eauto.
  - split; [|split]; simpl; auto; [congruence|]. eauto.
Qed.

Lemma inv_exec11 g op : inv g -> inv (exec11 g op).
Proof.
  destruct op; simpl.
  - apply inv_adicionar_vertice.
  - apply inv_remover_vertice.
  - apply inv_adicionar_aresta.
  - apply inv_remover_aresta.
Qed.

Lemma inv_fold_exec11 ops g : inv g -> inv (fold_left exec11 ops g).
Proof.
  revert g. induction ops as [|op ops IH]; simpl; auto.
  intros g Hg. apply IH, inv_exec11, Hg.
Qed.

Lemma inv_construido11 tp ops : inv (construido11 tp ops).
Proof. apply inv_fold_exec11, inv_init. Qed.

Lemma tipo_exec11 g op : tipo (exec11 g op) = tipo g.
Proof.
  destruct op; simpl.
  - unfold Main11.adicionar_vertice. now destruct (Dict.mem _ _).
  - unfold Main11.remover_vertice. now destruct (negb _).
  - unfold Main11.adicionar_aresta.
    destruct (_ || _); auto. now destruct (tem_aresta _ _ _).
  - unfold Main11.remover_aresta. now destruct (Dict.get _ _).
Qed.

Lemma tipo_fold_exec11 ops g : tipo (fold_left exec11 ops g) = tipo g.
Proof.
  revert g. induction ops as [|op ops IH]; simpl; auto.
  intros g. now rewrite IH, tipo_exec11.
Qed.

Lemma tipo_construido11 tp ops : tipo (construido11 tp ops) = tp.
Proof. unfold construido11. now rewrite tipo_fold_exec11. Qed.

(** The same invariant for the operations of the older variant. *)

Lemma inv_ext g g' :
  Dict.keys (vertices g') = Dict.keys (vertices g) -> adj g' = adj g ->
  inv g -> inv g'.
Proof. unfold inv. intros -> ->. auto. Qed.

Lemma remover_vertice_000 g v :
  Part000.remover_vertice g v = Main11.remover_vertice g v.
Proof.
  unfold Part000.remover_vertice, Main11.remover_vertice.
  destruct (negb (Dict.mem v (vertices g))); auto.
  destruct (Dict.mem v (adj g)) eqn:E; auto.
  apply mem_false_keys in E.
  assert (H : Dict.del v (adj g) = adj g); [|now rewrite H].
  unfold Dict.del. apply forallb_filter_id. apply forallb_forall.
  intros [k l] Hkl. simpl. apply negb_true_iff, Z.eqb_neq. intros ->.
  apply E. apply in_map_iff. exists (k, l). auto.
Qed.

Lemma inv_exec000 g op : inv g -> inv (exec000 g op).
Proof.
  intros Hinv. destruct op as [v r m|v|o d p|o d]; simpl.
  - apply (inv_ext (snd (Main11.adicionar_vertice g v r m)));
      [| |now apply inv_adicionar_vertice];
      unfold Part000.adicionar_vertice, Main11.adicionar_vertice;
      destruct (Dict.mem v (vertices g)) eqn:E; simpl; auto.
    now rewrite !keys_set_new.
  - rewrite remover_vertice_000. now apply inv_remover_vertice.
  - unfold Part000.adicionar_aresta.
    destruct (negb (Dict.mem o (vertices g))) eqn:Eo; simpl; auto.
    destruct (negb (Dict.mem d (vertices g))) eqn:Ed; simpl; auto.
    destruct (tem_aresta _ _ _); simpl; auto.
    apply negb_false_iff in Eo, Ed.
    apply inv_append; auto; now apply mem_keys.
  - unfold Part000.remover_aresta.
    destruct (Dict.get o (adj g)) as [lo|] eqn:Eo; simpl; auto.
    destruct Hinv as (Hnd & Hk & Hd).
    assert (Hlo : lo = adj_get (adj g) o) by (unfold adj_get; now rewrite Eo).
    assert (Ho : Dict.mem o (adj g) = true) by (unfold Dict.mem; now rewrite Eo).
    subst lo. split; [|split]; simpl; auto.
    + rewrite keys_set_mem; auto.
    + intros x e He. apply adj_get_set_filter_In in He. eauto.
Qed.

Lemma inv_construido000 tp ops : inv (construido000 tp ops).
Proof.
  unfold construido000. generalize (Grafo_init tp) (inv_init tp).
  induction ops as [|op ops IH]; simpl; auto.
  intros g Hg. apply IH, inv_exec000, Hg.
Qed.

(** Graphs built by the operations of either variant satisfy the invariant
    of the data model. *)
Lemma bem_formado_construido11 tp ops : bem_formado (construido11 tp ops) = true.
Proof. apply inv_bem_formado, inv_construido11. Qed.

Lemma bem_formado_construido000 tp ops :
  bem_formado (construido000 tp ops) = true.
Proof. apply inv_bem_formado, inv_construido000. Qed.

(** ** Undirected graphs: mirrored storage *)

Lemma aresta_em_chave g o d p :
  aresta_em g o d p <-> In (d, p) (map chave (adj_get (adj g) o)).
Proof.
  unfold aresta_em. rewrite in_map_iff. unfold chave.
  split; intros (e & H1 & H2); exists e.
  - destruct H2 as [<- <-]. auto.
  - injection H1 as <- <-. auto.
Qed.

Lemma NoDup_map_filter {A B} (f : A -> B) (q : A -> bool) l :
  List.NoDup (map f l) -> List.NoDup (map f (List.filter q l)).
Proof.
  induction l as [|x l IH]; simpl; auto.
  intros H. apply List.NoDup_cons_iff in H as [H1 H2].
  destruct (q x); simpl; auto.
  constructor; auto. intros H. apply H1.
  apply in_map_iff in H as (y & Hy & Hin). apply filter_In in Hin as [Hin _].
  apply in_map_iff. eauto.
Qed.

Lemma filter_filter {A} (f q : A -> bool) l :
  List.filter f (List.filter q l) = List.filter (fun x => q x && f x) l.
Proof.
  induction l as [|x l IH]; simpl; auto.
  destruct (q x); simpl; [destruct (f x)|]; now rewrite IH.
Qed.

Lemma filter_id_In {A} (f : A -> bool) l :
  (forall x, In x l -> f x = true) -> List.filter f l = l.
Proof. intros H. apply forallb_filter_id. now apply forallb_forall. Qed.

(** The adjacency lists after a removal in a graph of kind 3. *)
Lemma adj_get_remover_aresta3 g o d x :
  inv g -> tipo g = 3 ->
  adj_get (adj (snd (Main11.remover_aresta g o d))) x
  = List.filter
      (fun e => negb (Z.eqb x o && Z.eqb (destino e) d
                      || Z.eqb x d && Z.eqb (destino e) o))
      (adj_get (adj g) x).
Proof.
  intros (Hnd & Hk & Hd) Htp. apply Z.eqb_eq in Htp.
  unfold Main11.remover_aresta.
  destruct (Dict.get o (adj g)) as [lo|] eqn:Eo; simpl.
  - assert (Hlo : lo = adj_get (adj g) o) by (unfold adj_get; now rewrite Eo).
    subst lo. rewrite Htp. simpl.
    set (a1 := Dict.set o _ (adj g)).
    destruct (Dict.mem d a1) eqn:Em.
    + destruct (Z.eq_dec x d) as [->|Hxd].
      * rewrite adj_get_set_eq. unfold a1.
        destruct (Z.eq_dec o d) as [->|Hod].
        -- rewrite adj_get_set_eq, filter_filter, Z.eqb_refl. simpl.
           apply filter_ext. intros e.
           now destruct (Z.eqb (destino e) d).
        -- rewrite adj_get_set_ne by auto.
           rewrite Z.eqb_refl. apply filter_ext. intros e.
           assert (Z.eqb d o = false) as -> by (apply Z.eqb_neq; auto).
           reflexivity.
      * rewrite adj_get_set_ne by auto. unfold a1.
        assert (Z.eqb x d = false) as -> by (apply Z.eqb_neq; auto).
        destruct (Z.eq_dec o x) as [->|Hox].
        -- rewrite adj_get_set_eq, Z.eqb_refl. apply filter_ext.
           intros e. simpl. now rewrite orb_false_r.
        -- rewrite adj_get_set_ne by auto.
           assert (Z.eqb x o = false) as -> by (apply Z.eqb_neq; auto).
           simpl. symmetry. now apply filter_id_In.
    + assert (Hd0 : adj_get a1 d = []).
      { unfold adj_get. unfold Dict.mem in Em. now destruct (Dict.get d a1). }
      unfold a1 in *.
      destruct (Z.eq_dec o x) as [->|Hox].
      * rewrite adj_get_set_eq, Z.eqb_refl. apply filter_ext_in.
        intros e He. simpl.
        destruct (Z.eqb x d) eqn:Exd; simpl; [|now rewrite orb_false_r].
        apply Z.eqb_eq in Exd. subst d.
        now destruct (Z.eqb (destino e) x).
      * rewrite adj_get_set_ne by auto.
        assert (Z.eqb x o = false) as -> by (apply Z.eqb_neq; auto).
        simpl. destruct (Z.eqb x d) eqn:Exd; simpl.
        -- apply Z.eqb_eq in Exd. subst d.
           rewrite adj_get_set_ne in Hd0 by auto. now rewrite Hd0.
        -- symmetry. now apply filter_id_In.
  - symmetry. apply filter_id_In. intros e He.
    apply negb_true_iff, orb_false_iff. split; apply andb_false_iff.
    + left. apply Z.eqb_neq. intros ->.
      unfold adj_get in He. now rewrite Eo in He.
    + right. apply Z.eqb_neq. intros Hde.
      apply Hd in He. rewrite Hde, <- Hk in He.
      apply get_None_keys in Eo. tauto.
Qed.

(** The adjacency lists after a successful insertion in a graph of kind 3
    whose storage is mirrored. *)
Lemma adj_get_adicionar_aresta3 g o d p x :
  espelhado g -> tipo g = 3 ->
  fst (Main11.adicionar_aresta g o d p) = true ->
  adj_get (adj (snd (Main11.adicionar_aresta g o d p))) x
  = adj_get (adj g) x
    ++ (if Z.eqb x o then [mkAresta o d p] else [])
    ++ (if Z.eqb x d && negb (Z.eqb o d) then [mkAresta d o p] else []).
Proof.
  intros [Hsim _] Htp Hok.
  destruct (adicionar_aresta_endpoints _ _ _ _ Hok) as (_ & _ & Hno).
  destruct (adicionar_aresta_sucesso _ _ _ _ Hok) as (Ha & _ & _).
  cbv zeta in Ha. rewrite Ha. apply Z.eqb_eq in Htp. rewrite Htp. simpl.
  rewrite (adj_get_append (adj g) o (mkAresta o d p) d).
  destruct (Z.eqb o d) eqn:Eod.
  - apply Z.eqb_eq in Eod. subst d. rewrite Z.eqb_refl.
    assert (tem_aresta (adj_get (adj g) o ++ [mkAresta o o p]) o p = true)
      as ->.
    { apply tem_aresta_spec. exists (mkAresta o o p).
      rewrite in_app_iff. simpl. auto. }
    simpl. rewrite andb_false_r, app_nil_r. apply adj_get_append.
  - apply Z.eqb_neq in Eod.
    assert (Z.eqb d o = false) as -> by (apply Z.eqb_neq; auto).
    rewrite app_nil_r.
    assert (tem_aresta (adj_get (adj g) d) o p = false) as ->.
    { apply not_true_iff_false. intros H. apply aresta_em_tem in H.
      apply Hsim in H. tauto. }
    simpl. rewrite !adj_get_append, andb_true_r. now rewrite <- app_assoc.
Qed.

Lemma espelhado_init tp : espelhado (Grafo_init tp).
Proof.
  split.
  - intros o d p (e & He & _). easy.
  - intros o. constructor.
Qed.

Lemma espelhado_ext g g' :
  (forall x, adj_get (adj g') x = adj_get (adj g) x) ->
  espelhado g -> espelhado g'.
Proof.
  intros H [Hs Hn]. split.
  - intros o d p. unfold aresta_em. rewrite !H. apply Hs.
  - intros o. rewrite H. apply Hn.
Qed.

Lemma espelhado_remover_vertice g v :
  espelhado g -> espelhado (snd (Main11.remover_vertice g v)).
Proof.
  intros [Hs Hn].
  destruct (in_dec Z.eq_dec v (Dict.keys (vertices g))) as [Hv|Hv].
  2:{ unfold Main11.remover_vertice. apply mem_false_keys in Hv.
      rewrite Hv. simpl. now split. }
  split.
  - intros o d p (e & He & Hd & Hp).
    rewrite adj_get_remover_vertice in He by auto.
    destruct (Z.eqb o v) eqn:Eo; [easy|].
    apply filter_In in He as [He Hne].
    destruct (Hs o d p) as (e' & He' & Hd' & Hp'); [exists e; auto|].
    exists e'. rewrite adj_get_remover_vertice by auto.
    rewrite Hd in Hne. apply negb_true_iff in Hne. rewrite Hne.
    rewrite filter_In, Hd', Eo. auto.
  - intros o. rewrite adj_get_remover_vertice by auto.
    destruct (Z.eqb o v); [constructor|]. now apply NoDup_map_filter.
Qed.

Lemma espelhado_remover_aresta g o d :
  inv g -> tipo g = 3 -> espelhado g ->
  espelhado (snd (Main11.remover_aresta g o d)).
Proof.
  intros Hinv Htp [Hs Hn]. split.
  - intros x y p (e & He & Hd & Hp).
    rewrite adj_get_remover_aresta3 in He by auto.
    apply filter_In in He as [He Hc].
    destruct (Hs x y p) as (e' & He' & Hd' & Hp'); [exists e; auto|].
    exists e'. rewrite adj_get_remover_aresta3 by auto.
    rewrite filter_In, Hd'. rewrite Hd in Hc. repeat split; auto.
    rewrite negb_true_iff in *. rewrite orb_false_iff in *.
    rewrite !andb_false_iff in *. tauto.
  - intros x. rewrite adj_get_remover_aresta3 by auto.
    now apply NoDup_map_filter.
Qed.

Lemma espelhado_adicionar_aresta g o d p :
  tipo g = 3 -> espelhado g ->
  espelhado (snd (Main11.adicionar_aresta g o d p)).
Proof.
  intros Htp Hesp.
  destruct (fst (Main11.adicionar_aresta g o d p)) eqn:Hok.
  2:{ now rewrite adicionar_aresta_inalterado. }
  pose proof (fun x => adj_get_adicionar_aresta3 g o d p x Hesp Htp Hok) as Hget.
  destruct (adicionar_aresta_endpoints _ _ _ _ Hok) as (_ & _ & Hno).
  destruct Hesp as [Hs Hn].
  assert (Hem : forall x y q,
    aresta_em (snd (Main11.adicionar_aresta g o d p)) x y q
    <-> aresta_em g x y q
        \/ (x = o /\ y = d /\ q = p) \/ (x = d /\ y = o /\ q = p)).
  { intros x y q. unfold aresta_em at 1. rewrite Hget. split.
    - intros (e & He & Hd & Hp). rewrite !in_app_iff in He.
      destruct He as [He|[He|He]].
      + left. exists e. auto.
      + destruct (Z.eqb x o) eqn:E; [|easy]. apply Z.eqb_eq in E.
        destruct He as [<-|[]]. simpl in *. auto.
      + destruct (Z.eqb x d && negb (Z.eqb o d)) eqn:E; [|easy].
        apply andb_true_iff in E as [E _]. apply Z.eqb_eq in E.
        destruct He as [<-|[]]. simpl in *. auto.
    - intros [(e & He & Hd & Hp)|[(-> & -> & ->)|(-> & -> & ->)]].
      + exists e. rewrite in_app_iff. auto.
      + exists (mkAresta o d p). rewrite !in_app_iff, Z.eqb_refl.
        simpl. auto.
      + destruct (Z.eqb o d) eqn:E.
        * apply Z.eqb_eq in E. subst. exists (mkAresta d d p).
          rewrite !in_app_iff, Z.eqb_refl. simpl. auto.
        * exists (mkAresta d o p).
          rewrite !in_app_iff, Z.eqb_refl. simpl. auto. }
  split.
  - intros x y q. rewrite !Hem.
    intros [H|[H|H]]; [auto|tauto|tauto].
  - intros x. rewrite Hget, !map_app.
    assert (Hnod : ~ In (o, p) (map chave (adj_get (adj g) d))).
    { rewrite <- aresta_em_chave. auto. }
    rewrite aresta_em_chave in Hno.
    destruct (Z.eqb x o) eqn:Exo.
    + apply Z.eqb_eq in Exo. subst x.
      assert (Z.eqb o d && negb (Z.eqb o d) = false) as ->
        by now destruct (Z.eqb o d).
      simpl. apply List.NoDup_app; auto.
      * constructor; [easy|constructor].
      * intros a Ha [<-|[]]. auto.
    + destruct (Z.eqb x d && negb (Z.eqb o d)) eqn:E; simpl.
      * apply andb_true_iff in E as [E _]. apply Z.eqb_eq in E. subst x.
        apply List.NoDup_app; auto.
        -- constructor; [easy|constructor].
        -- intros a Ha [<-|[]]. auto.
      * now rewrite app_nil_r.
Qed.

Lemma espelhado_exec11 g op :
  inv g -> tipo g = 3 -> espelhado g -> espelhado (exec11 g op).
Proof.
  intros Hinv Htp Hesp. destruct op; simpl.
  - eapply espelhado_ext; [|exact Hesp].
    intros x. apply adj_get_adicionar_vertice.
  - now apply espelhado_remover_vertice.
  - now apply espelhado_adicionar_aresta.
  - now apply espelhado_remover_aresta.
Qed.

Lemma espelhado_construido11 ops : espelhado (construido11 3 ops).
Proof.
  unfold construido11.
  assert (H : forall g, inv g -> tipo g = 3 -> espelhado g ->
                        espelhado (fold_left exec11 ops g)).
  { induction ops as [|op ops IH]; simpl; auto.
    intros g Hi Ht He. apply IH.
    - now apply inv_exec11.
    - now rewrite tipo_exec11.
    - now apply espelhado_exec11. }
  apply H; [apply inv_init|reflexivity|apply espelhado_init].
Qed.

(** ** Degrees *)

Lemma foldM_app {A S} (f : S -> A -> result S) l1 l2 st :
  foldM f (l1 ++ l2) st
  = match foldM f l1 st with
    | Ok st' => foldM f l2 st'
    | Err e => Err e
    end.
Proof.
  revert st. induction l1 as [|x l1 IH]; simpl; auto.
  intros st. destruct (f st x); auto.
Qed.

Lemma conta_aresta_incrementos tp o graus e :
  Main11.conta_aresta tp o graus e
  = foldM (fun gr k => Main11.incr k gr) (incrementos tp (o, e)) graus.
Proof.
  unfold Main11.conta_aresta, incrementos. simpl.
  destruct (Z.eqb tp 3).
  - destruct (Z.ltb o (destino e)); simpl; auto.
    destruct (Main11.incr o graus); simpl; auto.
    now destruct (Main11.incr (destino e) a).
  - simpl. now destruct (Main11.incr o graus).
Qed.

Lemma calcular_graus_plano g :
  Main11.calcular_graus g
  = foldM (fun gr k => Main11.incr k gr)
          (flat_map (incrementos (tipo g)) (arestas_com_origem (adj g)))
          (Main11.graus_zero (vertices g)).
Proof.
  unfold Main11.calcular_graus, arestas_com_origem.
  generalize (Main11.graus_zero (vertices g)).
  induction (adj g) as [|[o l] a IH]; simpl; auto.
  intros gr. rewrite flat_map_app, foldM_app.
  assert (H : forall gr0,
    foldM (Main11.conta_aresta (tipo g) o) l gr0
    = foldM (fun gr k => Main11.incr k gr)
            (flat_map (incrementos (tipo g)) (map (pair o) l)) gr0).
  { induction l as [|e l IHl]; simpl; auto.
    intros gr0. rewrite foldM_app, <- conta_aresta_incrementos.
    destruct (Main11.conta_aresta (tipo g) o gr0 e); auto. }
  rewrite H. destruct (foldM _ _ gr); auto.
Qed.

Lemma foldM_incr ks (gr : Dict.t Z) :
  (forall k, In k ks -> In k (Dict.keys gr)) ->
  exists gr',
    foldM (fun gr k => Main11.incr k gr) ks gr = Ok gr'
    /\ Dict.keys gr' = Dict.keys gr
    /\ forall v, Dict.get v gr'
                 = option_map (fun n => n + Z.of_nat (count_occ Z.eq_dec ks v))
                              (Dict.get v gr).
Proof.
  revert gr. induction ks as [|k ks IH]; intros gr Hks.
  - exists gr. simpl. repeat split; auto.
    intros v. destruct (Dict.get v gr); simpl; auto. f_equal. lia.
  - destruct (Dict.get k gr) as [n|] eqn:Ek.
    2:{ apply get_None_keys in Ek. exfalso. apply Ek, Hks. now left. }
    assert (Hm : Dict.mem k gr = true) by (unfold Dict.mem; now rewrite Ek).
    assert (Hincr : Main11.incr k gr = Ok (Dict.set k (n + 1) gr))
      by (unfold Main11.incr; now rewrite Ek).
    simpl. rewrite Hincr.
    destruct (IH (Dict.set k (n + 1) gr)) as (gr' & H1 & H2 & H3).
    { intros k' Hk'. rewrite keys_set_mem by auto. apply Hks. now right. }
    exists gr'. split; [exact H1|]. split.
    { now rewrite H2, keys_set_mem. }
    intros v. rewrite H3. destruct (Z.eq_dec k v) as [->|Hne].
    + rewrite get_set_eq, Ek. simpl. f_equal. lia.
    + rewrite get_set_ne by auto.
      destruct (Dict.get v gr); simpl; auto.
Qed.

Lemma graus_zero_spec (vs : Dict.t Vertice) :
  List.NoDup (Dict.keys vs) ->
  Main11.graus_zero vs = map (fun v => (v, 0)) (Dict.keys vs).
Proof.
  unfold Main11.graus_zero.
  assert (H : forall ks (acc : Dict.t Z),
    List.NoDup ks -> (forall k, In k ks -> ~ In k (Dict.keys acc)) ->
    fold_left (fun gr v => Dict.set v 0 gr) ks acc
    = acc ++ map (fun v => (v, 0)) ks).
  { induction ks as [|k ks IH]; intros acc Hnd Hdis; simpl.
    - now rewrite app_nil_r.
    - apply List.NoDup_cons_iff in Hnd as [Hk Hnd].
      assert (Hset : Dict.set k 0 acc = acc ++ [(k, 0)]).
      { assert (Hk' : ~ In k (Dict.keys acc)) by (apply Hdis; now left).
        clear - Hk'. induction acc as [|[k' v'] acc IHa]; simpl; auto.
        simpl in Hk'. destruct (Z.eqb k k') eqn:E.
        - apply Z.eqb_eq in E. subst. tauto.
        - rewrite IHa; auto. }
      rewrite IH; auto.
      + rewrite Hset, <- app_assoc. reflexivity.
      + intros k' Hk'. rewrite Hset. unfold Dict.keys.
        rewrite map_app, in_app_iff. simpl.
        intros [H|[H|[]]].
        * apply (Hdis k'); [now right|exact H].
        * subst. tauto. }
  intros Hnd. rewrite H; auto.
Qed.

Lemma dict_eq_of_get {V} (d : Dict.t V) (f : Z -> V) :
  (forall k, In k (Dict.keys d) -> Dict.get k d = Some (f k)) ->
  List.NoDup (Dict.keys d) ->
  d = map (fun k => (k, f k)) (Dict.keys d).
Proof.
  induction d as [|[k v] d IH]; simpl; auto.
  intros Hget Hnd. apply List.NoDup_cons_iff in Hnd as [Hk Hnd].
  f_equal.
  - specialize (Hget k (or_introl eq_refl)). rewrite Z.eqb_refl in Hget.
    congruence.
  - apply IH; auto. intros k' Hk'.
    specialize (Hget k' (or_intror Hk')).
    destruct (Z.eqb k' k) eqn:E; auto.
    apply Z.eqb_eq in E. subst. tauto.
Qed.

Lemma count_incrementos3 (E : list (Z * Aresta)) v :
  count_occ Z.eq_dec (flat_map (incrementos 3) E) v
  = (length (List.filter (fun oe => Z.ltb (fst oe) (destino (snd oe))
                                    && Z.eqb (fst oe) v) E)
     + length (List.filter (fun oe => Z.ltb (fst oe) (destino (snd oe))
                                      && Z.eqb (destino (snd oe)) v) E))%nat.
Proof.
  induction E as [|[o e] E IH]; simpl; auto.
  rewrite count_occ_app, IH. unfold incrementos. simpl.
  destruct (Z.ltb o (destino e)); simpl; auto.
  destruct (Z.eq_dec o v) as [->|H1]; destruct (Z.eq_dec (destino e) v) as [->|H2];
    rewrite ?Z.eqb_refl; simpl;
    try (assert (Z.eqb o v = false) as -> by (apply Z.eqb_neq; auto));
    try (assert (Z.eqb (destino e) v = false) as -> by (apply Z.eqb_neq; auto));
    simpl; lia.
Qed.

Lemma filter_origem (a : Dict.t (list Aresta)) v :
  List.NoDup (Dict.keys a) ->
  List.filter (fun oe : Z * Aresta => Z.eqb (fst oe) v) (arestas_com_origem a)
  = map (pair v) (adj_get a v).
Proof.
  unfold arestas_com_origem, adj_get.
  induction a as [|[o l] a IH]; simpl; auto.
  intros Hnd. apply List.NoDup_cons_iff in Hnd as [Ho Hnd].
  rewrite List.filter_app, IH by auto.
  destruct (Z.eqb v o) eqn:E.
  - apply Z.eqb_eq in E. subst o.
    apply get_None_keys in Ho. rewrite Ho. simpl. rewrite app_nil_r.
    apply filter_id_In. intros [o' e] H. apply in_map_iff in H as (x & Hx & _).
    injection Hx as <- _. apply Z.eqb_refl.
  - assert (H0 : List.filter (fun oe : Z * Aresta => Z.eqb (fst oe) v)
                             (map (pair o) l) = []).
    { clear - E. induction l as [|x l IHl]; simpl; auto.
      rewrite Z.eqb_sym, E. auto. }
    now rewrite H0.
Qed.

Lemma length_filter_flat (a : Dict.t (list Aresta)) (q : Z -> Aresta -> bool) :
  length (List.filter (fun oe => q (fst oe) (snd oe)) (arestas_com_origem a))
  = list_sum (map (fun ol => length (List.filter (q (fst ol)) (snd ol))) a).
Proof.
  unfold arestas_com_origem.
  induction a as [|[o l] a IH]; simpl; auto.
  rewrite List.filter_app, length_app, IH. f_equal.
  clear. induction l as [|e l IHl]; simpl; auto.
  destruct (q o e); simpl; auto.
Qed.

Lemma list_sum_indicador (ks : list Z) x :
  List.NoDup ks -> In x ks ->
  list_sum (map (fun o => if Z.eqb x o then 1%nat else 0%nat) ks) = 1%nat.
Proof.
  induction ks as [|k ks IH]; simpl; [easy|].
  intros Hnd Hin. apply List.NoDup_cons_iff in Hnd as [Hk Hnd].
  destruct (Z.eqb x k) eqn:E.
  - apply Z.eqb_eq in E. subst k. f_equal.
    clear - Hk. induction ks as [|k ks IH]; simpl; auto.
    simpl in Hk. destruct (Z.eqb x k) eqn:E.
    + apply Z.eqb_eq in E. subst. tauto.
    + apply IH. tauto.
  - apply Z.eqb_neq in E. destruct Hin as [->|Hin]; [tauto|]. now apply IH.
Qed.

Lemma list_sum_zero {A} (l : list A) : list_sum (map (fun _ => 0%nat) l) = 0%nat.
Proof. induction l; simpl; auto. Qed.

Lemma list_sum_map_add {A} (f h : A -> nat) l :
  list_sum (map (fun x => (f x + h x)%nat) l)
  = (list_sum (map f l) + list_sum (map h l))%nat.
Proof. induction l as [|x l IH]; simpl; auto. rewrite IH. lia. Qed.

Lemma soma_por_destino (ks : list Z) (L : list Aresta) (q : Aresta -> bool) :
  List.NoDup ks -> (forall e, In e L -> In (destino e) ks) ->
  list_sum (map (fun o => length (List.filter
                                    (fun e => q e && Z.eqb (destino e) o) L)) ks)
  = length (List.filter q L).
Proof.
  intros Hnd. induction L as [|e L IH]; intros HL.
  - apply list_sum_zero.
  - assert (Hq : length (List.filter q (e :: L))
                 = ((if q e then 1 else 0) + length (List.filter q L))%nat)
      by (simpl; now destruct (q e)).
    rewrite Hq, <- (IH (fun e' He' => HL e' (or_intror He'))).
    transitivity
      (list_sum (map (fun o =>
         ((if q e && Z.eqb (destino e) o then 1 else 0)
          + length (List.filter (fun e' => q e' && Z.eqb (destino e') o) L))%nat)
         ks)).
    { apply f_equal, map_ext. intros o. simpl.
      destruct (q e && Z.eqb (destino e) o); simpl; auto. }
    rewrite list_sum_map_add. f_equal. destruct (q e); simpl.
    + apply list_sum_indicador; auto. apply HL. now left.
    + apply list_sum_zero.
Qed.

Lemma NoDup_peso_filter (l : list Aresta) v :
  List.NoDup (map chave l) ->
  List.NoDup (map peso (List.filter (fun e => Z.eqb (destino e) v) l)).
Proof.
  induction l as [|x l IH]; simpl; [constructor|].
  intros H. apply List.NoDup_cons_iff in H as [Hx Hnd].
  destruct (Z.eqb (destino x) v) eqn:E; simpl; auto.
  constructor; auto. intros Hin. apply Hx.
  apply in_map_iff in Hin as (y & Hy & Hin).
  apply filter_In in Hin as [Hin Ey].
  apply Z.eqb_eq in E, Ey. apply in_map_iff. exists y. split; auto.
  unfold chave. congruence.
Qed.

Lemma conta_espelho g o v :
  espelhado g ->
  length (List.filter (fun e => Z.eqb (destino e) v) (adj_get (adj g) o))
  = length (List.filter (fun e => Z.eqb (destino e) o) (adj_get (adj g) v)).
Proof.
  intros [Hs Hn].
  rewrite <- (length_map peso), <- (length_map peso (List.filter _ (adj_get (adj g) v))).
  apply Permutation_length, Permutation.NoDup_Permutation;
    try (now apply NoDup_peso_filter).
  assert (H : forall a b p,
    In p (map peso (List.filter (fun e => Z.eqb (destino e) b)
                                (adj_get (adj g) a)))
    <-> aresta_em g a b p).
  { intros a b p. rewrite in_map_iff. unfold aresta_em.
    split; intros (e & H1 & H2); exists e.
    - apply filter_In in H2 as [H2 H3]. apply Z.eqb_eq in H3. auto.
    - destruct H2 as [H2 H3]. rewrite filter_In, Z.eqb_eq. auto. }
  intros p. rewrite !H. split; apply Hs.
Qed.

Lemma length_filter_false {A} (l : list A) :
  length (List.filter (fun _ => false) l) = 0%nat.
Proof. induction l; simpl; auto. Qed.

Lemma length_filter_par (v : Z) (L : list Aresta) :
  (length (List.filter (fun e => Z.ltb v (destino e)) L)
   + length (List.filter (fun e => Z.ltb (destino e) v) L))%nat
  = length (List.filter (fun e => negb (Z.eqb (destino e) v)) L).
Proof.
  induction L as [|e L IH]; simpl; auto.
  destruct (Z.ltb_spec v (destino e)), (Z.ltb_spec (destino e) v),
           (Z.eqb_spec (destino e) v); simpl; lia.
Qed.

Lemma conta_graus3 g v :
  inv g -> espelhado g ->
  Z.of_nat (count_occ Z.eq_dec
              (flat_map (incrementos 3) (arestas_com_origem (adj g))) v)
  = grau g v.
Proof.
  intros (Hnd & Hk & Hd) Hesp. unfold grau.
  rewrite count_incrementos3, <- length_filter_par. f_equal. f_equal.
  - (* edges stored under [v] *)
    rewrite (filter_ext _ (fun oe : Z * Aresta =>
               Z.eqb (fst oe) v && Z.ltb (fst oe) (destino (snd oe))))
      by (intros oe; apply andb_comm).
    rewrite <- filter_filter, filter_origem by now rewrite Hk.
    induction (adj_get (adj g) v) as [|e L IH]; simpl; auto.
    destruct (Z.ltb v (destino e)); simpl; now rewrite IH.
  - (* edges that end at [v] are counted through their mirrors *)
    rewrite (length_filter_flat (adj g)
               (fun o e => Z.ltb o (destino e) && Z.eqb (destino e) v)).
    rewrite <- (soma_por_destino (Dict.keys (adj g))).
    2:{ now rewrite Hk. }
    2:{ intros e He. rewrite Hk. eauto. }
    unfold Dict.keys. rewrite map_map. f_equal. apply map_ext_in.
    intros [o l] Hol. simpl.
    assert (Hl : l = adj_get (adj g) o).
    { unfold adj_get. rewrite (In_get o l (adj g)); auto. now rewrite Hk. }
    subst l.
    destruct (Z.ltb o v) eqn:Eov.
    + rewrite (filter_ext
                 (fun e => Z.ltb o (destino e) && Z.eqb (destino e) v)
                 (fun e => Z.eqb (destino e) v)).
      2:{ intros e. destruct (Z.eqb_spec (destino e) v) as [->|];
            [now rewrite Eov|apply andb_false_r]. }
      rewrite (conta_espelho g o v Hesp). f_equal. apply filter_ext.
      intros e. destruct (Z.eqb_spec (destino e) o) as [->|];
        [now rewrite Eov|now rewrite andb_false_r].
    + rewrite (filter_ext
                 (fun e => Z.ltb o (destino e) && Z.eqb (destino e) v)
                 (fun _ => false)).
      2:{ intros e. destruct (Z.eqb_spec (destino e) v) as [->|];
            [now rewrite Eov|apply andb_false_r]. }
      rewrite (filter_ext
                 (fun e => Z.ltb (destino e) v && Z.eqb (destino e) o)
                 (fun _ => false)).
      2:{ intros e. destruct (Z.eqb_spec (destino e) o) as [->|];
            [now rewrite Eov|apply andb_false_r]. }
      now rewrite !length_filter_false.
Qed.

Lemma calcular_graus_construido3 ops :
  let g := construido11 3 ops in
  Main11.calcular_graus g
  = Ok (map (fun v => (v, grau g v)) (Dict.keys (vertices g))).
Proof.
  intros g.
  pose proof (inv_construido11 3 ops) as Hinv. fold g in Hinv.
  pose proof (espelhado_construido11 ops) as Hesp. fold g in Hesp.
  pose proof (tipo_construido11 3 ops) as Htp. fold g in Htp.
  pose proof Hinv as (Hnd & Hk & Hd).
  rewrite calcular_graus_plano, Htp, graus_zero_spec by auto.
  set (gr0 := map (fun v => (v, 0)) (Dict.keys (vertices g))).
  assert (Hk0 : Dict.keys gr0 = Dict.keys (vertices g)).
  { unfold gr0, Dict.keys. rewrite map_map. simpl. apply map_id. }
  destruct (foldM_incr
              (flat_map (incrementos 3) (arestas_com_origem (adj g))) gr0)
    as (gr & Hgr & Hkeys & Hget).
  { intros k Hin. rewrite Hk0. apply in_flat_map in Hin as ([o e] & Hoe & Hin).
    unfold arestas_com_origem in Hoe.
    apply in_flat_map in Hoe as ([o' l] & Hol & Hoe). simpl in Hoe.
    apply in_map_iff in Hoe as (e' & Heq & He'). injection Heq as -> ->.
    assert (He : In e (adj_get (adj g) o)).
    { unfold adj_get. rewrite (In_get o l (adj g)); auto. now rewrite Hk. }
    unfold incrementos in Hin. simpl in Hin.
    destruct (Z.ltb o (destino e)); [|easy].
    destruct Hin as [<-|[<-|[]]].
    - rewrite <- Hk. eapply adj_get_In_keys, He.
    - eauto. }
  rewrite Hgr. f_equal. rewrite <- Hk0, <- Hkeys.
  apply dict_eq_of_get; [|now rewrite Hkeys, Hk0].
  intros k Hin. rewrite Hget.
  assert (H0 : Dict.get k gr0 = Some 0).
  { apply In_get; [now rewrite Hk0|].
    unfold gr0. apply in_map_iff. exists k. split; auto.
    now rewrite <- Hk0, <- Hkeys. }
  rewrite H0. simpl. f_equal. now rewrite conta_graus3.
Qed.

Lemma grau_adicionar_aresta3 g o d p x :
  espelhado g -> tipo g = 3 -> o <> d ->
  fst (Main11.adicionar_aresta g o d p) = true ->
  grau (snd (Main11.adicionar_aresta g o d p)) x
  = grau g x + (if Z.eqb x o then 1 else 0) + (if Z.eqb x d then 1 else 0).
Proof.
  intros Hesp Htp Hne Hok. unfold grau.
  rewrite adj_get_adicionar_aresta3 by auto.
  rewrite !List.filter_app, !length_app, !Nat2Z.inj_add.
  assert (Z.eqb o d = false) as -> by now apply Z.eqb_neq.
  rewrite andb_true_r, <- Z.add_assoc. f_equal. f_equal.
  - destruct (Z.eqb_spec x o) as [->|]; simpl; auto.
    assert (Z.eqb d o = false) as -> by (apply Z.eqb_neq; auto). reflexivity.
  - destruct (Z.eqb_spec x d) as [->|]; simpl; auto.
    assert (Z.eqb o d = false) as -> by (apply Z.eqb_neq; auto). reflexivity.
Qed.

(** C5. In an undirected graph built by the operations, [calcular_graus]
    returns, for every vertex in insertion order, the number of stored
    edges that leave it for another vertex; the mirrored pair stored for a
    new edge between distinct vertices adds exactly 1 to the degree of each
    endpoint and nothing to the others. *)
Theorem calcular_graus_nao_dirigido (ops : list Op) :
  let g := construido11 3 ops in
  Main11.calcular_graus g
  = Ok (map (fun v => (v, grau g v)) (Dict.keys (vertices g)))
  /\ forall o d p,
       o <> d -> fst (Main11.adicionar_aresta g o d p) = true ->
       let g' := snd (Main11.adicionar_aresta g o d p) in
       aresta_em g' o d p /\ aresta_em g' d o p
       /\ Main11.calcular_graus g'
          = Ok (map (fun v => (v, grau g' v)) (Dict.keys (vertices g)))
       /\ grau g' o = grau g o + 1
       /\ grau g' d = grau g d + 1
       /\ forall x, x <> o -> x <> d -> grau g' x = grau g x.
Proof.
  intros g. split; [apply calcular_graus_construido3|].
  intros o d p Hne Hok g'.
  pose proof (espelhado_construido11 ops) as Hesp. fold g in Hesp.
  pose proof (tipo_construido11 3 ops) as Htp. fold g in Htp.
  assert (Hg' : g' = construido11 3 (ops ++ [AddAresta o d p])).
  { unfold construido11. now rewrite fold_left_app. }
  assert (Hem : forall a b, (a = o /\ b = d) \/ (a = d /\ b = o) ->
                            aresta_em g' a b p).
  { intros a b Hab. unfold aresta_em, g'.
    rewrite adj_get_adicionar_aresta3 by auto.
    assert (Z.eqb o d = false) as -> by now apply Z.eqb_neq.
    destruct Hab as [[-> ->]|[-> ->]].
    - exists (mkAresta o d p). rewrite Z.eqb_refl, !in_app_iff. simpl. auto.
    - exists (mkAresta d o p). rewrite Z.eqb_refl, !in_app_iff. simpl. auto. }
  split; [apply Hem; auto|]. split; [apply Hem; auto|]. split.
  { destruct (adicionar_aresta_sucesso _ _ _ _ Hok) as (_ & Hv & _).
    fold g' in Hv. rewrite <- Hv, Hg'. apply calcular_graus_construido3. }
  unfold g'. rewrite !grau_adicionar_aresta3 by auto.
  rewrite !Z.eqb_refl.
  assert (Z.eqb o d = false) as -> by now apply Z.eqb_neq.
  assert (Z.eqb d o = false) as -> by (apply Z.eqb_neq; auto).
  split; [lia|]. split; [lia|].
  intros x Hxo Hxd. rewrite grau_adicionar_aresta3 by auto.
  assert (Z.eqb x o = false) as -> by now apply Z.eqb_neq.
  assert (Z.eqb x d = false) as -> by now apply Z.eqb_neq.
  lia.
Qed.

(** ** Self-loops in undirected graphs *)

Lemma incrementos_laco (a : Dict.t (list Aresta)) u w :
  flat_map (incrementos 3)
    (arestas_com_origem (adj_append a u (mkAresta u u w)))
  = flat_map (incrementos 3) (arestas_com_origem a).
Proof.
  unfold adj_append, adj_get, arestas_com_origem.
  induction a as [|[k l] a IH]; simpl.
  - unfold incrementos. simpl. now rewrite Z.ltb_irrefl.
  - assert (Hl : incrementos 3 (u, mkAresta u u w) = []).
    { unfold incrementos. simpl. now rewrite Z.ltb_irrefl. }
    destruct (Z.eqb u k) eqn:E; simpl.
    + apply Z.eqb_eq in E. subst k.
      rewrite map_app, !flat_map_app. simpl.
      now rewrite Hl, !app_nil_r.
    + rewrite !flat_map_app. f_equal. apply IH.
Qed.

Lemma adicionar_laco g u w :
  tipo g = 3 -> In u (Dict.keys (vertices g)) -> ~ aresta_em g u u w ->
  Main11.adicionar_aresta g u u w
  = (true, mkGrafo (tipo g) (vertices g)
                   (adj_append (adj g) u (mkAresta u u w))).
Proof.
  intros Htp Hu Hno. unfold Main11.adicionar_aresta.
  apply mem_keys in Hu. rewrite Hu. simpl.
  rewrite aresta_em_tem in Hno. apply not_true_iff_false in Hno.
  rewrite Hno. apply Z.eqb_eq in Htp. rewrite Htp. simpl.
  rewrite adj_get_append_eq.
  assert (tem_aresta (adj_get (adj g) u ++ [mkAresta u u w]) u w = true)
    as ->; auto.
  apply tem_aresta_spec. exists (mkAresta u u w).
  rewrite in_app_iff. simpl. auto.
Qed.

Lemma copias_zero g o d p : ~ aresta_em g o d p -> copias g o d p = 0%nat.
Proof.
  intros H. unfold copias.
  rewrite (filter_ext_in _ (fun _ => false)); [apply length_filter_false|].
  intros e He. apply not_true_iff_false. intros Hc. apply H.
  apply aresta_em_tem. unfold tem_aresta. apply existsb_exists. eauto.
Qed.

(** C10 (as amended). In a graph of kind 3, adding a self-loop on a present
    vertex [u] with a weight [w] for which no self-loop is stored yet
    succeeds, appends exactly one copy to the list of [u] (no mirror copy),
    and changes neither the result of [calcular_graus] nor the degree of
    any vertex. *)
Theorem adicionar_laco_spec (g : Grafo) (u : Z) (w : option string) :
  tipo g = 3 -> In u (Dict.keys (vertices g)) -> ~ aresta_em g u u w ->
  let r := Main11.adicionar_aresta g u u w in
  fst r = true
  /\ adj_get (adj (snd r)) u = adj_get (adj g) u ++ [mkAresta u u w]
  /\ (forall x, x <> u -> adj_get (adj (snd r)) x = adj_get (adj g) x)
  /\ copias (snd r) u u w = 1%nat
  /\ Main11.calcular_graus (snd r) = Main11.calcular_graus g
  /\ (forall x, grau (snd r) x = grau g x).
Proof.
  intros Htp Hu Hno. cbv zeta. rewrite adicionar_laco by auto. simpl.
  split; auto. split; [apply adj_get_append_eq|].
  split; [intros x Hx; now apply adj_get_append_ne|].
  split.
  { unfold copias. simpl. rewrite adj_get_append_eq, List.filter_app, length_app.
    fold (copias g u u w). rewrite copias_zero by auto. simpl.
    rewrite Z.eqb_refl. simpl.
    assert (peso_eqb w w = true) as -> by now apply peso_eqb_eq.
    reflexivity. }
  split.
  { rewrite !calcular_graus_plano. simpl. rewrite Htp.
    now rewrite incrementos_laco. }
  intros x. unfold grau. simpl. rewrite adj_get_append.
  destruct (Z.eqb_spec x u) as [->|]; [|now rewrite app_nil_r].
  rewrite List.filter_app, length_app. simpl. rewrite Z.eqb_refl. simpl. lia.
Qed.

(** ** The Eulerian and Hamiltonian checks *)

(** C2 (as amended). On a graph whose kind is not 3 the Eulerian check
    raises nothing and returns [False], the value it also returns when there
    is no Eulerian cycle; only the printed line tells the two apart. *)
Theorem euleriano_nao_aplicavel (g : Grafo) :
  tipo g <> 3 ->
  Main11.tem_ciclo_euleriano g = Ok (false, [Main11.EulerSoNaoDirigido]).
Proof.
  intros H. apply Z.eqb_neq in H. unfold Main11.tem_ciclo_euleriano.
  now rewrite H.
Qed.

Lemma ore_busca_None a graus n ks :
  Main11.ore_busca a graus n ks = None ->
  forall u v, In u ks -> In v ks -> u <> v ->
              Main11.ore_viola a graus n u v = false
              \/ Main11.ore_viola a graus n v u = false.
Proof.
  induction ks as [|k ks IH]; simpl; [easy|].
  destruct (find (Main11.ore_viola a graus n k) ks) eqn:Ef; [discriminate|].
  intros Hb u v [->|Hu] [->|Hv] Hne; try tauto.
  - left. eapply find_none; eauto.
  - right. eapply find_none; eauto.
  - now apply IH.
Qed.

Lemma ore_busca_Some a graus n ks u v :
  Main11.ore_busca a graus n ks = Some (u, v) ->
  In u ks /\ In v ks /\ Main11.ore_viola a graus n u v = true.
Proof.
  induction ks as [|k ks IH]; simpl; [discriminate|].
  destruct (find (Main11.ore_viola a graus n k) ks) eqn:Ef.
  - intros [= -> ->]. apply find_some in Ef. tauto.
  - intros H. apply IH in H. tauto.
Qed.

Lemma grau_de_construido g :
  List.NoDup (Dict.keys (vertices g)) ->
  forall v, In v (Dict.keys (vertices g)) ->
  Main11.grau_de (map (fun v => (v, grau g v)) (Dict.keys (vertices g))) v
  = grau g v.
Proof.
  intros Hnd v Hv. unfold Main11.grau_de.
  rewrite (In_get v (grau g v)); auto.
  - unfold Dict.keys. rewrite map_map. simpl. now rewrite map_id.
  - apply in_map_iff. eauto.
Qed.

Lemma nao_adjacente_existsb g u v :
  (forall p, ~ aresta_em g u v p) ->
  existsb (fun e => Z.eqb (destino e) v) (adj_get (adj g) u) = false.
Proof.
  intros H. apply not_true_iff_false. intros Hc.
  apply existsb_exists in Hc as (e & He & Hd). apply Z.eqb_eq in Hd.
  apply (H (peso e)). exists e. auto.
Qed.

(** C1 (as amended). In an undirected graph built by the operations, with
    at least 3 vertices, on which neither Dirac's nor Ore's condition holds,
    the Hamiltonian check returns [False] -- the same value it returns for
    graphs that are too small or not undirected -- after printing the pair
    that violates Ore's condition and the three closing lines, the last of
    which concludes that there is probably no Hamiltonian cycle. *)
Theorem hamiltoniano_indeterminado (ops : list Op) :
  let g := construido11 3 ops in
  let n := Z.of_nat (length (vertices g)) in
  3 <= n -> ~ dirac_vale g -> ~ ore_vale g ->
  (exists u v,
     Main11.tem_ciclo_hamiltoniano g
     = Ok (false, [Main11.HamOreNaoSatisfeito u v n; Main11.HamNaoGarantido;
                   Main11.HamProblemaNPCompleto;
                   Main11.HamConclusaoProvavelNao])
     /\ In u (Dict.keys (vertices g)) /\ In v (Dict.keys (vertices g))
     /\ (forall p, ~ aresta_em g u v p)
     /\ grau g u + grau g v < n)
  /\ (forall g', Z.of_nat (length (vertices g')) < 3 ->
        Main11.tem_ciclo_hamiltoniano g' = Ok (false, [Main11.HamMuitoPequeno]))
  /\ (forall g', 3 <= Z.of_nat (length (vertices g')) -> tipo g' <> 3 ->
        Main11.tem_ciclo_hamiltoniano g' = Ok (false, [Main11.HamSoNaoDirigido])).
Proof.
  intros g n Hn Hdirac Hore.
  pose proof (inv_construido11 3 ops) as (Hnd & Hk & Hd). fold g in Hnd, Hk, Hd.
  pose proof (espelhado_construido11 ops) as [Hsim _]. fold g in Hsim.
  pose proof (tipo_construido11 3 ops) as Htp. fold g in Htp.
  pose proof (calcular_graus_construido3 ops) as Hgr. cbv zeta in Hgr.
  fold g in Hgr.
  set (gr := map (fun v => (v, grau g v)) (Dict.keys (vertices g))) in *.
  assert (Hkeys : Dict.keys gr = Dict.keys (vertices g)).
  { unfold gr, Dict.keys. rewrite map_map. simpl. apply map_id. }
  split; [|split].
  - unfold Main11.tem_ciclo_hamiltoniano. fold n.
    assert (Z.ltb n 3 = false) as -> by (apply Z.ltb_ge; lia).
    rewrite Htp. simpl. rewrite Hgr. simpl.
    destruct (Main11.dirac gr n) eqn:Edir.
    { exfalso. apply Hdirac. intros v Hv. fold n.
      unfold Main11.dirac in Edir. rewrite forallb_forall in Edir.
      apply Z.leb_le, Edir. unfold Dict.values, gr. rewrite map_map. simpl.
      apply in_map_iff. eauto. }
    destruct (Main11.ore_busca (adj g) gr n (Dict.keys gr)) as [[u v]|] eqn:Eore.
    + exists u, v. split; auto.
      apply ore_busca_Some in Eore as (Hu & Hv & Hviola).
      rewrite Hkeys in Hu, Hv. repeat split; auto.
      * intros p (e & He & Hde & _).
        apply andb_true_iff in Hviola as [Hadj _].
        apply negb_true_iff in Hadj.
        assert (existsb (fun e => Z.eqb (destino e) v) (adj_get (adj g) u) = true);
          [|congruence].
        apply existsb_exists. exists e. split; auto. now apply Z.eqb_eq.
      * apply andb_true_iff in Hviola as [_ Hsum]. apply Z.ltb_lt in Hsum.
        unfold gr in Hsum. now rewrite !grau_de_construido in Hsum.
    + exfalso. apply Hore. intros u v Hu Hv Hne Hnadj. fold n.
      assert (Hnadj' : forall p, ~ aresta_em g v u p).
      { intros p H. apply (Hnadj p), Hsim, H. }
      rewrite <- Hkeys in Hu, Hv.
      destruct (ore_busca_None _ _ _ _ Eore u v Hu Hv Hne) as [H|H];
        unfold Main11.ore_viola in H;
        rewrite nao_adjacente_existsb in H by auto; simpl in H;
        apply Z.ltb_ge in H; rewrite Hkeys in Hu, Hv;
        unfold gr in H; rewrite !grau_de_construido in H by auto; lia.
  - intros g' H. unfold Main11.tem_ciclo_hamiltoniano.
    apply Z.ltb_lt in H. now rewrite H.
  - intros g' H1 H2. unfold Main11.tem_ciclo_hamiltoniano.
    apply Z.ltb_ge in H1. apply Z.eqb_neq in H2. now rewrite H1, H2.
Qed.

(** ** Strongly connected components *)

Lemma foldM_map {A B S} (f : S -> B -> result S) (h : A -> B) l st :
  foldM (fun st x => f st (h x)) l st = foldM f (map h l) st.
Proof.
  revert st. induction l as [|x l IH]; simpl; auto.
  intros st. destruct (f st (h x)); auto.
Qed.

Lemma size_menos_visitado (U vis : gset Z) u :
  u ∈ U -> u ∉ vis -> (size (U ∖ ({[u]} ∪ vis)) < size (U ∖ vis))%nat.
Proof. intros H1 H2. apply subset_size. set_solver. Qed.

Lemma size_menos_mono (U vis vis' : gset Z) :
  vis ⊆ vis' -> (size (U ∖ vis') <= size (U ∖ vis))%nat.
Proof. intros H. apply subseteq_size. set_solver. Qed.

Section Busca.
(** A search procedure [busca] that visits its start vertex whenever it
    has fuel left, iterated over a list of candidate vertices. *)
Variable U : gset Z.
Variable busca : Z -> gset Z * list Z -> result (gset Z * list Z).
Variable f : nat.
Hypothesis busca_ok :
  forall u vis l, u ∈ U -> u ∉ vis -> (size (U ∖ vis) < f)%nat ->
    visita U vis l (fun vis' => u ∈ vis') (busca u (vis, l)).

Lemma laco_ok ws :
  forall vis l,
    (forall w, w ∈ ws -> w ∈ U) -> (size (U ∖ vis) < f)%nat ->
    visita U vis l (fun vis' => forall w, w ∈ ws -> w ∈ vis')
           (foldM (laco busca) ws (vis, l)).
Proof.
  induction ws as [|w ws IH]; intros vis l HU Hf.
  - exists []. simpl. rewrite app_nil_r.
    split; [f_equal; f_equal; set_solver|].
    split; [constructor|]. split; set_solver.
  - simpl. unfold laco at 1. simpl.
    destruct (decide (w ∈ vis)) as [Hw|Hw].
    + destruct (IH vis l) as (novos & E & Hnd & Hin & Hws); auto.
      { intros x Hx. apply HU. set_solver. }
      exists novos. repeat split; auto; try (apply Hin; auto).
      intros x Hx. apply elem_of_cons in Hx as [->|Hx]; auto. set_solver.
    + destruct (busca_ok w vis l) as (n1 & E1 & Hnd1 & Hin1 & Hw1); auto.
      { apply HU. set_solver. }
      rewrite E1.
      destruct (IH (vis ∪ list_to_set n1) (l ++ n1))
        as (n2 & E2 & Hnd2 & Hin2 & Hws2).
      { intros x Hx. apply HU. set_solver. }
      { eapply Nat.le_lt_trans; [|exact Hf].
        apply size_menos_mono. set_solver. }
      exists (n1 ++ n2). split.
      { rewrite E2. f_equal. f_equal; [set_solver|now rewrite app_assoc]. }
      split.
      { apply NoDup_app. split; auto. split; auto.
        intros x Hx1 Hx2. apply Hin2 in Hx2. set_solver. }
      split.
      { intros x Hx. apply elem_of_app in Hx as [Hx|Hx]; auto.
        apply Hin2 in Hx. set_solver. }
      intros x Hx. apply elem_of_cons in Hx as [->|Hx]; [set_solver|].
      apply Hws2 in Hx. set_solver.
Qed.
End Busca.

Lemma dfs1_S f a u st :
  Part000.dfs1 (S f) a u st
  = (st' ← foldM (laco (Part000.dfs1 f a)) (map destino (adj_get a u))
                 ({[u]} ∪ st.1, st.2);
     Ok (st'.1, st'.2 ++ [u])).
Proof. simpl. now rewrite <- foldM_map. Qed.

Lemma dfs2_S f t u st :
  Part000.dfs2 (S f) t u st
  = foldM (laco (Part000.dfs2 f t)) (Part000.transposto_get t u)
          ({[u]} ∪ st.1, st.2 ++ [u]).
Proof. reflexivity. Qed.

Lemma dfs1_ok (U : gset Z) a :
  (forall u e, In e (adj_get a u) -> destino e ∈ U) ->
  forall fuel u vis l,
    u ∈ U -> u ∉ vis -> (size (U ∖ vis) < fuel)%nat ->
    visita U vis l (fun vis' => u ∈ vis') (Part000.dfs1 fuel a u (vis, l)).
Proof.
  intros Hfecho. induction fuel as [|f IH]; intros u vis l Hu Hvis Hf; [lia|].
  rewrite dfs1_S. simpl.
  destruct (laco_ok U (Part000.dfs1 f a) f IH (map destino (adj_get a u))
                    ({[u]} ∪ vis) l)
    as (novos & E & Hnd & Hin & _).
  { intros w Hw. apply list_elem_of_In, in_map_iff in Hw as (e & <- & He).
    eauto. }
  { pose proof (size_menos_visitado U vis u Hu Hvis). lia. }
  rewrite E. simpl. exists (novos ++ [u]). split.
  { f_equal. f_equal; [|now rewrite app_assoc].
    rewrite list_to_set_app_L. set_solver. }
  split.
  { apply NoDup_app. split; auto. split; [|apply NoDup_singleton].
    intros x Hx1 Hx2. apply Hin in Hx1. set_solver. }
  split.
  - intros x Hx. apply elem_of_app in Hx as [Hx|Hx].
    + apply Hin in Hx. set_solver.
    + set_solver.
  - set_solver.
Qed.

Lemma dfs2_ok (U : gset Z) t :
  (forall u w, In w (Part000.transposto_get t u) -> w ∈ U) ->
  forall fuel u vis l,
    u ∈ U -> u ∉ vis -> (size (U ∖ vis) < fuel)%nat ->
    visita U vis l (fun vis' => u ∈ vis') (Part000.dfs2 fuel t u (vis, l)).
Proof.
  intros Hfecho. induction fuel as [|f IH]; intros u vis l Hu Hvis Hf; [lia|].
  rewrite dfs2_S. simpl.
  destruct (laco_ok U (Part000.dfs2 f t) f IH (Part000.transposto_get t u)
                    ({[u]} ∪ vis) (l ++ [u]))
    as (novos & E & Hnd & Hin & _).
  { intros w Hw. apply list_elem_of_In in Hw. eauto. }
  { pose proof (size_menos_visitado U vis u Hu Hvis). lia. }
  rewrite E. exists (u :: novos). split.
  { f_equal. f_equal; [|now rewrite <- app_assoc].
    rewrite list_to_set_cons. set_solver. }
  split.
  { apply NoDup_cons. split; auto.
    intros Hx. apply Hin in Hx. set_solver. }
  split.
  - intros x Hx. apply elem_of_cons in Hx as [->|Hx]; auto.
    apply Hin in Hx. set_solver.
  - set_solver.
Qed.

Lemma passo2_ok (U : gset Z) t fuel :
  (forall u w, In w (Part000.transposto_get t u) -> w ∈ U) ->
  forall ws vis comps,
    (forall w, w ∈ ws -> w ∈ U) -> (size (U ∖ vis) < fuel)%nat ->
    exists novas,
      foldM (passo2 fuel t) ws (vis, comps)
      = Ok (vis ∪ list_to_set (concat novas), comps ++ novas)
      /\ NoDup (concat novas)
      /\ (forall x, x ∈ concat novas -> x ∈ U /\ x ∉ vis)
      /\ (forall w, w ∈ ws -> w ∈ vis ∪ list_to_set (concat novas))
      /\ (forall c, c ∈ novas -> c <> []).
Proof.
  intros Hfecho. induction ws as [|w ws IH]; intros vis comps HU Hf.
  - exists []. simpl. rewrite app_nil_r.
    split; [f_equal; f_equal; set_solver|].
    split; [constructor|]. repeat split; set_solver.
  - simpl. unfold passo2 at 1. simpl.
    destruct (decide (w ∈ vis)) as [Hw|Hw].
    + destruct (IH vis comps) as (novas & E & Hnd & Hin & Hws & Hne); auto.
      { intros x Hx. apply HU. set_solver. }
      exists novas. repeat split; auto; try (apply Hin; auto).
      intros x Hx. apply elem_of_cons in Hx as [->|Hx]; auto. set_solver.
    + destruct (dfs2_ok U t Hfecho fuel w vis [])
        as (c & E1 & Hnd1 & Hin1 & Hw1); auto.
      { apply HU. set_solver. }
      rewrite E1. simpl.
      destruct (IH (vis ∪ list_to_set c) (comps ++ [c]))
        as (novas & E2 & Hnd2 & Hin2 & Hws2 & Hne2).
      { intros x Hx. apply HU. set_solver. }
      { eapply Nat.le_lt_trans; [|exact Hf].
        apply size_menos_mono. set_solver. }
      exists (c :: novas). simpl. split.
      { rewrite E2. f_equal. f_equal; [|now rewrite <- app_assoc].
        rewrite list_to_set_app_L. set_solver. }
      split.
      { apply NoDup_app. split; auto. split; auto.
        intros x Hx1 Hx2. apply Hin2 in Hx2. set_solver. }
      split.
      { intros x Hx. apply elem_of_app in Hx as [Hx|Hx]; auto.
        apply Hin2 in Hx. set_solver. }
      split.
      { intros x Hx. rewrite list_to_set_app_L.
        apply elem_of_cons in Hx as [->|Hx]; [set_solver|].
        apply Hws2 in Hx. set_solver. }
      intros c' Hc'. apply elem_of_cons in Hc' as [->|Hc']; auto.
      intros ->. set_solver.
Qed.

Lemma transposto_zero_lookup (ks : list Z) (t : gmap Z (list Z)) u :
  fold_left (fun t v => <[v := []]> t) ks t !! u
  = if decide (u ∈ ks) then Some [] else t !! u.
Proof.
  revert t. induction ks as [|k ks IH]; intros t; simpl.
  - destruct (decide (u ∈ [])); [set_solver|auto].
  - rewrite IH. destruct (decide (u ∈ ks)), (decide (u ∈ k :: ks));
      try set_solver.
    + assert (u = k) as -> by set_solver. apply lookup_insert_eq.
    + apply lookup_insert_ne. set_solver.
Qed.

(** On a well-formed graph the transposed adjacency is built without a
    [KeyError], and it only lists vertices. *)
Lemma transposto_de_ok g :
  inv g ->
  exists t, Part000.transposto_de g = Ok t
            /\ forall u w, In w (Part000.transposto_get t u) ->
                           In w (Dict.keys (vertices g)).
Proof.
  intros (Hnd & Hk & Hd). unfold Part000.transposto_de.
  set (V := Dict.keys (vertices g)) in *.
  set (t0 := fold_left (fun t v => <[v := []]> t) V ∅).
  pose (I := fun t : gmap Z (list Z) =>
               (forall v, In v V -> is_Some (t !! v))
               /\ (forall u w, In w (Part000.transposto_get t u) -> In w V)).
  assert (H0 : I t0).
  { split.
    - intros v Hv. unfold t0. rewrite transposto_zero_lookup.
      apply list_elem_of_In in Hv. destruct (decide (v ∈ V)); [eauto|tauto].
    - intros u w. unfold Part000.transposto_get, t0.
      rewrite transposto_zero_lookup.
      destruct (decide (u ∈ V)); [easy|]. now rewrite lookup_empty. }
  assert (Hpasso : forall d src t, I t -> In d V -> In src V ->
            exists t', Part000.transposto_append d src t = Ok t' /\ I t').
  { intros d src t [H1 H2] Hdv Hsrc. unfold Part000.transposto_append.
    destruct (H1 d Hdv) as [l Hl]. rewrite Hl. eexists. split; eauto. split.
    - intros v Hv. destruct (decide (d = v)) as [->|Hne].
      + rewrite lookup_insert_eq. eauto.
      + rewrite lookup_insert_ne by auto. auto.
    - intros u w. unfold Part000.transposto_get.
      destruct (decide (d = u)) as [->|Hne].
      + rewrite lookup_insert_eq, in_app_iff. intros [Hw|[<-|[]]]; auto.
        apply (H2 u). unfold Part000.transposto_get. now rewrite Hl.
      + rewrite lookup_insert_ne by auto. apply H2. }
  assert (Hint : forall src l t, I t -> In src V ->
            (forall e, In e l -> In (destino e) V) ->
            exists t', foldM (fun t e =>
                                Part000.transposto_append (destino e) src t) l t
                       = Ok t' /\ I t').
  { intros src l. induction l as [|e l IHl]; intros t Ht Hsrc Hl; simpl.
    - eauto.
    - destruct (Hpasso (destino e) src t) as (t1 & E1 & Ht1); auto.
      { apply Hl. now left. }
      rewrite E1. apply IHl; auto. intros e' He'. apply Hl. now right. }
  assert (Hext : forall a t, I t ->
            (forall o l, In (o, l) a ->
                         In o V /\ forall e, In e l -> In (destino e) V) ->
            exists t', foldM (fun t sl =>
                         foldM (fun t e =>
                                  Part000.transposto_append (destino e) (fst sl) t)
                               (snd sl) t) a t
                       = Ok t' /\ I t').
  { induction a as [|[o l] a IHa]; intros t Ht Ha; simpl.
    - eauto.
    - destruct (Ha o l (or_introl eq_refl)) as [Ho Hl].
      destruct (Hint o l t Ht Ho Hl) as (t1 & E1 & Ht1).
      rewrite E1. apply IHa; auto. intros o' l' H. apply Ha. now right. }
  destruct (Hext (adj g) t0 H0) as (t & Et & [_ Ht]).
  { intros o l Hol. split.
    - rewrite <- Hk. apply in_map_iff. exists (o, l). auto.
    - intros e He. apply (Hd o). unfold adj_get.
      rewrite (In_get o l (adj g)); auto. now rewrite Hk. }
  exists t. split; auto.
Qed.

Lemma size_chaves (ks : list Z) : (size (list_to_set ks : gset Z) <= length ks)%nat.
Proof.
  induction ks as [|k ks IH].
  - rewrite list_to_set_nil, size_empty. simpl. lia.
  - rewrite list_to_set_cons. simpl.
    pose proof (size_union_alt {[k]} (list_to_set ks : gset Z)) as H.
    rewrite H, size_singleton.
    assert (H1 : (list_to_set ks : gset Z) ∖ {[k]} ⊆ list_to_set ks)
      by set_solver.
    apply subseteq_size in H1. simpl. lia.
Qed.

Lemma elem_of_rev (l : list Z) x : x ∈ rev l <-> x ∈ l.
Proof. rewrite !list_elem_of_In. symmetry. apply in_rev. Qed.

(** Kosaraju's two passes on a well-formed graph return components whose
    concatenation has no repetition and lists exactly the vertices. *)
Lemma componentes_ok g :
  inv g ->
  exists comps,
    Part000.componentes_fortemente_conexas g = Ok comps
    /\ NoDup (concat comps)
    /\ (forall x, x ∈ concat comps <-> In x (Dict.keys (vertices g)))
    /\ (forall c, c ∈ comps -> c <> []).
Proof.
  intros Hinv. pose proof Hinv as (Hnd & Hk & Hd).
  set (V := Dict.keys (vertices g)) in *.
  set (U := list_to_set V : gset Z).
  assert (HU : forall x, x ∈ U <-> In x V).
  { intros x. unfold U. rewrite elem_of_list_to_set. apply list_elem_of_In. }
  assert (Hfuel : forall vis : gset Z, (size (U ∖ vis) < Part000.scc_fuel g)%nat).
  { intros vis. unfold Part000.scc_fuel.
    pose proof (subseteq_size (U ∖ vis) U ltac:(set_solver)).
    pose proof (size_chaves V). fold U in H0.
    unfold V, Dict.keys in H0. rewrite length_map in H0. lia. }
  unfold Part000.componentes_fortemente_conexas. cbv zeta.
  revert Hfuel. generalize (Part000.scc_fuel g). intros fuel Hfuel.
  (* first pass *)
  destruct (laco_ok U (Part000.dfs1 fuel (adj g)) fuel
                    (dfs1_ok U (adj g) ltac:(intros u e He; apply HU; eauto)
                             fuel)
                    V ∅ [])
    as (ordem & E1 & Hnd1 & Hin1 & Hall1); auto.
  { intros w Hw. apply HU. now apply list_elem_of_In. }
  fold V. unfold laco in E1. rewrite E1. simpl.
  (* transposed adjacency *)
  destruct (transposto_de_ok g Hinv) as (t & Et & Ht).
  rewrite Et. simpl.
  (* second pass *)
  destruct (passo2_ok U t fuel
                      ltac:(intros u w Hw; apply HU; eauto)
                      (rev ordem) ∅ [])
    as (comps & E2 & Hnd2 & Hin2 & Hall2 & Hne2); auto.
  { intros w Hw. rewrite elem_of_rev in Hw. apply Hin1 in Hw. tauto. }
  unfold passo2 in E2. rewrite E2. simpl.
  exists comps. split; auto. split; auto. split; auto.
  intros x. split.
  - intros Hx. apply HU. apply Hin2 in Hx. tauto.
  - intros Hx.
    assert (Hxo : x ∈ ordem).
    { apply list_elem_of_In in Hx. apply Hall1 in Hx. set_solver. }
    rewrite <- elem_of_rev in Hxo. apply Hall2 in Hxo. set_solver.
Qed.

Lemma NoDup_concat_unico (cs : list (list Z)) :
  NoDup (concat cs) ->
  forall i j ci cj v,
    nth_error cs i = Some ci -> nth_error cs j = Some cj ->
    In v ci -> In v cj -> i = j.
Proof.
  induction cs as [|c cs IH]; intros Hnd i j ci cj v Hi Hj Hvi Hvj.
  - now destruct i.
  - simpl in Hnd. apply NoDup_app in Hnd as (Hc & Hdis & Hcs).
    assert (Hsub : forall k ck, nth_error cs k = Some ck -> In v ck ->
                                v ∈ concat cs).
    { intros k ck Hk Hv. apply list_elem_of_In, in_concat.
      exists ck. split; auto. eapply nth_error_In, Hk. }
    destruct i as [|i], j as [|j]; simpl in *; auto.
    + injection Hi as <-. exfalso. apply (Hdis v).
      * now apply list_elem_of_In.
      * eapply Hsub; eauto.
    + injection Hj as <-. exfalso. apply (Hdis v).
      * now apply list_elem_of_In.
      * eapply Hsub; eauto.
    + f_equal. eapply IH; eauto.
Qed.

(** C6. On a well-formed graph the components returned by
    [componentes_fortemente_conexas] partition the vertex set: their
    concatenation is a permutation of the vertex ids without repetition, so
    every vertex is in some component, every element of a component is a
    vertex, no vertex is in two components, and no component is empty. *)
Theorem componentes_particao (g : Grafo) :
  bem_formado g = true ->
  exists comps,
    Part000.componentes_fortemente_conexas g = Ok comps
    /\ Permutation (concat comps) (Dict.keys (vertices g))
    /\ List.NoDup (concat comps)
    /\ (forall v, In v (Dict.keys (vertices g))
                  <-> exists c, In c comps /\ In v c)
    /\ (forall i j ci cj v,
          nth_error comps i = Some ci -> nth_error comps j = Some cj ->
          In v ci -> In v cj -> i = j)
    /\ (forall c, In c comps -> c <> []).
Proof.
  intros Hwf. apply inv_bem_formado in Hwf.
  destruct (componentes_ok g Hwf) as (comps & E & Hnd & Hel & Hne).
  destruct Hwf as (HndV & _ & _).
  exists comps. split; auto.
  assert (Hnd' : List.NoDup (concat comps)) by now apply NoDup_ListNoDup.
  split.
  { apply Permutation.NoDup_Permutation; auto.
    intros x. rewrite <- Hel. symmetry. apply list_elem_of_In. }
  split; auto. split.
  { intros v. rewrite <- Hel, list_elem_of_In, in_concat. reflexivity. }
  split.
  { now apply NoDup_concat_unico. }
  intros c Hc. apply Hne. now apply list_elem_of_In.
Qed.

(** ** Category of a directed graph *)

Lemma filter_nao_vazio {A} (q : A -> bool) l :
  List.filter q l <> [] <-> exists x, In x l /\ q x = true.
Proof.
  split.
  - destruct (List.filter q l) as [|x l'] eqn:E; [easy|]. intros _.
    exists x. apply filter_In. rewrite E. now left.
  - intros (x & Hx & Hq) E.
    assert (H : In x (List.filter q l)) by (apply filter_In; auto).
    now rewrite E in H.
Qed.

(** The decision table of [categoria_direcionado] over the list of
    components that [componentes_fortemente_conexas] returns, with the
    checks in the order [C0], [C3], [C1], [C2]. *)
Lemma categoria_direcionado_tabela :
  (forall g, bem_formado g = true ->
     exists cat,
       Part000.categoria_direcionado g = Ok cat
       /\ (cat = Part000.C0 <-> vertices g = [] \/ lista_arestas g = [])
       /\ (vertices g <> [] -> lista_arestas g <> [] ->
           exists comps,
             Part000.componentes_fortemente_conexas g = Ok comps
             /\ let um_bloco :=
                  exists c, comps = [c]
                            /\ forall v, In v (Dict.keys (vertices g)) -> In v c in
                let unitario :=
                  (exists c, In c comps /\ length c = 1%nat)
                  /\ (1 < length comps)%nat in
                (cat = Part000.C3 <-> um_bloco)
                /\ (cat = Part000.C1 <-> ~ um_bloco /\ unitario)
                /\ (cat = Part000.C2 <-> ~ um_bloco /\ ~ unitario)))
  /\ (forall tp, Part000.categoria_direcionado (Grafo_init tp) = Ok Part000.C0)
  /\ Part000.categoria_direcionado ciclo3 = Ok Part000.C3.
Proof.
  split; [|split; [reflexivity|vm_compute; reflexivity]].
  intros g Hwf. apply inv_bem_formado in Hwf.
  destruct (componentes_ok g Hwf) as (comps & E & Hnd & Hel & Hne).
  unfold Part000.categoria_direcionado.
  destruct (vertices g) as [|v0 vs] eqn:Ev.
  { exists Part000.C0. split; auto. split; [tauto|easy]. }
  destruct (lista_arestas g) as [|e0 es] eqn:Ee.
  { exists Part000.C0. split; auto. split; [tauto|easy]. }
  rewrite E. cbn [mbind result_bind].
  set (um_bloco := exists c, comps = [c]
                     /\ forall v, In v (Dict.keys (v0 :: vs)) -> In v c).
  set (unitario := (exists c, In c comps /\ length c = 1%nat)
                   /\ (1 < length comps)%nat).
  assert (Hbloco :
    Nat.eqb (length comps) 1
    && Nat.eqb (length (nth 0 comps [])) (length (v0 :: vs)) = true
    <-> um_bloco).
  { rewrite andb_true_iff, !Nat.eqb_eq. unfold um_bloco. split.
    - intros [H1 _]. destruct comps as [|c [|c' cs]]; try discriminate.
      exists c. split; auto. intros v Hv. apply Hel in Hv.
      simpl in Hv. rewrite app_nil_r in Hv. now apply list_elem_of_In.
    - intros (c & -> & Hc). split; auto.
      cbn [concat nth] in *. rewrite app_nil_r in Hnd, Hel.
      destruct Hwf as (HndV & _ & _). rewrite Ev in HndV.
      assert (Hp : Permutation c (Dict.keys (v0 :: vs))).
      { apply Permutation.NoDup_Permutation; auto.
        - now apply NoDup_ListNoDup.
        - intros x. rewrite <- Hel. symmetry. apply list_elem_of_In. }
      apply Permutation_length in Hp. rewrite Hp.
      unfold Dict.keys. now rewrite length_map. }
  assert (Hunit :
    List.filter (fun c => Nat.eqb (length c) 1) comps <> []
    <-> exists c, In c comps /\ length c = 1%nat).
  { rewrite filter_nao_vazio. split; intros (c & H1 & H2); exists c;
      (split; [auto|now apply Nat.eqb_eq]). }
  destruct (Nat.eqb (length comps) 1
            && Nat.eqb (length (nth 0 comps [])) (length (v0 :: vs))) eqn:Eb.
  { assert (Hb : um_bloco) by (apply Hbloco; reflexivity).
    exists Part000.C3. split; auto. split; [split; [easy|intros [?|?]; easy]|].
    intros _ _. exists comps. split; auto. cbv zeta. fold um_bloco unitario.
    split; [tauto|]. split; (split; [easy|]); tauto. }
  assert (Hnb : ~ um_bloco) by (rewrite <- Hbloco; congruence).
  destruct (List.filter (fun c => Nat.eqb (length c) 1) comps) as [|c1 cs1] eqn:Ef.
  { exists Part000.C2. split; auto. split; [split; [easy|intros [?|?]; easy]|].
    intros _ _. exists comps. split; auto. cbv zeta. fold um_bloco unitario.
    assert (~ unitario) by (unfold unitario; intros [H _]; apply Hunit in H; auto).
    split; [split; [easy|tauto]|]. split; [split; [easy|tauto]|tauto]. }
  assert (Hu : exists c, In c comps /\ length c = 1%nat)
    by (apply Hunit; easy).
  destruct (Nat.ltb 1 (length comps)) eqn:El.
  - apply Nat.ltb_lt in El.
    exists Part000.C1. split; auto. split; [split; [easy|intros [?|?]; easy]|].
    intros _ _. exists comps. split; auto. cbv zeta. fold um_bloco unitario.
    assert (unitario) by (unfold unitario; auto).
    split; [split; [easy|tauto]|]. split; [tauto|split; [easy|tauto]].
  - apply Nat.ltb_ge in El.
    exists Part000.C2. split; auto. split; [split; [easy|intros [?|?]; easy]|].
    intros _ _. exists comps. split; auto. cbv zeta. fold um_bloco unitario.
    assert (~ unitario) by (unfold unitario; intros [_ H]; lia).
    split; [split; [easy|tauto]|]. split; [split; [easy|tauto]|tauto].
Qed.

(** ** The reduced graph *)

Lemma foldM_plano {S} (f : Z -> S -> Aresta -> result S)
    (a : Dict.t (list Aresta)) st :
  foldM (fun st ol => foldM (f (fst ol)) (snd ol) st) a st
  = foldM (fun st oe => f (fst oe) st (snd oe)) (arestas_com_origem a) st.
Proof.
  unfold arestas_com_origem. revert st.
  induction a as [|[o l] a IH]; intros st; simpl; auto.
  rewrite foldM_app.
  assert (H : forall st0,
    foldM (f o) l st0
    = foldM (fun st oe => f (fst oe) st (snd oe)) (map (pair o) l) st0).
  { induction l as [|e l IHl]; intros st0; simpl; auto.
    destruct (f o st0 e); auto. }
  rewrite H. destruct (foldM _ (map (pair o) l) st); auto.
Qed.

Lemma In_arestas_com_origem (a : Dict.t (list Aresta)) o e :
  List.NoDup (Dict.keys a) ->
  In (o, e) (arestas_com_origem a) <-> In e (adj_get a o).
Proof.
  intros Hnd. unfold arestas_com_origem. rewrite in_flat_map. split.
  - intros ([o' l] & Hol & H). simpl in H.
    apply in_map_iff in H as (e' & Heq & He'). injection Heq as -> ->.
    unfold adj_get. now rewrite (In_get o l a).
  - intros He. unfold adj_get in He.
    destruct (Dict.get o a) as [l|] eqn:E; [|easy].
    exists (o, l). split; [now apply get_Some_In|].
    simpl. apply in_map_iff. eauto.
Qed.

Lemma comp_de_insere (c : list Z) idx (cd : gmap Z nat) v :
  fold_left (fun cd v => <[v := idx]> cd) c cd !! v
  = if decide (v ∈ c) then Some idx else cd !! v.
Proof.
  revert cd. induction c as [|k c IH]; intros cd; simpl.
  - destruct (decide (v ∈ [])); [set_solver|auto].
  - rewrite IH. destruct (decide (v ∈ c)), (decide (v ∈ k :: c));
      try set_solver.
    + assert (v = k) as -> by set_solver. apply lookup_insert_eq.
    + apply lookup_insert_ne. set_solver.
Qed.

Lemma comp_de_fora comps idx (cd : gmap Z nat) v :
  v ∉ concat comps -> Part000.comp_de_desde idx comps cd !! v = cd !! v.
Proof.
  revert idx cd. induction comps as [|c comps IH]; intros idx cd Hv; simpl; auto.
  simpl in Hv. rewrite IH by set_solver. rewrite comp_de_insere.
  destruct (decide (v ∈ c)); [set_solver|auto].
Qed.

Lemma comp_de_dentro comps :
  NoDup (concat comps) ->
  forall idx (cd : gmap Z nat) v i c,
    nth_error comps i = Some c -> In v c ->
    Part000.comp_de_desde idx comps cd !! v = Some (idx + i)%nat.
Proof.
  induction comps as [|c0 comps IH]; intros Hnd idx cd v i c Hi Hv.
  - now destruct i.
  - simpl in Hnd. apply NoDup_app in Hnd as (Hc & Hdis & Hcs).
    destruct i as [|i]; simpl in *.
    + injection Hi as <-. apply list_elem_of_In in Hv.
      rewrite comp_de_fora by (intros H; apply (Hdis v); auto).
      rewrite comp_de_insere. destruct (decide (v ∈ c0)); [|tauto].
      f_equal. lia.
    + rewrite (IH Hcs (S idx) _ v i c) by auto. f_equal. lia.
Qed.

Lemma comp_de_componente comps v i :
  NoDup (concat comps) ->
  Part000.comp_de_desde 0 comps ∅ !! v = Some i <-> componente_de comps v i.
Proof.
  intros Hnd. split.
  - intros H. destruct (decide (v ∈ concat comps)) as [Hv|Hv].
    + apply list_elem_of_In, in_concat in Hv as (c & Hc & Hv).
      apply In_nth_error in Hc as [j Hj].
      rewrite (comp_de_dentro comps Hnd 0%nat ∅ v j c) in H by auto.
      injection H as <-. exists c. auto.
    + rewrite comp_de_fora in H by auto. now rewrite lookup_empty in H.
  - intros (c & Hc & Hv).
    now rewrite (comp_de_dentro comps Hnd 0%nat ∅ v i c).
Qed.

Lemma reduzido_add_elem cu cv (r : gmap nat (gset nat)) a b :
  b ∈ default ∅ (Part000.reduzido_add cu cv r !! a)
  <-> b ∈ default ∅ (r !! a) \/ (a = cu /\ b = cv).
Proof.
  unfold Part000.reduzido_add. destruct (decide (cu = a)) as [->|Hne].
  - rewrite lookup_insert_eq. simpl. set_solver.
  - rewrite lookup_insert_ne by auto. split; [auto|].
    intros [H|[H _]]; [auto|congruence].
Qed.

Lemma reduz_ok (cd : gmap Z nat) (E : list (Z * Aresta)) :
  forall r : gmap nat (gset nat),
    (forall oe, In oe E ->
                is_Some (cd !! fst oe) /\ is_Some (cd !! destino (snd oe))) ->
    exists r',
      foldM (fun r oe => Part000.reduz_aresta cd (fst oe) r (snd oe)) E r = Ok r'
      /\ forall cu cv,
           cv ∈ default ∅ (r' !! cu)
           <-> cv ∈ default ∅ (r !! cu)
               \/ exists oe, In oe E /\ cd !! fst oe = Some cu
                             /\ cd !! destino (snd oe) = Some cv /\ cu <> cv.
Proof.
  induction E as [|[u e] E IH]; intros r HE.
  - exists r. split; auto. intros cu cv. split; auto.
    intros [H|(oe & [] & _)]. auto.
  - destruct (HE (u, e) (or_introl eq_refl)) as [[cu0 Hu] [cv0 Hv]].
    simpl in Hu, Hv. simpl. unfold Part000.reduz_aresta at 1.
    unfold Part000.comp_de_get. rewrite Hu, Hv. simpl.
    destruct (decide (cu0 <> cv0)) as [Hne|Heq].
    + destruct (IH (Part000.reduzido_add cu0 cv0 r)) as (r' & E' & Hr').
      { intros oe Hoe. apply HE. now right. }
      exists r'. split; auto. intros cu cv. rewrite Hr', reduzido_add_elem.
      split.
      * intros [[H|[-> ->]]|(oe & Hoe & H)]; auto.
        -- right. exists (u, e). simpl. auto.
        -- right. exists oe. auto.
      * intros [H|(oe & [<-|Hoe] & H1 & H2 & H3)]; auto.
        -- simpl in *. left. right. split; congruence.
        -- right. exists oe. auto.
    + destruct (IH r) as (r' & E' & Hr').
      { intros oe Hoe. apply HE. now right. }
      exists r'. split; auto. intros cu cv. rewrite Hr'.
      split.
      * intros [H|(oe & Hoe & H)]; auto. right. exists oe. auto.
      * intros [H|(oe & [<-|Hoe] & H1 & H2 & H3)]; auto.
        -- simpl in *. exfalso. apply Heq. congruence.
        -- right. exists oe. auto.
Qed.

(** C8. On a well-formed graph [grafo_reduzido] returns the components and
    a map in which component [cv] is a successor of component [cu] exactly
    when the two are distinct and some stored edge goes from a vertex of
    [cu] to a vertex of [cv]; so no component is its own successor, and the
    successors of a component form a set (no repetition). *)
Theorem grafo_reduzido_spec (g : Grafo) :
  bem_formado g = true ->
  exists comps reduzido,
    Part000.grafo_reduzido g = Ok (comps, reduzido)
    /\ Part000.componentes_fortemente_conexas g = Ok comps
    /\ (forall cu cv,
          cv ∈ default ∅ (reduzido !! cu)
          <-> cu <> cv
              /\ exists u e, In e (adj_get (adj g) u)
                             /\ componente_de comps u cu
                             /\ componente_de comps (destino e) cv)
    /\ (forall cu s, reduzido !! cu = Some s ->
                     (cu ∉ s) /\ List.NoDup (elements s)).
Proof.
  intros Hwf. apply inv_bem_formado in Hwf.
  destruct (componentes_ok g Hwf) as (comps & E & Hnd & Hel & Hne).
  pose proof Hwf as (HndV & Hk & Hd).
  unfold Part000.grafo_reduzido. rewrite E. cbn [mbind result_bind].
  set (cd := Part000.comp_de_desde 0 comps ∅).
  rewrite (foldM_plano (Part000.reduz_aresta cd)).
  assert (Hcd : forall v, In v (Dict.keys (vertices g)) -> is_Some (cd !! v)).
  { intros v Hv. apply Hel, list_elem_of_In, in_concat in Hv as (c & Hc & Hv).
    apply In_nth_error in Hc as [i Hi]. exists i.
    apply comp_de_componente; auto. exists c. auto. }
  destruct (reduz_ok cd (arestas_com_origem (adj g)) ∅) as (r & Er & Hr).
  { intros [u e] Hue. simpl.
    apply In_arestas_com_origem in Hue; [|now rewrite Hk].
    split; apply Hcd; [|eauto].
    rewrite <- Hk. eapply adj_get_In_keys, Hue. }
  rewrite Er. exists comps, r. split; auto. split; auto.
  assert (Hchar : forall cu cv,
    cv ∈ default ∅ (r !! cu)
    <-> cu <> cv
        /\ exists u e, In e (adj_get (adj g) u)
                       /\ componente_de comps u cu
                       /\ componente_de comps (destino e) cv).
  { intros cu cv. rewrite Hr, lookup_empty. simpl. split.
    - intros [H|([u e] & Hue & H1 & H2 & H3)]; [set_solver|].
      simpl in *. split; auto. exists u, e.
      apply In_arestas_com_origem in Hue; [|now rewrite Hk].
      split; auto. split; now apply comp_de_componente.
    - intros (Hne' & u & e & He & H1 & H2). right. exists (u, e). simpl.
      split; [apply In_arestas_com_origem; auto; now rewrite Hk|].
      split; [now apply comp_de_componente|].
      split; [now apply comp_de_componente|auto]. }
  split; auto.
  intros cu s Hs. split.
  - intros Hin. assert (H : cu ∈ default ∅ (r !! cu)) by now rewrite Hs.
    apply Hchar in H. tauto.
  - apply NoDup_ListNoDup, NoDup_elements.
Qed.

(** ** Termination of the connectivity search *)

Lemma peso_restante_mono a (vis vis' : gset Z) :
  vis ⊆ vis' -> (peso_restante a vis' <= peso_restante a vis)%nat.
Proof.
  intros H. unfold peso_restante.
  induction a as [|[k l] a IH]; simpl; auto.
  destruct (decide (k ∈ vis')), (decide (k ∈ vis)); try set_solver; lia.
Qed.

Lemma peso_restante_visita a (vis : gset Z) u :
  List.NoDup (Dict.keys a) -> u ∉ vis ->
  (peso_restante a ({[u]} ∪ vis) + length (adj_get a u)
   <= peso_restante a vis)%nat.
Proof.
  intros Hnd Hu. unfold adj_get.
  induction a as [|[k l] a IH]; simpl; auto.
  apply List.NoDup_cons_iff in Hnd as [Hk Hnd].
  unfold peso_restante in *. simpl.
  destruct (Z.eqb_spec u k) as [->|Hne].
  - destruct (decide (k ∈ {[k]} ∪ vis)); [|set_solver].
    destruct (decide (k ∈ vis)); [tauto|].
    pose proof (peso_restante_mono a vis ({[k]} ∪ vis) ltac:(set_solver)).
    unfold peso_restante in *. lia.
  - specialize (IH Hnd).
    destruct (decide (k ∈ {[u]} ∪ vis)), (decide (k ∈ vis));
      try set_solver; lia.
Qed.

Lemma peso_restante_vazio (a : Dict.t (list Aresta)) :
  peso_restante a ∅ = length (concat (Dict.values a)).
Proof.
  unfold peso_restante.
  induction a as [|[k l] a IH]; simpl; auto.
  rewrite length_app, IH. destruct (decide (k ∈ (∅ : gset Z))); [set_solver|auto].
Qed.

Lemma length_filter_le {A} (q : A -> bool) l :
  (length (List.filter q l) <= length l)%nat.
Proof. induction l as [|x l IH]; simpl; [lia|]. destruct (q x); simpl; lia. Qed.

Lemma conexo_laco_total a :
  List.NoDup (Dict.keys a) ->
  forall fuel pilha (vis : gset Z),
    (length pilha + peso_restante a vis < fuel)%nat ->
    exists vis', Main11.conexo_laco fuel a pilha vis = Ok vis'.
Proof.
  intros Hnd. induction fuel as [|f IH]; intros pilha vis Hf; [lia|].
  destruct pilha as [|u resto]; simpl; [eauto|].
  destruct (decide (u ∈ vis)) as [Hu|Hu].
  - apply IH. simpl in Hf. lia.
  - apply IH. simpl in Hf.
    pose proof (peso_restante_visita a vis u Hnd Hu).
    rewrite length_app, length_rev.
    pose proof (length_filter_le
                  (fun d => negb (bool_decide (d ∈ {[u]} ∪ vis)))
                  (map destino (adj_get a u))).
    rewrite length_map in H0. lia.
Qed.

(** The search always ends within the fuel [conexo_fuel]. *)
Lemma conexo_total g :
  List.NoDup (Dict.keys (adj g)) ->
  exists b, Main11.conexo_nao_direcionado g = Ok b.
Proof.
  intros Hnd. unfold Main11.conexo_nao_direcionado.
  destruct (Dict.keys (vertices g)) as [|inicio ks]; [eauto|].
  destruct (conexo_laco_total (adj g) Hnd (Main11.conexo_fuel g) [inicio] ∅)
    as [vis Hvis].
  { rewrite peso_restante_vazio. unfold Main11.conexo_fuel, lista_arestas.
    simpl. lia. }
  rewrite Hvis. simpl. eauto.
Qed.

(** On an undirected graph built by the operations the Eulerian check
    returns a result. *)
Lemma euleriano_total ops :
  exists r, Main11.tem_ciclo_euleriano (construido11 3 ops) = Ok r.
Proof.
  pose proof (inv_construido11 3 ops) as (Hnd & Hk & _).
  unfold Main11.tem_ciclo_euleriano. rewrite tipo_construido11. simpl.
  destruct (conexo_total (construido11 3 ops)) as [b Hb]; [now rewrite Hk|].
  rewrite Hb. simpl. destruct b; simpl; [|eauto].
  pose proof (calcular_graus_construido3 ops) as Hg. cbv zeta in Hg.
  rewrite Hg. simpl.
  destruct (map fst (List.filter _ _)); eauto.
Qed.

(** ** The examples of the specification *)

Example euleriano_ciclo4 :
  Main11.tem_ciclo_euleriano ciclo4 = Ok (true, [Main11.EulerSim]).
Proof. vm_compute. reflexivity. Qed.

Example euleriano_ciclo4_pendente :
  Main11.tem_ciclo_euleriano ciclo4_pendente
  = Ok (false, [Main11.EulerGrauImpar 2 [4; 5]]).
Proof. vm_compute. reflexivity. Qed.

Example hamiltoniano_completo5 :
  Main11.tem_ciclo_hamiltoniano completo5 = Ok (true, [Main11.HamSimDirac 2]).
Proof. vm_compute. reflexivity. Qed.

(** The older variant stores a single direction also in a graph of kind 3. *)
Example adicionar_aresta_000_sem_espelho :
  adj (snd (Part000.adicionar_aresta desconexo2 1 2 None))
  = [(1, [mkAresta 1 2 None]); (2, [])].
Proof. vm_compute. reflexivity. Qed.

(** ** The claims on concrete graphs *)

(** C1, counterexample: on the path with 5 vertices neither condition
    holds and the check returns [False], the value it returns for a graph
    that is too small. *)
Lemma caminho5_retorna_falso :
  tipo caminho5 = 3
  /\ 3 <= Z.of_nat (length (vertices caminho5))
  /\ ~ dirac_vale caminho5
  /\ ~ ore_vale caminho5
  /\ Main11.tem_ciclo_hamiltoniano caminho5
     = Ok (false, [Main11.HamOreNaoSatisfeito 1 3 5; Main11.HamNaoGarantido;
                   Main11.HamProblemaNPCompleto;
                   Main11.HamConclusaoProvavelNao])
  /\ Main11.tem_ciclo_hamiltoniano desconexo2
     = Ok (false, [Main11.HamMuitoPequeno]).
Proof.
  split; [reflexivity|]. split; [vm_compute; discriminate|].
  split.
  { intros H. specialize (H 1). vm_compute in H.
    apply H; auto. }
  split.
  { intros H. specialize (H 1 3). vm_compute in H.
    apply H; auto 10; try discriminate.
    intros p (e & [He|[]] & Hd & _). subst e. discriminate. }
  split; vm_compute; reflexivity.
Qed.

(** C2, counterexample: the Eulerian check returns the same [False] on a
    directed graph as on an undirected graph that is not connected. *)
Lemma dirigido2_retorna_falso :
  tipo dirigido2 <> 3
  /\ Main11.tem_ciclo_euleriano dirigido2
     = Ok (false, [Main11.EulerSoNaoDirigido])
  /\ tipo desconexo2 = 3
  /\ Main11.tem_ciclo_euleriano desconexo2
     = Ok (false, [Main11.EulerNaoConexo]).
Proof.
  split; [vm_compute; discriminate|].
  repeat split; vm_compute; reflexivity.
Qed.

(** C10, counterexample: a second self-loop with the same weight on the
    same vertex is rejected. *)
Lemma laco_repetido_rejeitado :
  tipo laco1 = 3
  /\ In 1 (Dict.keys (vertices laco1))
  /\ fst (Main11.adicionar_aresta laco1 1 1 None) = false.
Proof. repeat split; vm_compute; auto. Qed.

Lemma hamiltoniano_indeterminado_witness :
  exists u v,
    Main11.tem_ciclo_hamiltoniano caminho5
    = Ok (false, [Main11.HamOreNaoSatisfeito u v 5; Main11.HamNaoGarantido;
                  Main11.HamProblemaNPCompleto;
                  Main11.HamConclusaoProvavelNao]).
Proof.
  destruct (hamiltoniano_indeterminado
              [AddVertice 1 "a" None; AddVertice 2 "b" None;
               AddVertice 3 "c" None; AddVertice 4 "d" None;
               AddVertice 5 "e" None;
               AddAresta 1 2 None; AddAresta 2 3 None; AddAresta 3 4 None;
               AddAresta 4 5 None])
    as [(u & v & H & _) _].
  - vm_compute. discriminate.
  - intros H. specialize (H 1). vm_compute in H. apply H; auto.
  - intros H. specialize (H 1 3). vm_compute in H.
    apply H; auto 10; try discriminate.
    intros p (e & [He|[]] & Hd & _). subst e. discriminate.
  - exists u, v. exact H.
Defined.

Lemma euleriano_nao_aplicavel_witness :
  tipo dirigido2 <> 3
  /\ Main11.tem_ciclo_euleriano dirigido2
     = Ok (false, [Main11.EulerSoNaoDirigido]).
Proof.
  split; [vm_compute; discriminate|].
  apply (euleriano_nao_aplicavel dirigido2). vm_compute. discriminate.
Defined.

Lemma adicionar_aresta_spec_witness :
  fst (Main11.adicionar_aresta desconexo2 1 2 None) = true
  /\ aresta_em (snd (Main11.adicionar_aresta desconexo2 1 2 None)) 1 2 None
  /\ aresta_em (snd (Main11.adicionar_aresta desconexo2 1 2 None)) 2 1 None.
Proof.
  destruct (adicionar_aresta_spec desconexo2 1 2 None) as (_ & _ & H1 & H2).
  split; [reflexivity|]. split.
  - apply H1. reflexivity.
  - destruct H2 as [H2 _]; [reflexivity|reflexivity|exact H2].
Defined.

Lemma remover_aresta_spec_witness :
  bem_formado paralelas = true
  /\ (forall p, ~ aresta_em (snd (Main11.remover_aresta paralelas 1 2)) 1 2 p)
  /\ (forall p, ~ aresta_em (snd (Main11.remover_aresta paralelas 1 2)) 2 1 p).
Proof.
  split; [reflexivity|].
  destruct (remover_aresta_spec paralelas 1 2) as (H1 & H2 & _).
  - reflexivity.
  - split; [exact H1|]. apply H2. reflexivity.
Defined.

Lemma calcular_graus_nao_dirigido_witness :
  Main11.calcular_graus caminho5 = Ok [(1, 1); (2, 2); (3, 2); (4, 2); (5, 1)].
Proof.
  exact (proj1 (calcular_graus_nao_dirigido
                  [AddVertice 1 "a" None; AddVertice 2 "b" None;
                   AddVertice 3 "c" None; AddVertice 4 "d" None;
                   AddVertice 5 "e" None;
                   AddAresta 1 2 None; AddAresta 2 3 None; AddAresta 3 4 None;
                   AddAresta 4 5 None])).
Defined.

Lemma componentes_particao_witness :
  bem_formado ciclo3 = true
  /\ exists comps,
       Part000.componentes_fortemente_conexas ciclo3 = Ok comps
       /\ Permutation (concat comps) (Dict.keys (vertices ciclo3)).
Proof.
  split; [reflexivity|].
  destruct (componentes_particao ciclo3) as (comps & H1 & H2 & _).
  - reflexivity.
  - exists comps. split; assumption.
Defined.

Lemma grafo_reduzido_spec_witness :
  bem_formado ciclo3 = true
  /\ exists comps reduzido,
       Part000.grafo_reduzido ciclo3 = Ok (comps, reduzido)
       /\ forall cu s, reduzido !! cu = Some s -> cu ∉ s.
Proof.
  split; [reflexivity|].
  destruct (grafo_reduzido_spec ciclo3) as (comps & r & H1 & _ & _ & H2).
  - reflexivity.
  - exists comps, r. split; [assumption|].
    intros cu s Hs. exact (proj1 (H2 cu s Hs)).
Defined.

Lemma remover_adicionar_vertice_witness :
  In 2 (Dict.keys (vertices caminho5))
  /\ forall o e,
       In e (adj_get (adj (snd (Main11.adicionar_vertice
                                  (snd (Main11.remover_vertice caminho5 2))
                                  2 "b" None))) o) ->
       o <> 2 /\ destino e <> 2.
Proof.
  assert (H : In 2 (Dict.keys (vertices caminho5))) by (vm_compute; auto).
  split; [exact H|].
  exact (proj1 (proj2 (proj2 (proj2 (proj2
           (remover_adicionar_vertice caminho5 2 "b" None H)))))).
Defined.

Lemma adicionar_laco_spec_witness :
  tipo desconexo2 = 3
  /\ In 1 (Dict.keys (vertices desconexo2))
  /\ ~ aresta_em desconexo2 1 1 None
  /\ fst (Main11.adicionar_aresta desconexo2 1 1 None) = true
  /\ Main11.calcular_graus (snd (Main11.adicionar_aresta desconexo2 1 1 None))
     = Main11.calcular_graus desconexo2.
Proof.
  assert (H1 : tipo desconexo2 = 3) by reflexivity.
  assert (H2 : In 1 (Dict.keys (vertices desconexo2))) by (vm_compute; auto).
  assert (H3 : ~ aresta_em desconexo2 1 1 None).
  { intros (e & He & _). vm_compute in He. exact He. }
  destruct (adicionar_laco_spec desconexo2 1 None H1 H2 H3)
    as (Hok & _ & _ & _ & Hg & _).
  repeat split; assumption.
Defined.

(** * Further properties of the code *)

(** ** The mutation operations *)

Lemma dict_set_mesmo {V} (k : Z) (v : V) (d : Dict.t V) :
  Dict.get k d = Some v -> Dict.set k v d = d.
Proof.
  induction d as [|[k' v'] d IH]; simpl; [discriminate|].
  destruct (Z.eqb k k') eqn:E.
  - intros [= ->]. reflexivity.
  - intros H. now rewrite IH.
Qed.

Lemma get_adj_get (a : Dict.t (list Aresta)) k :
  In k (Dict.keys a) -> Dict.get k a = Some (adj_get a k).
Proof.
  intros H. unfold adj_get. destruct (Dict.get k a) eqn:E; auto.
  apply get_None_keys in E. tauto.
Qed.

Lemma adj_ext (a1 a2 : Dict.t (list Aresta)) :
  List.NoDup (Dict.keys a1) -> Dict.keys a1 = Dict.keys a2 ->
  (forall x, adj_get a1 x = adj_get a2 x) -> a1 = a2.
Proof.
  revert a2. induction a1 as [|[k l] a1 IH]; intros [|[k' l'] a2] Hnd Hk Hg;
    try discriminate; auto.
  change (k :: Dict.keys a1 = k' :: Dict.keys a2) in Hk.
  change (List.NoDup (k :: Dict.keys a1)) in Hnd.
  injection Hk as <- Hk.
  apply List.NoDup_cons_iff in Hnd as [Hin Hnd].
  assert (Hin2 : ~ In k (Dict.keys a2)) by now rewrite <- Hk.
  assert (Hl : l = l').
  { specialize (Hg k). unfold adj_get in Hg. simpl in Hg.
    now rewrite Z.eqb_refl in Hg. }
  subst l'. f_equal. apply IH; auto. intros x. specialize (Hg x).
  unfold adj_get in *. simpl in Hg.
  destruct (Z.eqb x k) eqn:E; auto.
  apply Z.eqb_eq in E. subst x.
  apply get_None_keys in Hin, Hin2. now rewrite Hin, Hin2.
Qed.

Lemma length_filter_lt {A} (q : A -> bool) l :
  (length (List.filter q l) < length l)%nat
  <-> exists x, In x l /\ q x = false.
Proof.
  induction l as [|x l IH]; simpl.
  - split; [lia|]. intros (x & [] & _).
  - pose proof (length_filter_le q l).
    destruct (q x) eqn:E; simpl.
    + rewrite <- Nat.succ_lt_mono, IH. split.
      * intros (y & Hy & Hq). eauto.
      * intros (y & [->|Hy] & Hq); [congruence|eauto].
    + split; [eauto|lia].
Qed.

(** X1. [adicionar_vertice] returns [False] exactly when the id is already
    a vertex, and then changes nothing; otherwise it stores the vertex
    last, with its label and [meta or ()], keeps the other vertices, gives
    the new vertex an adjacency list and changes no adjacency list. *)
Theorem adicionar_vertice_efeito (g : Grafo) (v : Z) (r : string)
    (m : option (list string)) :
  let res := Main11.adicionar_vertice g v r m in
  (fst res = false <-> In v (Dict.keys (vertices g)))
  /\ (fst res = false -> snd res = g)
  /\ (fst res = true ->
      Dict.keys (vertices (snd res)) = Dict.keys (vertices g) ++ [v]
      /\ Dict.get v (vertices (snd res))
         = Some (mkVertice v r (Some (Main11.meta_or_empty m)))
      /\ (forall u, u <> v ->
            Dict.get u (vertices (snd res)) = Dict.get u (vertices g))
      /\ In v (Dict.keys (adj (snd res)))
      /\ (forall x, adj_get (adj (snd res)) x = adj_get (adj g) x)
      /\ tipo (snd res) = tipo g).
Proof.
  cbv zeta. pose proof (adj_get_adicionar_vertice g v r m) as Hadj.
  unfold Main11.adicionar_vertice in *.
  destruct (Dict.mem v (vertices g)) eqn:Ev; simpl in *.
  - apply mem_keys in Ev. repeat split; auto; discriminate.
  - split; [split; [discriminate|]|split; [discriminate|]].
    + intros H. apply mem_keys in H. congruence.
    + intros _. split; [now apply keys_set_new|].
      split; [apply get_set_eq|].
      split; [intros u Hu; now apply get_set_ne|].
      split; [|split; auto].
      destruct (Dict.mem v (adj g)) eqn:Ea.
      * now apply mem_keys.
      * apply mem_keys. unfold Dict.mem. now rewrite get_set_eq.
Qed.

Lemma get_del (V : Type) (k k' : Z) (d : Dict.t V) :
  Dict.get k' (Dict.del k d) = if Z.eqb k' k then None else Dict.get k' d.
Proof.
  destruct (Z.eqb_spec k' k) as [->|H].
  - apply get_del_eq.
  - apply get_del_ne. auto.
Qed.

(** X2. [remover_vertice] returns [False] exactly when the id is not a
    vertex, and then changes nothing; otherwise the vertex is gone, the
    other vertices are kept in order, and the stored edges are exactly the
    former ones that neither leave nor reach the removed vertex. *)
Theorem remover_vertice_efeito (g : Grafo) (v : Z) :
  let res := Main11.remover_vertice g v in
  (fst res = false <-> ~ In v (Dict.keys (vertices g)))
  /\ (fst res = false -> snd res = g)
  /\ (fst res = true ->
      ~ In v (Dict.keys (vertices (snd res)))
      /\ ~ In v (Dict.keys (adj (snd res)))
      /\ (forall u, u <> v ->
            Dict.get u (vertices (snd res)) = Dict.get u (vertices g))
      /\ (forall x e, In e (adj_get (adj (snd res)) x)
                      <-> x <> v /\ destino e <> v /\ In e (adj_get (adj g) x))
      /\ tipo (snd res) = tipo g).
Proof.
  cbv zeta.
  destruct (in_dec Z.eq_dec v (Dict.keys (vertices g))) as [Hv|Hv].
  - pose proof (fun x => adj_get_remover_vertice g v x Hv) as Hadj.
    rewrite remover_vertice_sucesso in * by auto. simpl in *.
    split; [split; [discriminate|tauto]|]. split; [discriminate|].
    intros _. split.
    { rewrite keys_del, filter_In, Z.eqb_refl. simpl. intros [_ H]. discriminate. }
    split.
    { rewrite keys_map_values, keys_del, filter_In, Z.eqb_refl. simpl.
      intros [_ H]. discriminate. }
    split.
    { intros u Hu. apply get_del_ne. auto. }
    split; auto.
    intros x e. rewrite Hadj. destruct (Z.eqb_spec x v) as [->|Hx].
    + simpl. tauto.
    + rewrite filter_In, negb_true_iff, Z.eqb_neq. tauto.
  - unfold Main11.remover_vertice. pose proof Hv as Hm.
    apply mem_false_keys in Hm. rewrite Hm. simpl.
    split; [tauto|]. split; [auto|discriminate].
Qed.

Lemma aresta_em_apos_adicionar g o d p :
  fst (Main11.adicionar_aresta g o d p) = true ->
  aresta_em (snd (Main11.adicionar_aresta g o d p)) o d p
  /\ (tipo g = 3 -> aresta_em (snd (Main11.adicionar_aresta g o d p)) d o p).
Proof.
  intros Hok. destruct (adicionar_aresta_sucesso g o d p Hok) as (Ha & _ & _).
  cbv zeta in Ha. unfold aresta_em. rewrite Ha. split.
  - exists (mkAresta o d p). split; [|auto].
    destruct (Z.eqb (tipo g) 3 && _);
      rewrite ?adj_get_append, !in_app_iff, ?Z.eqb_refl; simpl; auto.
  - intros Htp. apply Z.eqb_eq in Htp. rewrite Htp. simpl.
    destruct (tem_aresta (adj_get (adj_append (adj g) o (mkAresta o d p)) d) o p)
      eqn:E; simpl.
    + now apply tem_aresta_spec.
    + exists (mkAresta d o p). rewrite adj_get_append_eq, in_app_iff.
      simpl. auto.
Qed.

(** X3. After a successful [adicionar_aresta(o, d, p)] the same call is
    rejected and leaves the graph as it is, and in a graph of kind 3 so is
    the call with the endpoints swapped. *)
Theorem adicionar_aresta_repetida (g : Grafo) (o d : Z) (p : option string) :
  fst (Main11.adicionar_aresta g o d p) = true ->
  let g' := snd (Main11.adicionar_aresta g o d p) in
  Main11.adicionar_aresta g' o d p = (false, g')
  /\ (tipo g = 3 -> Main11.adicionar_aresta g' d o p = (false, g')).
Proof.
  intros Hok g'.
  destruct (aresta_em_apos_adicionar g o d p Hok) as [Hf Hm]. fold g' in Hf, Hm.
  assert (H : forall a b, aresta_em g' a b p ->
                          Main11.adicionar_aresta g' a b p = (false, g')).
  { intros a b Hab.
    assert (Hfa : fst (Main11.adicionar_aresta g' a b p) = false)
      by (apply adicionar_aresta_falha; auto).
    pose proof (adicionar_aresta_inalterado g' a b p Hfa) as Hs.
    destruct (Main11.adicionar_aresta g' a b p). simpl in *. congruence. }
  split; auto.
Qed.

Lemma remover_aresta_campos g o d :
  vertices (snd (Main11.remover_aresta g o d)) = vertices g
  /\ tipo (snd (Main11.remover_aresta g o d)) = tipo g.
Proof.
  unfold Main11.remover_aresta. destruct (Dict.get o (adj g)); simpl; auto.
Qed.

Lemma adj_get_remover_aresta_dir g o d x :
  tipo g <> 3 ->
  adj_get (adj (snd (Main11.remover_aresta g o d))) x
  = List.filter (fun e => negb (Z.eqb x o && Z.eqb (destino e) d))
                (adj_get (adj g) x).
Proof.
  intros Htp. apply Z.eqb_neq in Htp. unfold Main11.remover_aresta.
  destruct (Dict.get o (adj g)) as [lo|] eqn:Eo; simpl.
  - assert (Hlo : lo = adj_get (adj g) o) by (unfold adj_get; now rewrite Eo).
    subst lo. rewrite Htp. simpl.
    destruct (Z.eqb_spec x o) as [->|Hx].
    + rewrite adj_get_set_eq. now apply filter_ext.
    + rewrite adj_get_set_ne by auto. symmetry. now apply filter_id_In.
  - symmetry. apply filter_id_In. intros e He.
    destruct (Z.eqb_spec x o) as [->|Hx]; auto.
    unfold adj_get in He. now rewrite Eo in He.
Qed.

Lemma remover_aresta_ret g o d :
  fst (Main11.remover_aresta g o d) = true <-> exists p, aresta_em g o d p.
Proof.
  assert (Hex : forall l : list Aresta,
    (exists x, In x l /\ negb (Z.eqb (destino x) d) = false)
    <-> exists p e, In e l /\ destino e = d /\ peso e = p).
  { intros l. split.
    - intros (x & Hx & Hq). apply negb_false_iff, Z.eqb_eq in Hq.
      exists (peso x), x. auto.
    - intros (p & e & He & Hd & _). exists e. split; auto.
      apply negb_false_iff, Z.eqb_eq. auto. }
  unfold aresta_em, Main11.remover_aresta.
  destruct (Dict.get o (adj g)) as [lo|] eqn:Eo; simpl.
  - assert (Hlo : adj_get (adj g) o = lo) by (unfold adj_get; now rewrite Eo).
    rewrite Hlo, <- Hex, Nat.ltb_lt.
    set (a1 := Dict.set o _ (adj g)).
    destruct (Z.eqb (tipo g) 3 && Dict.mem d a1).
    + destruct (Z.eq_dec d o) as [->|Hne].
      * unfold a1. rewrite !adj_get_set_eq, filter_filter, length_filter_lt.
        split; intros (x & Hx & Hq); exists x; split; auto;
          destruct (negb (Z.eqb (destino x) o)); auto.
      * unfold a1. rewrite adj_get_set_ne, adj_get_set_eq by auto.
        apply length_filter_lt.
    + unfold a1. rewrite adj_get_set_eq. apply length_filter_lt.
  - split; [discriminate|]. intros (p & e & He & _).
    unfold adj_get in He. now rewrite Eo in He.
Qed.

Lemma grafo_ext (g g' : Grafo) :
  tipo g' = tipo g -> vertices g' = vertices g -> adj g' = adj g -> g' = g.
Proof. destruct g, g'. simpl. now intros -> -> ->. Qed.

Lemma espelhado_ou_dirigido tp ops :
  tp = 3 /\ espelhado (construido11 tp ops) \/ tp <> 3.
Proof.
  destruct (Z.eq_dec tp 3) as [->|H]; auto.
  left. split; auto. apply espelhado_construido11.
Qed.

Lemma remover_aresta_ausente tp ops o d :
  let g := construido11 tp ops in
  (forall p, ~ aresta_em g o d p) ->
  snd (Main11.remover_aresta g o d) = g.
Proof.
  intros g Hno.
  pose proof (inv_construido11 tp ops) as Hinv. fold g in Hinv.
  pose proof (tipo_construido11 tp ops) as Htp. fold g in Htp.
  pose proof (inv_remover_aresta g o d Hinv) as (_ & Hk' & _).
  destruct (remover_aresta_campos g o d) as [Hv Ht].
  pose proof Hinv as (Hnd & Hk & _).
  apply grafo_ext; auto.
  apply adj_ext.
  - rewrite Hk', Hv. exact Hnd.
  - now rewrite Hk', Hv, Hk.
  - intros x.
    assert (Hfwd : forall e, In e (adj_get (adj g) x) ->
                             Z.eqb x o && Z.eqb (destino e) d = false).
    { intros e He. apply not_true_iff_false. intros H.
      apply andb_true_iff in H as [H1 H2]. apply Z.eqb_eq in H1, H2. subst x.
      apply (Hno (peso e)). exists e. auto. }
    destruct (espelhado_ou_dirigido tp ops) as [[-> [Hsim _]]|Hdir].
    + rewrite adj_get_remover_aresta3 by auto. apply filter_id_In.
      intros e He. rewrite (Hfwd e He). simpl.
      apply negb_true_iff, not_true_iff_false. intros H.
      apply andb_true_iff in H as [H1 H2]. apply Z.eqb_eq in H1, H2. subst x.
      apply (Hno (peso e)), Hsim. exists e. auto.
    + rewrite adj_get_remover_aresta_dir by (fold g in Htp; congruence).
      apply filter_id_In. intros e He. now rewrite (Hfwd e He).
Qed.

(** X4. For every graph, [remover_aresta(o, d)] returns [True] exactly when
    some edge from [o] to [d] was stored; in a graph built by the
    operations a call that returns [False] leaves the graph as it was. *)
Theorem remover_aresta_retorno (tp : Z) (ops : list Op) (o d : Z) :
  (forall g, fst (Main11.remover_aresta g o d) = true
             <-> exists p, aresta_em g o d p)
  /\ let g := construido11 tp ops in
     (fst (Main11.remover_aresta g o d) = false ->
      Main11.remover_aresta g o d = (false, g)).
Proof.
  split; [intros g; apply remover_aresta_ret|].
  intros g Hf.
  assert (Hno : forall p, ~ aresta_em g o d p).
  { intros p Hp.
    assert (fst (Main11.remover_aresta g o d) = true)
      by (apply remover_aresta_ret; eauto).
    congruence. }
  pose proof (remover_aresta_ausente tp ops o d Hno) as Hs. fold g in Hs.
  destruct (Main11.remover_aresta g o d). simpl in *. congruence.
Qed.

Lemma adj_get_adicionar_aresta_dir g o d p x :
  tipo g <> 3 -> fst (Main11.adicionar_aresta g o d p) = true ->
  adj_get (adj (snd (Main11.adicionar_aresta g o d p))) x
  = adj_get (adj g) x ++ (if Z.eqb x o then [mkAresta o d p] else []).
Proof.
  intros Htp Hok. apply Z.eqb_neq in Htp.
  destruct (adicionar_aresta_sucesso _ _ _ _ Hok) as (Ha & _ & _).
  cbv zeta in Ha. rewrite Ha, Htp. simpl. apply adj_get_append.
Qed.

Lemma filter_app_descarta {A} (q : A -> bool) l l' :
  (forall x, In x l -> q x = true) -> (forall x, In x l' -> q x = false) ->
  List.filter q (l ++ l') = l.
Proof.
  intros H1 H2. rewrite List.filter_app, (filter_id_In q l H1).
  rewrite (filter_ext_in q (fun _ => false) l' H2).
  assert (H : List.filter (fun _ : A => false) l' = [])
    by (apply length_zero_iff_nil, length_filter_false).
  now rewrite H, app_nil_r.
Qed.

(** X5. In a graph built by the operations, if no edge from [o] to [d] is
    stored, adding one (with any weight) and then calling
    [remover_aresta(o, d)] returns [True] and gives back the original graph,
    mirror included. *)
Theorem adicionar_remover_aresta (tp : Z) (ops : list Op) (o d : Z)
    (p : option string) :
  let g := construido11 tp ops in
  fst (Main11.adicionar_aresta g o d p) = true ->
  (forall q, ~ aresta_em g o d q) ->
  Main11.remover_aresta (snd (Main11.adicionar_aresta g o d p)) o d = (true, g).
Proof.
  intros g Hok Hno.
  set (g1 := snd (Main11.adicionar_aresta g o d p)).
  assert (Hg1 : g1 = construido11 tp (ops ++ [AddAresta o d p])).
  { unfold construido11. now rewrite fold_left_app. }
  pose proof (inv_construido11 tp ops) as Hinv. fold g in Hinv.
  pose proof (tipo_construido11 tp ops) as Htp. fold g in Htp.
  pose proof (inv_construido11 tp (ops ++ [AddAresta o d p])) as Hinv1.
  rewrite <- Hg1 in Hinv1.
  destruct (adicionar_aresta_sucesso _ _ _ _ Hok) as (_ & Hv1 & Ht1).
  fold g1 in Hv1, Ht1.
  destruct (remover_aresta_campos g1 o d) as [Hv2 Ht2].
  pose proof (inv_remover_aresta g1 o d Hinv1) as (_ & Hk2 & _).
  pose proof Hinv as (Hnd & Hk & _).
  assert (Hflag : fst (Main11.remover_aresta g1 o d) = true).
  { apply remover_aresta_ret. exists p.
    now apply aresta_em_apos_adicionar. }
  assert (Hfwd : forall x e, In e (adj_get (adj g) x) ->
                             Z.eqb x o && Z.eqb (destino e) d = false).
  { intros x e He. apply not_true_iff_false. intros H.
    apply andb_true_iff in H as [H1 H2]. apply Z.eqb_eq in H1, H2. subst x.
    apply (Hno (peso e)). exists e. auto. }
  assert (Hsnd : snd (Main11.remover_aresta g1 o d) = g).
  { apply grafo_ext; [congruence|congruence|].
    apply adj_ext.
    - rewrite Hk2, Hv2, Hv1. exact Hnd.
    - now rewrite Hk2, Hv2, Hv1, Hk.
    - intros x.
      destruct (espelhado_ou_dirigido tp ops) as [[-> [Hsim Hnodup]]|Hdir].
      + rewrite adj_get_remover_aresta3 by (auto; congruence).
        unfold g1. rewrite adj_get_adicionar_aresta3; auto;
          [|split; auto].
        apply filter_app_descarta.
        * intros e He. rewrite (Hfwd x e He). simpl.
          apply negb_true_iff, not_true_iff_false. intros H.
          apply andb_true_iff in H as [H1 H2]. apply Z.eqb_eq in H1, H2.
          subst x. apply (Hno (peso e)), Hsim. exists e. auto.
        * intros e He. apply in_app_iff in He as [He|He].
          -- destruct (Z.eqb_spec x o) as [->|]; [|easy].
             destruct He as [<-|[]]. simpl. now rewrite Z.eqb_refl.
          -- destruct (Z.eqb_spec x d) as [->|]; [|easy].
             destruct (Z.eqb o d); [easy|]. destruct He as [<-|[]]. simpl.
             now rewrite Z.eqb_refl, orb_true_r.
      + rewrite adj_get_remover_aresta_dir by congruence.
        unfold g1. rewrite adj_get_adicionar_aresta_dir by (auto; congruence).
        apply filter_app_descarta.
        * intros e He. now rewrite (Hfwd x e He).
        * intros e He. destruct (Z.eqb_spec x o) as [->|]; [|easy].
          destruct He as [<-|[]]. simpl. now rewrite Z.eqb_refl. }
  destruct (Main11.remover_aresta g1 o d). simpl in *. congruence.
Qed.

(** ** Invariants of the graphs built by the operations *)

Lemma origem_exec11 g op :
  (forall o e, In e (adj_get (adj g) o) -> origem e = o) ->
  forall o e, In e (adj_get (adj (exec11 g op)) o) -> origem e = o.
Proof.
  intros H o e. destruct op as [v r m|v|a b p|a b]; simpl.
  - rewrite adj_get_adicionar_vertice. auto.
  - destruct (in_dec Z.eq_dec v (Dict.keys (vertices g))) as [Hv|Hv].
    + rewrite adj_get_remover_vertice by auto.
      destruct (Z.eqb o v); [easy|]. rewrite filter_In. intros [He _]. auto.
    + unfold Main11.remover_vertice. apply mem_false_keys in Hv.
      rewrite Hv. simpl. auto.
  - destruct (fst (Main11.adicionar_aresta g a b p)) eqn:Hok.
    + destruct (adicionar_aresta_sucesso _ _ _ _ Hok) as (Ha & _ & _).
      cbv zeta in Ha. rewrite Ha.
      destruct (Z.eqb (tipo g) 3 && _); rewrite ?adj_get_append, !in_app_iff;
        intros He; repeat destruct He as [He|He]; auto;
        repeat match goal with
               | H : In _ (if ?c then _ else _) |- _ =>
                   let E := fresh in
                   destruct c eqn:E; [apply Z.eqb_eq in E|easy];
                   destruct H as [<-|[]]; simpl; auto
               end.
    + rewrite adicionar_aresta_inalterado by auto. auto.
  - intros He. apply H.
    unfold Main11.remover_aresta in He.
    destruct (Dict.get a (adj g)) as [lo|] eqn:Ea; simpl in He; auto.
    assert (Hlo : lo = adj_get (adj g) a) by (unfold adj_get; now rewrite Ea).
    subst lo.
    destruct (Z.eqb (tipo g) 3 && _);
      repeat apply adj_get_set_filter_In in He; auto.
Qed.

Lemma origem_fold_exec11 ops g0 :
  (forall o e, In e (adj_get (adj g0) o) -> origem e = o) ->
  forall o e, In e (adj_get (adj (fold_left exec11 ops g0)) o) -> origem e = o.
Proof.
  revert g0. induction ops as [|op ops IH]; simpl; auto.
  intros g0 H0. apply IH. now apply origem_exec11.
Qed.

(** X6. Every graph built from [Grafo(tp)] by the operations keeps the
    invariants of the data model: vertex ids are unique, the adjacency
    dictionary has the same keys in the same order, every edge ends at a
    vertex, and every edge is stored under its own origin. *)
Theorem construido_invariantes (tp : Z) (ops : list Op) :
  let g := construido11 tp ops in
  bem_formado g = true
  /\ tipo g = tp
  /\ (forall o e, In e (adj_get (adj g) o) ->
        origem e = o /\ In o (Dict.keys (vertices g))
        /\ In (destino e) (Dict.keys (vertices g))).
Proof.
  intros g. split; [apply inv_bem_formado, inv_construido11|].
  split; [apply tipo_construido11|].
  pose proof (inv_construido11 tp ops) as (_ & Hk & Hd). fold g in Hk, Hd.
  intros o e He. split; [|split; eauto].
  - revert o e He. unfold g, construido11.
    apply origem_fold_exec11. intros o e [].
  - rewrite <- Hk. eapply adj_get_In_keys, He.
Qed.

(** X7. In a graph of kind 3 built by the operations the storage is
    mirrored: an edge from [o] to [d] with weight [p] is stored exactly
    when the edge from [d] to [o] with weight [p] is, and no adjacency list
    holds two edges with the same destination and weight. *)
Theorem construido_espelhado (ops : list Op) (o d : Z) (p : option string) :
  let g := construido11 3 ops in
  (aresta_em g o d p <-> aresta_em g d o p)
  /\ (copias g o d p <= 1)%nat.
Proof.
  intros g. pose proof (espelhado_construido11 ops) as [Hs Hn]. fold g in Hs, Hn.
  split; [split; apply Hs|].
  unfold copias. specialize (Hn o).
  induction (adj_get (adj g) o) as [|e l IH]; simpl; [lia|].
  simpl in Hn. apply List.NoDup_cons_iff in Hn as [He Hn].
  specialize (IH Hn).
  destruct (Z.eqb (destino e) d && peso_eqb (peso e) p) eqn:E; auto.
  apply andb_true_iff in E as [E1 E2].
  apply Z.eqb_eq in E1. apply peso_eqb_eq in E2.
  assert (H0 : List.filter
                 (fun e0 => Z.eqb (destino e0) d && peso_eqb (peso e0) p) l = []).
  { destruct (List.filter _ l) as [|x l'] eqn:Ef; auto.
    exfalso. apply He.
    assert (Hx : In x (List.filter
                         (fun e0 => Z.eqb (destino e0) d && peso_eqb (peso e0) p) l))
      by (rewrite Ef; now left).
    apply filter_In in Hx as [Hx Hq]. apply andb_true_iff in Hq as [Q1 Q2].
    apply Z.eqb_eq in Q1. apply peso_eqb_eq in Q2.
    apply in_map_iff. exists x. split; auto. unfold chave. congruence. }
  rewrite H0. simpl. lia.
Qed.

(** ** Degrees of directed graphs and the sum of the degrees *)

Lemma calcular_graus_de g (f : Z -> Z) :
  inv g ->
  (forall v, In v (Dict.keys (vertices g)) ->
     Z.of_nat (count_occ Z.eq_dec
                 (flat_map (incrementos (tipo g)) (arestas_com_origem (adj g))) v)
     = f v) ->
  (forall k, In k (flat_map (incrementos (tipo g)) (arestas_com_origem (adj g)))
             -> In k (Dict.keys (vertices g))) ->
  Main11.calcular_graus g = Ok (map (fun v => (v, f v)) (Dict.keys (vertices g))).
Proof.
  intros (Hnd & Hk & Hd) Hf Hin.
  rewrite calcular_graus_plano, graus_zero_spec by auto.
  set (gr0 := map (fun v => (v, 0)) (Dict.keys (vertices g))).
  assert (Hk0 : Dict.keys gr0 = Dict.keys (vertices g)).
  { unfold gr0, Dict.keys. rewrite map_map. simpl. apply map_id. }
  destruct (foldM_incr
              (flat_map (incrementos (tipo g)) (arestas_com_origem (adj g))) gr0)
    as (gr & Hgr & Hkeys & Hget).
  { intros k Hkin. rewrite Hk0. auto. }
  rewrite Hgr. f_equal. rewrite <- Hk0, <- Hkeys.
  apply dict_eq_of_get; [|now rewrite Hkeys, Hk0].
  intros k Hkin. rewrite Hget.
  assert (H0 : Dict.get k gr0 = Some 0).
  { apply In_get; [now rewrite Hk0|].
    unfold gr0. apply in_map_iff. exists k. split; auto.
    now rewrite <- Hk0, <- Hkeys. }
  rewrite H0. simpl. f_equal. apply Hf. now rewrite <- Hk0, <- Hkeys.
Qed.

Lemma count_incrementos_dir tp (E : list (Z * Aresta)) v :
  tp <> 3 ->
  count_occ Z.eq_dec (flat_map (incrementos tp) E) v
  = length (List.filter (fun oe : Z * Aresta => Z.eqb (fst oe) v) E).
Proof.
  intros Htp. apply Z.eqb_neq in Htp.
  induction E as [|[o e] E IH]; simpl; auto.
  unfold incrementos at 1. rewrite Htp. simpl.
  destruct (Z.eq_dec o v) as [->|Hne].
  - rewrite Z.eqb_refl. simpl. now rewrite IH.
  - assert (Z.eqb o v = false) as -> by now apply Z.eqb_neq.
    exact IH.
Qed.

(** X8. In a graph of a kind other than 3 built by the operations,
    [calcular_graus] returns for every vertex, in insertion order, its
    out-degree: the length of its adjacency list. *)
Theorem calcular_graus_dirigido (tp : Z) (ops : list Op) :
  tp <> 3 ->
  let g := construido11 tp ops in
  Main11.calcular_graus g
  = Ok (map (fun v => (v, Z.of_nat (length (adj_get (adj g) v))))
            (Dict.keys (vertices g))).
Proof.
  intros Htp g.
  pose proof (inv_construido11 tp ops) as Hinv. fold g in Hinv.
  pose proof (tipo_construido11 tp ops) as Ht. fold g in Ht.
  pose proof Hinv as (Hnd & Hk & Hd).
  apply calcular_graus_de; auto.
  - intros v Hv. rewrite Ht, count_incrementos_dir by auto.
    rewrite filter_origem by now rewrite Hk. now rewrite length_map.
  - intros k Hin. apply in_flat_map in Hin as ([o e] & Hoe & Hin).
    apply In_arestas_com_origem in Hoe; [|now rewrite Hk].
    unfold incrementos in Hin. rewrite Ht in Hin.
    apply Z.eqb_neq in Htp. rewrite Htp in Hin.
    destruct Hin as [<-|[]]. simpl. rewrite <- Hk.
    eapply adj_get_In_keys, Hoe.
Qed.

Lemma soma_incr k (gr gr' : Dict.t Z) :
  Main11.incr k gr = Ok gr' ->
  soma (Dict.values gr') = soma (Dict.values gr) + 1.
Proof.
  unfold Main11.incr. destruct (Dict.get k gr) as [n|] eqn:E; [|discriminate].
  intros [= <-]. revert E.
  induction gr as [|[k' v'] gr IH]; simpl; [discriminate|].
  destruct (Z.eqb k k'); simpl.
  - intros [= ->]. lia.
  - intros H. rewrite (IH H). lia.
Qed.

Lemma soma_foldM_incr ks (gr gr' : Dict.t Z) :
  foldM (fun gr k => Main11.incr k gr) ks gr = Ok gr' ->
  soma (Dict.values gr') = soma (Dict.values gr) + Z.of_nat (length ks).
Proof.
  revert gr. induction ks as [|k ks IH]; intros gr; simpl.
  - intros [= ->]. lia.
  - destruct (Main11.incr k gr) as [gr1|] eqn:E; [|discriminate].
    intros H. rewrite (IH _ H), (soma_incr _ _ _ E). lia.
Qed.

Lemma zeros_set k (acc : Dict.t Z) :
  Forall (fun x => x = 0) (Dict.values acc) ->
  Forall (fun x => x = 0) (Dict.values (Dict.set k 0 acc)).
Proof.
  induction acc as [|[k' v'] acc IH]; simpl.
  - intros _. repeat constructor.
  - intros H. inversion H; subst.
    destruct (Z.eqb k k'); simpl; constructor; auto.
Qed.

Lemma soma_graus_zero (vs : Dict.t Vertice) :
  soma (Dict.values (Main11.graus_zero vs)) = 0.
Proof.
  unfold Main11.graus_zero.
  assert (H : forall ks (acc : Dict.t Z),
    Forall (fun x => x = 0) (Dict.values acc) ->
    Forall (fun x => x = 0)
           (Dict.values (fold_left (fun gr v => Dict.set v 0 gr) ks acc))).
  { induction ks as [|k ks IH]; simpl; auto.
    intros acc Hacc. apply IH, zeros_set, Hacc. }
  specialize (H (Dict.keys vs) [] ltac:(constructor)).
  induction H as [|x l -> _ IH]; simpl; auto.
Qed.

Lemma length_incrementos3 (E : list (Z * Aresta)) :
  length (flat_map (incrementos 3) E)
  = (2 * length (List.filter (fun oe => Z.ltb (fst oe) (destino (snd oe))) E))%nat.
Proof.
  induction E as [|[o e] E IH]; simpl; auto.
  rewrite length_app, IH. unfold incrementos. simpl.
  destruct (Z.ltb o (destino e)); simpl; lia.
Qed.

(** X9. In a graph of kind 3, whenever [calcular_graus] returns, the degrees
    it returns add up to twice the number of stored edges whose origin is
    smaller than their destination; in particular their sum is even. *)
Theorem soma_dos_graus (g : Grafo) (graus : Dict.t Z) :
  tipo g = 3 -> Main11.calcular_graus g = Ok graus ->
  soma (Dict.values graus) = 2 * Z.of_nat (length (arestas_contadas g))
  /\ Z.even (soma (Dict.values graus)) = true.
Proof.
  intros Htp H. rewrite calcular_graus_plano, Htp in H.
  apply soma_foldM_incr in H.
  rewrite soma_graus_zero, length_incrementos3 in H.
  fold (arestas_contadas g) in H.
  assert (Hs : soma (Dict.values graus)
               = 2 * Z.of_nat (length (arestas_contadas g))) by lia.
  split; auto. rewrite Hs, Z.even_mul. reflexivity.
Qed.

(** ** Connectivity *)

Lemma conexo_laco_busca fuel a pilha vis :
  Main11.conexo_laco fuel a pilha vis
  = busca_pilha (fun u => map destino (adj_get a u)) fuel pilha vis.
Proof.
  revert pilha vis. induction fuel as [|f IH]; intros pilha vis; simpl; auto.
  destruct pilha as [|u resto]; auto.
  destruct (decide (u ∈ vis)); auto.
Qed.

Section BuscaPilha.
Variable suc : Z -> list Z.

Lemma busca_pilha_correta fuel :
  forall pilha (vis vis' : gset Z),
    busca_pilha suc fuel pilha vis = Ok vis' ->
    (forall x y, x ∈ vis -> In y (suc x) -> y ∈ vis \/ In y pilha) ->
    vis ⊆ vis'
    /\ (forall p, In p pilha -> p ∈ vis')
    /\ (forall x y, x ∈ vis' -> In y (suc x) -> y ∈ vis')
    /\ (forall z, z ∈ vis' ->
          z ∈ vis \/ exists p, In p pilha /\ rtc (fun x y => In y (suc x)) p z).
Proof.
  induction fuel as [|f IH]; intros pilha vis vis' H Hfecho; [discriminate|].
  simpl in H. destruct pilha as [|u resto].
  - injection H as <-. split; [set_solver|]. split; [intros p []|].
    split; [|auto]. intros x y Hx Hy.
    destruct (Hfecho x y Hx Hy) as [?|[]]; auto.
  - destruct (decide (u ∈ vis)) as [Hu|Hu].
    + apply IH in H as (H1 & H2 & H3 & H4).
      * split; [auto|]. split; [intros p [<-|Hp]; auto|]. split; [auto|].
        intros z Hz. destruct (H4 z Hz) as [?|(p & Hp & Hr)]; auto.
        right. exists p. split; [now right|auto].
      * intros x y Hx Hy. destruct (Hfecho x y Hx Hy) as [?|[<-|?]]; auto.
    + apply IH in H as (H1 & H2 & H3 & H4).
      * split; [set_solver|]. split.
        { intros p [<-|Hp]; [set_solver|]. apply H2, in_app_iff. auto. }
        split; auto.
        intros z Hz. destruct (H4 z Hz) as [Hz'|(p & Hp & Hr)].
        -- apply elem_of_union in Hz' as [Hz'|Hz']; auto.
           apply elem_of_singleton in Hz'. subst z.
           right. exists u. split; [now left|constructor].
        -- right. apply in_app_iff in Hp as [Hp|Hp].
           ++ exists u. split; [now left|]. apply in_rev, filter_In in Hp as [Hp _].
              eapply rtc_l; eauto.
           ++ exists p. split; [now right|auto].
      * intros x y Hx Hy. apply elem_of_union in Hx as [Hx|Hx].
        -- apply elem_of_singleton in Hx. subst x.
           destruct (decide (y ∈ {[u]} ∪ vis)) as [Hy'|Hy']; auto.
           right. apply in_app_iff. left. apply -> in_rev.
           apply filter_In. split; auto.
           apply negb_true_iff, bool_decide_eq_false. auto.
        -- destruct (Hfecho x y Hx Hy) as [?|[<-|?]].
           ++ left. set_solver.
           ++ left. set_solver.
           ++ right. apply in_app_iff. auto.
Qed.

(** Started from one vertex, the search visits exactly what can be reached
    from it. *)
Lemma busca_pilha_alcance fuel inicio (vis' : gset Z) :
  busca_pilha suc fuel [inicio] ∅ = Ok vis' ->
  forall z, z ∈ vis' <-> rtc (fun x y => In y (suc x)) inicio z.
Proof.
  intros H. apply busca_pilha_correta in H as (_ & H2 & H3 & H4);
    [|set_solver].
  intros z. split.
  - intros Hz. destruct (H4 z Hz) as [?|(p & [<-|[]] & Hr)]; [set_solver|auto].
  - revert z. apply rtc_ind_r.
    + apply H2. now left.
    + intros y z _ Hyz Hy. eapply H3; eauto.
Qed.
End BuscaPilha.

Lemma In_destinos a x y :
  In y (map destino (adj_get a x)) <-> aresta_entre a x y.
Proof.
  unfold aresta_entre. rewrite in_map_iff.
  split; intros (e & H1 & H2); exists e; auto.
Qed.

Lemma alcanca_destinos a x y :
  rtc (fun x y => In y (map destino (adj_get a x))) x y <-> alcanca a x y.
Proof.
  split; apply rtc_subrel; intros u v; apply In_destinos.
Qed.

Lemma alcanca_vertice g u v :
  inv g -> In u (Dict.keys (vertices g)) -> alcanca (adj g) u v ->
  In v (Dict.keys (vertices g)).
Proof.
  intros (_ & _ & Hd) Hu Hr. induction Hr as [|x y z (e & He & <-) _ IH]; auto.
  apply IH. eauto.
Qed.

Lemma size_chaves_NoDup (ks : list Z) :
  List.NoDup ks -> size (list_to_set ks : gset Z) = length ks.
Proof. intros H. apply size_list_to_set. now apply NoDup_ListNoDup. Qed.

Lemma tamanho_visitados g (vis : gset Z) :
  inv g -> (forall z, z ∈ vis -> In z (Dict.keys (vertices g))) ->
  Nat.eqb (size vis) (length (vertices g)) = true
  <-> forall v, In v (Dict.keys (vertices g)) -> v ∈ vis.
Proof.
  intros (Hnd & _ & _) Hsub.
  set (U := list_to_set (Dict.keys (vertices g)) : gset Z).
  assert (HU : forall x, x ∈ U <-> In x (Dict.keys (vertices g))).
  { intros x. unfold U. rewrite elem_of_list_to_set. apply list_elem_of_In. }
  assert (Hsz : size U = length (vertices g)).
  { unfold U. rewrite size_chaves_NoDup by auto.
    unfold Dict.keys. apply length_map. }
  assert (Hs : vis ⊆ U) by (intros x Hx; apply HU; auto).
  rewrite Nat.eqb_eq, <- Hsz. split.
  - intros Heq v Hv.
    assert (vis = U) as -> by (apply set_subseteq_size_eq; auto; lia).
    now apply HU.
  - intros Hall. assert (vis = U) as ->; auto.
    apply set_eq. intros x. split; [apply Hs|]. intros Hx. apply Hall, HU, Hx.
Qed.

Lemma conexo_inv_correto (g : Grafo) :
  inv g ->
  exists b,
    Main11.conexo_nao_direcionado g = Ok b
    /\ (b = true
        <-> match Dict.keys (vertices g) with
            | [] => True
            | inicio :: _ =>
                forall v, In v (Dict.keys (vertices g)) ->
                          alcanca (adj g) inicio v
            end).
Proof.
  intros Hwf. pose proof Hwf as (Hnd & Hk & Hd).
  unfold Main11.conexo_nao_direcionado.
  destruct (Dict.keys (vertices g)) as [|inicio ks] eqn:Eks.
  { exists true. tauto. }
  destruct (conexo_laco_total (adj g) ltac:(rewrite Hk; exact Hnd)
              (Main11.conexo_fuel g) [inicio] ∅) as [vis Hvis].
  { rewrite peso_restante_vazio. unfold Main11.conexo_fuel, lista_arestas.
    simpl. lia. }
  rewrite Hvis. simpl. eexists. split; [reflexivity|].
  rewrite conexo_laco_busca in Hvis.
  pose proof (busca_pilha_alcance _ _ _ _ Hvis) as Hal.
  assert (Hi : In inicio (Dict.keys (vertices g))) by (rewrite Eks; now left).
  rewrite tamanho_visitados; auto.
  - rewrite Eks. split; intros H v Hv.
    + apply alcanca_destinos, Hal, H, Hv.
    + apply Hal, alcanca_destinos, H, Hv.
  - intros z Hz. apply Hal, alcanca_destinos in Hz.
    eapply alcanca_vertice; eauto.
Qed.

(** X10. On a well-formed graph [conexo_nao_direcionado] returns a result,
    and it returns [True] exactly when every vertex can be reached along
    stored edges from the first vertex inserted (always, when there is no
    vertex). *)
Theorem conexo_nao_direcionado_correto (g : Grafo) :
  bem_formado g = true ->
  exists b,
    Main11.conexo_nao_direcionado g = Ok b
    /\ (b = true
        <-> match Dict.keys (vertices g) with
            | [] => True
            | inicio :: _ =>
                forall v, In v (Dict.keys (vertices g)) ->
                          alcanca (adj g) inicio v
            end).
Proof.
  intros Hwf. apply conexo_inv_correto.
  now apply inv_bem_formado.
Qed.

Lemma aresta_entre_em g x y :
  aresta_entre (adj g) x y <-> exists p, aresta_em g x y p.
Proof.
  unfold aresta_entre, aresta_em. split.
  - intros (e & He & Hd). exists (peso e), e. auto.
  - intros (p & e & He & Hd & _). exists e. auto.
Qed.

Lemma alcanca_sim g u v :
  espelhado g -> alcanca (adj g) u v -> alcanca (adj g) v u.
Proof.
  intros [Hs _] H. induction H as [|x y z Hxy _ IH]; [constructor|].
  eapply rtc_r; [exact IH|].
  apply aresta_entre_em in Hxy as [p Hp]. apply aresta_entre_em.
  exists p. now apply Hs.
Qed.

Lemma conexo_vale_inicio g inicio ks :
  espelhado g -> Dict.keys (vertices g) = inicio :: ks ->
  conexo_vale g
  <-> forall v, In v (Dict.keys (vertices g)) -> alcanca (adj g) inicio v.
Proof.
  intros Hesp Hks. unfold conexo_vale. split.
  - intros H v Hv. apply H; auto. rewrite Hks. now left.
  - intros H u v Hu Hv. eapply rtc_trans; [|apply H, Hv].
    apply alcanca_sim; auto.
Qed.

Lemma impares_de (f : Z -> Z) (ks : list Z) :
  map fst (List.filter (fun vg : Z * Z => Z.eqb (snd vg mod 2) 1)
                       (map (fun v => (v, f v)) ks))
  = List.filter (fun v => Z.odd (f v)) ks.
Proof.
  induction ks as [|k ks IH]; simpl; auto.
  rewrite Zmod_odd. destruct (Z.odd (f k)); simpl; now rewrite IH.
Qed.

(** X11. On an undirected graph built by the operations the Eulerian check
    returns a result: [False] with the line "not connected" when some
    vertex cannot be reached from another; otherwise [False] with the
    number and the list (in insertion order) of the vertices of odd degree
    when there are any; otherwise [True].  The empty graph gets [True]. *)
Theorem euleriano_decisao (ops : list Op) :
  let g := construido11 3 ops in
  let impares :=
    List.filter (fun v => Z.odd (grau g v)) (Dict.keys (vertices g)) in
  exists c,
    (c = true <-> conexo_vale g)
    /\ Main11.tem_ciclo_euleriano g
       = Ok (if c then
               match impares with
               | [] => (true, [Main11.EulerSim])
               | _ :: _ =>
                   (false, [Main11.EulerGrauImpar (length impares) impares])
               end
             else (false, [Main11.EulerNaoConexo])).
Proof.
  intros g impares.
  pose proof (inv_construido11 3 ops) as Hinv. fold g in Hinv.
  pose proof (espelhado_construido11 ops) as Hesp. fold g in Hesp.
  pose proof (tipo_construido11 3 ops) as Htp. fold g in Htp.
  pose proof (calcular_graus_construido3 ops) as Hgr. cbv zeta in Hgr.
  fold g in Hgr.
  destruct (conexo_inv_correto g Hinv) as (c & Hc & Hiff).
  exists c. split.
  - rewrite Hiff. destruct (Dict.keys (vertices g)) as [|i ks] eqn:Eks.
    + split; auto. intros _ u v Hu. rewrite Eks in Hu. destruct Hu.
    + rewrite <- Eks. symmetry. eapply conexo_vale_inicio; eauto.
  - unfold Main11.tem_ciclo_euleriano. rewrite Htp, Hc. simpl.
    destruct c; simpl; auto.
    rewrite Hgr. simpl. rewrite impares_de. fold impares.
    destruct impares; auto.
Qed.

(** ** The Hamiltonian check: the two sufficient conditions *)

Lemma ore_busca_Some_dif a graus n ks u v :
  List.NoDup ks -> Main11.ore_busca a graus n ks = Some (u, v) -> u <> v.
Proof.
  induction ks as [|k ks IH]; simpl; [discriminate|].
  intros Hnd. apply List.NoDup_cons_iff in Hnd as [Hk Hnd].
  destruct (find (Main11.ore_viola a graus n k) ks) eqn:Ef.
  - intros [= -> ->]. apply find_some in Ef as [Hin _]. congruence.
  - auto.
Qed.

Lemma dirac_construido g n :
  Main11.dirac (map (fun v => (v, grau g v)) (Dict.keys (vertices g))) n = true
  <-> forall v, In v (Dict.keys (vertices g)) -> n / 2 <= grau g v.
Proof.
  unfold Main11.dirac, Dict.values. rewrite map_map, forallb_forall. simpl.
  split.
  - intros H v Hv. apply Z.leb_le, H, in_map_iff. eauto.
  - intros H x Hx. apply in_map_iff in Hx as (v & <- & Hv).
    apply Z.leb_le. auto.
Qed.

Lemma ore_construido ops :
  let g := construido11 3 ops in
  let graus := map (fun v => (v, grau g v)) (Dict.keys (vertices g)) in
  Main11.ore_busca (adj g) graus (Z.of_nat (length (vertices g)))
                   (Dict.keys graus) = None
  <-> ore_vale g.
Proof.
  intros g graus.
  pose proof (inv_construido11 3 ops) as (Hnd & Hk & Hd). fold g in Hnd, Hk, Hd.
  pose proof (espelhado_construido11 ops) as [Hsim _]. fold g in Hsim.
  assert (Hkeys : Dict.keys graus = Dict.keys (vertices g)).
  { unfold graus, Dict.keys. rewrite map_map. simpl. apply map_id. }
  split.
  - intros Eore u v Hu Hv Hne Hnadj.
    assert (Hnadj' : forall p, ~ aresta_em g v u p).
    { intros p H. apply (Hnadj p), Hsim, H. }
    rewrite <- Hkeys in Hu, Hv.
    destruct (ore_busca_None _ _ _ _ Eore u v Hu Hv Hne) as [H|H];
      unfold Main11.ore_viola in H;
      rewrite nao_adjacente_existsb in H by auto; simpl in H;
      apply Z.ltb_ge in H; rewrite Hkeys in Hu, Hv;
      unfold graus in H; rewrite !grau_de_construido in H by auto; lia.
  - intros Hore.
    destruct (Main11.ore_busca (adj g) graus _ (Dict.keys graus))
      as [[u v]|] eqn:Eore; auto.
    exfalso.
    assert (Hnd' : List.NoDup (Dict.keys graus)) by now rewrite Hkeys.
    pose proof (ore_busca_Some_dif _ _ _ _ _ _ Hnd' Eore) as Hne.
    apply ore_busca_Some in Eore as (Hu & Hv & Hviola).
    rewrite Hkeys in Hu, Hv.
    apply andb_true_iff in Hviola as [Hadj Hsum].
    apply negb_true_iff in Hadj. apply Z.ltb_lt in Hsum.
    unfold graus in Hsum. rewrite !grau_de_construido in Hsum by auto.
    assert (Hle := Hore u v Hu Hv Hne). cbv zeta in Hle.
    assert (Hn : forall p, ~ aresta_em g u v p).
    { intros p (e & He & Hde & _).
      assert (existsb (fun e => Z.eqb (destino e) v) (adj_get (adj g) u) = true);
        [|congruence].
      apply existsb_exists. exists e. split; auto. now apply Z.eqb_eq. }
    specialize (Hle Hn). lia.
Qed.

(** X12. On an undirected graph built by the operations with at least 3
    vertices the Hamiltonian check returns [True] exactly when Dirac's
    condition (every degree at least [n // 2]) or Ore's condition holds; it
    prints the Dirac line when Dirac's condition holds and the Ore line when
    only Ore's does. *)
Theorem hamiltoniano_decisao (ops : list Op) :
  let g := construido11 3 ops in
  let n := Z.of_nat (length (vertices g)) in
  3 <= n ->
  exists b msgs,
    Main11.tem_ciclo_hamiltoniano g = Ok (b, msgs)
    /\ (b = true <-> dirac_vale g \/ ore_vale g)
    /\ (dirac_vale g -> msgs = [Main11.HamSimDirac (n / 2)])
    /\ (~ dirac_vale g -> ore_vale g -> msgs = [Main11.HamSimOre]).
Proof.
  intros g n Hn.
  pose proof (tipo_construido11 3 ops) as Htp. fold g in Htp.
  pose proof (calcular_graus_construido3 ops) as Hgr. cbv zeta in Hgr.
  fold g in Hgr.
  pose proof (ore_construido ops) as Hore. cbv zeta in Hore. fold g n in Hore.
  assert (Hdir : Main11.dirac
                   (map (fun v => (v, grau g v)) (Dict.keys (vertices g))) n
                 = true <-> dirac_vale g) by apply dirac_construido.
  unfold Main11.tem_ciclo_hamiltoniano. fold n.
  assert (Z.ltb n 3 = false) as -> by (apply Z.ltb_ge; lia).
  rewrite Htp, Hgr. simpl.
  destruct (Main11.dirac _ n) eqn:Edir.
  - assert (Hd : dirac_vale g) by (apply Hdir; reflexivity).
    exists true, [Main11.HamSimDirac (n / 2)].
    split; auto. split; [tauto|]. split; [auto|tauto].
  - assert (Hd : ~ dirac_vale g) by (intros H; apply Hdir in H; discriminate).
    destruct (Main11.ore_busca _ _ n _) as [[u v]|] eqn:Eore.
    + assert (Ho : ~ ore_vale g) by (intros H; apply Hore in H; discriminate).
      eexists false, _. split; [reflexivity|].
      split; [split; [discriminate|tauto]|]. split; tauto.
    + assert (Ho : ore_vale g) by (apply Hore; reflexivity).
      exists true, [Main11.HamSimOre].
      split; auto. split; [tauto|]. split; [tauto|auto].
Qed.

(** ** Kosaraju's algorithm computes the strongly connected components *)

(** Reachability is decidable: the stack search computes it. *)
Lemma alcanca_conjunto (a : Dict.t (list Aresta)) y :
  List.NoDup (Dict.keys a) ->
  exists Ry : gset Z, forall z, z ∈ Ry <-> alcanca a y z.
Proof.
  intros Hnd.
  destruct (conexo_laco_total a Hnd (S (S (length (concat (Dict.values a)))))
                              [y] ∅) as [Ry HRy].
  { rewrite peso_restante_vazio. simpl. lia. }
  exists Ry. intros z. rewrite conexo_laco_busca in HRy.
  rewrite (busca_pilha_alcance _ _ _ _ HRy). apply alcanca_destinos.
Qed.

Lemma fortemente_refl a x : fortemente a x x.
Proof. split; constructor. Qed.

Lemma fortemente_sim a x y : fortemente a x y -> fortemente a y x.
Proof. intros [H1 H2]. now split. Qed.

Lemma fortemente_trans a x y z :
  fortemente a x y -> fortemente a y z -> fortemente a x z.
Proof. intros [H1 H2] [H3 H4]. split; eapply rtc_trans; eauto. Qed.

Lemma antes_ou_igual_app L X z m :
  antes_ou_igual L z m -> antes_ou_igual (L ++ X) z m.
Proof.
  intros (L1 & L2 & -> & Hz). exists L1, (L2 ++ X). split; auto.
  now rewrite <- app_assoc.
Qed.

Lemma antes_ou_igual_In L z m : antes_ou_igual L z m -> In z L.
Proof.
  intros (L1 & L2 & -> & Hz). apply in_app_iff in Hz as [Hz|[<-|[]]];
    apply in_app_iff; simpl; auto.
Qed.

Lemma antes_ou_igual_ultimo L u z : In z (L ++ [u]) -> antes_ou_igual (L ++ [u]) z u.
Proof. intros Hz. exists L, []. auto. Qed.

Lemma estado1_inicial a : estado1 a ∅ [].
Proof. repeat split; intros; simpl in *; tauto. Qed.

Section Passo1.
(** The loop of the first pass over a list of candidate vertices, for a
    search [busca] that is correct. *)
Variable a : Dict.t (list Aresta).
Variable busca : Z -> gset Z * list Z -> result (gset Z * list Z).
Hypothesis busca_ok : busca1_correta a busca.

Lemma laco_estado ws :
  forall vis L vis' L',
    foldM (laco busca) ws (vis, L) = Ok (vis', L') ->
    estado1 a vis L ->
    (forall g w, g ∈ vis -> ~ In g L -> In w ws -> alcanca a g w) ->
    estado1 a vis' L'
    /\ (exists N, L' = L ++ N /\ vis' = vis ∪ list_to_set N
                  /\ forall x, In x N -> x ∉ vis)
    /\ (forall w, In w ws -> w ∈ vis').
Proof.
  induction ws as [|w ws IH]; intros vis L vis' L' E He Hg.
  - simpl in E. injection E as <- <-. split; auto. split; [|easy].
    exists []. rewrite app_nil_r. split; auto. split; [set_solver|easy].
  - simpl in E. unfold laco at 1 in E. simpl in E.
    destruct (decide (w ∈ vis)) as [Hw|Hw].
    + destruct (IH _ _ _ _ E He) as (He' & (N & -> & -> & HN) & Hws).
      { intros g x H1 H2 H3. apply Hg; auto. now right. }
      split; auto. split; [now exists N|].
      intros x [<-|Hx]; auto. set_solver.
    + destruct (busca w (vis, L)) as [[vis1 L1]|] eqn:E1; [|discriminate].
      destruct (busca_ok _ _ _ _ _ E1 Hw He)
        as (He1 & N1 & -> & -> & HN1 & Hw1).
      { intros g H1 H2. apply Hg; auto. now left. }
      destruct (IH _ _ _ _ E He1) as (He' & (N2 & -> & -> & HN2) & Hws).
      { intros g x H1 H2 H3. apply Hg;
          [|intros HL; apply H2; apply in_app_iff; auto|now right].
        apply elem_of_union in H1 as [H1|H1]; auto.
        exfalso. apply H2. apply in_app_iff. right.
        apply list_elem_of_In. set_solver. }
      split; auto. split.
      * exists (N1 ++ N2). rewrite app_assoc. split; auto.
        split; [set_solver|].
        intros x Hx. apply in_app_iff in Hx as [Hx|Hx]; auto.
        apply HN2 in Hx. set_solver.
      * intros x [<-|Hx]; auto.
        apply list_elem_of_In in Hw1. set_solver.
Qed.
End Passo1.

(** The recursive search of the first pass keeps the state of the pass. *)
Lemma dfs1_estado a :
  List.NoDup (Dict.keys a) ->
  forall fuel, busca1_correta a (Part000.dfs1 fuel a).
Proof.
  intros Hnd. induction fuel as [|f IH]; intros u vis L vis' L' E Hu He Hg.
  { discriminate. }
  rewrite dfs1_S in E. cbn [fst snd] in E.
  destruct (foldM _ _ _) as [[visn Ln]|] eqn:El; [|discriminate].
  cbn in E. injection E as <- <-.
  assert (HuL : ~ In u L).
  { intros H. apply Hu. now apply He. }
  destruct (laco_estado a _ IH _ _ _ _ _ El)
    as (Hen & (N & -> & -> & HN) & Hws).
  { destruct He as (H1 & H2 & H3). split; [|split].
    - intros x Hx. apply H1 in Hx. set_solver.
    - intros x z Hx Hxz. specialize (H2 x z Hx Hxz). set_solver.
    - intros y Hy. destruct (H3 y Hy) as [(g & G1 & G2 & G3)|H]; auto.
      left. exists g. split; auto. set_solver. }
  { intros g w G1 G2 Hw.
    assert (Huw : aresta_entre a u w) by now apply In_destinos.
    apply elem_of_union in G1 as [G1|G1].
    - apply elem_of_singleton in G1 as ->. now apply rtc_once.
    - eapply rtc_r; [apply Hg; eauto|auto]. }
  assert (HuN : ~ In u (L ++ N)).
  { intros H. apply in_app_iff in H as [H|H]; auto.
    apply HN in H. set_solver. }
  set (visn := {[u]} ∪ vis ∪ list_to_set N) in *.
  assert (Hfecho : forall x z, In x ((L ++ N) ++ [u]) -> aresta_entre a x z ->
                               z ∈ visn).
  { intros x z Hx Hxz. apply in_app_iff in Hx as [Hx|[<-|[]]].
    - destruct Hen as (_ & H2 & _). eauto.
    - apply Hws. now apply In_destinos. }
  split.
  - split; [|split]; auto.
    { intros x Hx. apply in_app_iff in Hx as [Hx|[<-|[]]].
      - destruct Hen as (H1 & _). auto.
      - unfold visn. set_solver. }
    intros y Hy.
    destruct (alcanca_conjunto a y Hnd) as [Ry HRy].
    destruct (decide (set_Exists
                (fun g => (g ∉ (L ++ N) ++ [u]) /\ g ∈ Ry) visn))
      as [(g & G1 & G2 & G3)|Hno].
    + (* a running search is reached from [y] *)
      rewrite list_elem_of_In in G2. apply HRy in G3.
      assert (G4 : ~ In g (L ++ N) /\ g <> u).
      { split; intros H; apply G2; apply in_app_iff; simpl; auto. }
      destruct G4 as [G4 G5].
      assert (Hgu : alcanca a g u).
      { apply Hg.
        - unfold visn in G1. apply elem_of_union in G1 as [G1|G1];
            [set_solver|].
          exfalso. apply G4. apply in_app_iff. right.
          apply list_elem_of_In. set_solver.
        - intros H. apply G4. apply in_app_iff. auto. }
      apply in_app_iff in Hy as [Hy|[<-|[]]].
      * destruct Hen as (_ & _ & H3).
        destruct (H3 y Hy) as [(g0 & K1 & K2 & K3)|(m & K1 & K2)].
        -- left. destruct (decide (g0 = u)) as [->|Hne].
           ++ exists g. repeat split; auto.
              eapply rtc_trans; [exact Hgu|apply K3].
           ++ exists g0. repeat split; try apply K3; auto.
              intros H. apply in_app_iff in H as [H|[H|[]]]; auto.
        -- exfalso. apply G4. eapply antes_ou_igual_In, K2, G3.
      * left. exists g. repeat split; auto.
    + (* everything reached from [y] is finished *)
      assert (Hfin : forall z, alcanca a y z -> In z ((L ++ N) ++ [u])).
      { intros z Hz. revert z Hz. apply rtc_ind_r; auto.
        intros x z Hyx Hxz Hx.
        destruct (in_dec Z.eq_dec z ((L ++ N) ++ [u])) as [|Hz]; auto.
        exfalso. apply Hno. exists z. split; [eapply Hfecho; eauto|].
        split; [now rewrite list_elem_of_In|].
        apply HRy. eapply rtc_r; eauto. }
      right. apply in_app_iff in Hy as [Hy|[<-|[]]].
      * destruct Hen as (_ & _ & H3).
        destruct (H3 y Hy) as [(g0 & K1 & K2 & K3)|(m & K1 & K2)].
        -- exists u. assert (g0 = u) as ->.
           { destruct K3 as [K3 _]. apply Hfin in K3.
             apply in_app_iff in K3 as [K3|[K3|[]]]; [tauto|auto]. }
           split; auto. intros z Hz. apply antes_ou_igual_ultimo; auto.
        -- exists m. split; auto. intros z Hz.
           apply antes_ou_igual_app; auto.
      * exists u. split; [apply fortemente_refl|].
        intros z Hz. apply antes_ou_igual_ultimo; auto.
  - exists (N ++ [u]). rewrite app_assoc. split; auto. split.
    { unfold visn. rewrite list_to_set_app_L. set_solver. }
    split.
    + intros x Hx. apply in_app_iff in Hx as [Hx|[<-|[]]]; auto.
      apply HN in Hx. set_solver.
    + apply in_app_iff. simpl. auto.
Qed.

(** After the first pass every vertex has a representative of its component
    that finished after everything the vertex reaches. *)
Lemma passo1_final a ks fuel vis1 ordem :
  List.NoDup (Dict.keys a) ->
  foldM (laco (Part000.dfs1 fuel a)) ks (∅, []) = Ok (vis1, ordem) ->
  (forall w, In w ks -> In w ordem)
  /\ forall y, In y ordem ->
       exists m, fortemente a y m
                 /\ forall z, alcanca a y z -> antes_ou_igual ordem z m.
Proof.
  intros Hnd E.
  destruct (laco_estado a _ (dfs1_estado a Hnd fuel) _ _ _ _ _ E
                        (estado1_inicial a))
    as ((_ & _ & H3) & (N & HN & -> & _) & Hws).
  { intros g w Hg. set_solver. }
  simpl in HN. subst N.
  assert (Hvis : forall x, x ∈ (∅ ∪ list_to_set ordem : gset Z) -> In x ordem).
  { intros x Hx. apply list_elem_of_In. set_solver. }
  split.
  - intros w Hw. auto.
  - intros y Hy. destruct (H3 y Hy) as [(g & G1 & G2 & _)|H]; auto.
    exfalso. auto.
Qed.

(** The transposed adjacency lists under [u] exactly the origins of the
    stored edges that end at [u]. *)
Lemma transposto_de_exato g :
  inv g ->
  exists t, Part000.transposto_de g = Ok t
            /\ forall u w, In w (Part000.transposto_get t u)
                           <-> aresta_entre (adj g) w u.
Proof.
  intros (Hnd & Hk & Hd). unfold Part000.transposto_de.
  set (V := Dict.keys (vertices g)) in *.
  set (t0 := fold_left (fun t v => <[v := []]> t) V ∅).
  rewrite (foldM_plano (fun o t e =>
                          Part000.transposto_append (destino e) o t)).
  assert (Hgen : forall E (t : gmap Z (list Z)),
            (forall oe, In oe E -> is_Some (t !! destino (snd oe))) ->
            exists t',
              foldM (fun t oe =>
                       Part000.transposto_append (destino (snd oe)) (fst oe) t)
                    E t = Ok t'
              /\ forall u w, In w (Part000.transposto_get t' u)
                   <-> In w (Part000.transposto_get t u)
                       \/ exists e, In (w, e) E /\ destino e = u).
  { induction E as [|[o e] E IH]; intros t Ht; simpl.
    - exists t. split; auto. intros u w. split; auto.
      intros [H|(e & [] & _)]; auto.
    - unfold Part000.transposto_append at 1.
      destruct (Ht (o, e) (or_introl eq_refl)) as [l Hl]. simpl in Hl.
      rewrite Hl.
      destruct (IH (<[destino e := l ++ [o]]> t)) as (t' & Et' & Ht').
      { intros oe Hoe. destruct (decide (destino e = destino (snd oe))) as [Heq|Hne].
        - rewrite Heq, lookup_insert_eq. eauto.
        - rewrite lookup_insert_ne by auto. apply Ht. now right. }
      exists t'. split; auto. intros u w. rewrite Ht'.
      unfold Part000.transposto_get at 1.
      destruct (decide (destino e = u)) as [Heq|Hne].
      + rewrite Heq, lookup_insert_eq, in_app_iff. simpl.
        unfold Part000.transposto_get. rewrite <- Heq, Hl. split.
        * intros [[H|[<-|[]]]|(e' & H1 & H2)]; auto.
          -- right. exists e. auto.
          -- right. exists e'. auto.
        * intros [H|(e' & [H1|H1] & H2)]; auto.
          -- injection H1 as -> ->. auto.
          -- right. exists e'. auto.
      + rewrite lookup_insert_ne by auto.
        fold (Part000.transposto_get t u). split.
        * intros [H|(e' & H1 & H2)]; eauto.
        * intros [H|(e' & [H1|H1] & H2)]; eauto.
          injection H1 as -> ->. contradiction. }
  destruct (Hgen (arestas_com_origem (adj g)) t0) as (t & Et & Ht).
  { intros [o e] Hoe. simpl. apply In_arestas_com_origem in Hoe; auto.
    2:{ now rewrite Hk. }
    unfold t0. rewrite transposto_zero_lookup.
    apply Hd in Hoe. apply list_elem_of_In in Hoe.
    destruct (decide (destino e ∈ V)); [eauto|tauto]. }
  exists t. split; auto. intros u w. rewrite Ht.
  assert (H0 : Part000.transposto_get t0 u = []).
  { unfold Part000.transposto_get, t0. rewrite transposto_zero_lookup.
    destruct (decide (u ∈ V)); auto; now rewrite lookup_empty. }
  rewrite H0. unfold aresta_entre. split.
  - intros [[]|(e & H1 & H2)]. exists e. split; auto.
    apply In_arestas_com_origem in H1; auto. now rewrite Hk.
  - intros (e & H1 & H2). right. exists e. split; auto.
    apply In_arestas_com_origem; auto. now rewrite Hk.
Qed.

Section Passo2.
(** The loop of the second pass over the transposed successors, for a
    search [busca] that is correct. *)
Variable t : gmap Z (list Z).
Variable busca : Z -> gset Z * list Z -> result (gset Z * list Z).
Hypothesis busca_ok : busca2_correta t busca.

Lemma laco_transposto ws :
  forall vis l vis' l',
    foldM (laco busca) ws (vis, l) = Ok (vis', l') ->
    exists N, l' = l ++ N /\ vis' = vis ∪ list_to_set N
              /\ (forall x, In x N -> x ∉ vis)
              /\ (forall x, In x N ->
                    exists w, In w ws
                      /\ rtc (fun x y => In y (Part000.transposto_get t x)) w x)
              /\ (forall x w, In x N -> In w (Part000.transposto_get t x) ->
                              w ∈ vis')
              /\ (forall w, In w ws -> w ∈ vis').
Proof.
  induction ws as [|w ws IH]; intros vis l vis' l' E.
  - simpl in E. injection E as <- <-. exists []. rewrite app_nil_r.
    split; auto. split; [set_solver|]. repeat split; intros; simpl in *; tauto.
  - simpl in E. unfold laco at 1 in E. simpl in E.
    destruct (decide (w ∈ vis)) as [Hw|Hw].
    + destruct (IH _ _ _ _ E) as (N & -> & -> & H1 & H2 & H3 & H4).
      exists N. repeat split; auto.
      * intros x Hx. destruct (H2 x Hx) as (w' & K1 & K2).
        exists w'. split; auto. now right.
      * intros x [<-|Hx]; auto. set_solver.
    + destruct (busca w (vis, l)) as [[vis1 l1]|] eqn:E1; [|discriminate].
      destruct (busca_ok _ _ _ _ _ E1 Hw)
        as (N1 & -> & -> & A1 & A2 & A3 & A4).
      destruct (IH _ _ _ _ E) as (N2 & -> & -> & B1 & B2 & B3 & B4).
      exists (N1 ++ N2). rewrite app_assoc. split; auto.
      split; [set_solver|]. split; [|split; [|split]].
      * intros x Hx. apply in_app_iff in Hx as [Hx|Hx]; auto.
        apply B1 in Hx. set_solver.
      * intros x Hx. apply in_app_iff in Hx as [Hx|Hx].
        -- exists w. split; [now left|auto].
        -- destruct (B2 x Hx) as (w' & K1 & K2).
           exists w'. split; auto. now right.
      * intros x w' Hx Hw'. apply in_app_iff in Hx as [Hx|Hx]; eauto.
        specialize (A4 x w' Hx Hw'). set_solver.
      * intros x [<-|Hx]; auto.
        apply list_elem_of_In in A2. set_solver.
Qed.
End Passo2.

(** The recursive search of the second pass collects vertices reached from
    its start in the transposed adjacency, and everything listed for them
    ends up visited. *)
Lemma dfs2_correta t :
  forall fuel, busca2_correta t (Part000.dfs2 fuel t).
Proof.
  induction fuel as [|f IH]; intros u vis l vis' l' E Hu.
  { discriminate. }
  rewrite dfs2_S in E. cbn [fst snd] in E.
  destruct (laco_transposto t _ IH _ _ _ _ _ E)
    as (N & -> & -> & H1 & H2 & H3 & H4).
  exists (u :: N). rewrite <- app_assoc. split; auto.
  split; [set_solver|]. split; [|split; [now left|split]].
  - intros x [<-|Hx]; auto. apply H1 in Hx. set_solver.
  - intros x [<-|Hx]; [constructor|].
    destruct (H2 x Hx) as (w & K1 & K2). eapply rtc_l; eauto.
  - intros x w [<-|Hx] Hw; eauto.
Qed.

Lemma transposto_alcanca a (t : gmap Z (list Z)) u x :
  (forall u w, In w (Part000.transposto_get t u) <-> aresta_entre a w u) ->
  rtc (fun x y => In y (Part000.transposto_get t x)) u x -> alcanca a x u.
Proof.
  intros Ht H. induction H as [|u y x Huy _ IH]; [constructor|].
  eapply rtc_r; [exact IH|]. now apply Ht.
Qed.

Lemma fechado_alcanca a (W : gset Z) x z :
  (forall w x, x ∈ W -> aresta_entre a w x -> w ∈ W) ->
  alcanca a x z -> z ∈ W -> x ∈ W.
Proof. intros HW H. induction H; eauto. Qed.

Lemma posicao_depois (L1 : list Z) m L2 A v B :
  List.NoDup (L1 ++ m :: L2) -> L1 ++ m :: L2 = A ++ v :: B ->
  In v L1 -> In m B.
Proof.
  revert A. induction L1 as [|x L1 IH]; intros A Hnd E Hv; [easy|].
  simpl in Hnd. apply List.NoDup_cons_iff in Hnd as [Hx Hnd].
  destruct A as [|x' A]; simpl in E; injection E as <- E.
  - rewrite <- E. apply in_app_iff. simpl. auto.
  - destruct Hv as [->|Hv]; [|eauto].
    exfalso. apply Hx. rewrite E. apply in_app_iff. simpl. auto.
Qed.

Lemma posicao_unica (ordem A B : list Z) v m :
  List.NoDup ordem -> ordem = A ++ v :: B ->
  antes_ou_igual ordem v m -> ~ In m B -> m = v.
Proof.
  intros Hnd E (L1 & L2 & E' & Hv) Hm.
  apply in_app_iff in Hv as [Hv|[->|[]]]; auto.
  exfalso. apply Hm. rewrite E' in Hnd. rewrite E' in E.
  eapply posicao_depois; eauto.
Qed.

(** The second pass keeps its state: each search from the first unvisited
    vertex of the reversed finishing order collects exactly the component
    of that vertex. *)
Lemma passo2_estado a (t : gmap Z (list Z)) fuel ordem :
  List.NoDup ordem ->
  (forall u w, In w (Part000.transposto_get t u) <-> aresta_entre a w u) ->
  (forall y, In y ordem ->
     exists m, fortemente a y m
               /\ forall z, alcanca a y z -> antes_ou_igual ordem z m) ->
  (forall x y, aresta_entre a x y -> In x ordem) ->
  forall ws pre W comps W' comps',
    rev ordem = pre ++ ws -> (forall z, In z pre -> z ∈ W) ->
    estado2 a W comps ->
    foldM (passo2 fuel t) ws (W, comps) = Ok (W', comps') ->
    estado2 a W' comps'.
Proof.
  intros Hnd Ht Hpost Htodos.
  induction ws as [|v ws IH]; intros pre W comps W' comps' Hrev Hpre He E.
  { simpl in E. now injection E as <- <-. }
  simpl in E. unfold passo2 at 1 in E. cbn [fst snd] in E.
  assert (Hrev' : rev ordem = (pre ++ [v]) ++ ws) by now rewrite <- app_assoc.
  destruct (decide (v ∈ W)) as [Hv|Hv].
  { eapply (IH (pre ++ [v])); eauto.
    intros z Hz. apply in_app_iff in Hz as [Hz|[<-|[]]]; auto. }
  destruct (Part000.dfs2 fuel t v (W, [])) as [[W1 c]|] eqn:E2;
    [|discriminate].
  cbn in E.
  destruct (dfs2_correta t fuel _ _ _ _ _ E2 Hv)
    as (N & -> & -> & H1 & H2 & H3 & H4).
  simpl in E. destruct He as (S1 & S2 & S3).
  assert (Hfecho : forall w x, x ∈ W ∪ list_to_set N ->
                               aresta_entre a w x -> w ∈ W ∪ list_to_set N).
  { intros w x Hx Hwx. apply elem_of_union in Hx as [Hx|Hx].
    - apply elem_of_union_l. eauto.
    - apply (H4 x); [|now apply Ht].
      apply list_elem_of_In. set_solver. }
  assert (Hvo : In v ordem).
  { apply in_rev. rewrite Hrev. apply in_app_iff. simpl. auto. }
  assert (Hsemente : forall y, In y N <-> fortemente a v y).
  { intros y. split.
    - intros Hy. assert (Hyv : alcanca a y v).
      { eapply transposto_alcanca; eauto. }
      split; auto.
      assert (Hyo : In y ordem).
      { inversion Hyv; subst; eauto. }
      destruct (Hpost y Hyo) as (m & [K1 K2] & K3).
      assert (m = v) as ->; auto.
      apply (posicao_unica ordem (rev ws) (rev pre)); auto.
      + rewrite <- (rev_involutive ordem), Hrev, rev_app_distr. simpl.
        now rewrite <- app_assoc.
      + intros Hm. apply in_rev in Hm. apply Hpre in Hm.
        apply (H1 y Hy). eapply fechado_alcanca; eauto.
    - intros [K1 K2].
      assert (Hy : y ∈ W ∪ list_to_set N).
      { eapply fechado_alcanca; eauto.
        apply list_elem_of_In in H2. set_solver. }
      apply elem_of_union in Hy as [Hy|Hy].
      + exfalso. apply Hv. eapply fechado_alcanca; eauto.
      + apply list_elem_of_In. set_solver. }
  eapply (IH (pre ++ [v])); eauto.
  - intros z Hz. apply in_app_iff in Hz as [Hz|[<-|[]]].
    + apply elem_of_union_l. auto.
    + apply list_elem_of_In in H2. set_solver.
  - split; [|split]; auto.
    + intros x. rewrite concat_app, in_app_iff. simpl. rewrite app_nil_r.
      rewrite elem_of_union, S1, elem_of_list_to_set, list_elem_of_In.
      reflexivity.
    + intros c x y Hc Hx. apply in_app_iff in Hc as [Hc|[<-|[]]]; auto.
      rewrite Hsemente. apply Hsemente in Hx. split; intros H.
      * eapply fortemente_trans; [apply fortemente_sim|]; eauto.
      * eapply fortemente_trans; eauto.
Qed.

Lemma estado2_inicial a : estado2 a ∅ [].
Proof.
  split; [|split].
  - intros x. simpl. split; [|easy]. intros H. now apply not_elem_of_empty in H.
  - intros w x H. now apply not_elem_of_empty in H.
  - intros c x y [].
Qed.

(** Each component returned on a well-formed graph is a class of mutually
    reachable vertices. *)
Lemma componentes_classes (g : Grafo) :
  inv g ->
  exists comps,
    Part000.componentes_fortemente_conexas g = Ok comps
    /\ forall c x y, In c comps -> In x c ->
         (In y c <-> fortemente (adj g) x y).
Proof.
  intros Hwf.
  pose proof Hwf as (Hnd & Hk & Hd).
  set (V := Dict.keys (vertices g)) in *.
  set (U := list_to_set V : gset Z).
  assert (HU : forall x, x ∈ U <-> In x V).
  { intros x. unfold U. rewrite elem_of_list_to_set. apply list_elem_of_In. }
  assert (Hfuel : forall vis : gset Z, (size (U ∖ vis) < Part000.scc_fuel g)%nat).
  { intros vis. unfold Part000.scc_fuel.
    pose proof (subseteq_size (U ∖ vis) U ltac:(set_solver)).
    pose proof (size_chaves V). fold U in H0.
    unfold V, Dict.keys in H0. rewrite length_map in H0. lia. }
  assert (Hnda : List.NoDup (Dict.keys (adj g))) by now rewrite Hk.
  unfold Part000.componentes_fortemente_conexas. cbv zeta.
  revert Hfuel. generalize (Part000.scc_fuel g). intros fuel Hfuel.
  destruct (laco_ok U (Part000.dfs1 fuel (adj g)) fuel
                    (dfs1_ok U (adj g) ltac:(intros u e He; apply HU; eauto)
                             fuel)
                    V ∅ [])
    as (ordem & E1 & Hnd1 & Hin1 & Hall1); auto.
  { intros w Hw. apply HU. now apply list_elem_of_In. }
  simpl in E1.
  destruct (passo1_final _ _ _ _ _ Hnda E1) as [Hks Hpost].
  fold V. unfold laco in E1. rewrite E1. simpl.
  destruct (transposto_de_exato g Hwf) as (t & Et & Ht).
  rewrite Et. simpl.
  destruct (passo2_ok U t fuel
                      ltac:(intros u w Hw; apply Ht in Hw as (e & He & _);
                            apply HU; rewrite <- Hk;
                            eapply adj_get_In_keys; eauto)
                      (rev ordem) ∅ [])
    as (comps & E2 & _); auto.
  { intros w Hw. rewrite elem_of_rev in Hw. apply Hin1 in Hw. tauto. }
  pose proof E2 as E2'. unfold passo2 in E2. rewrite E2. simpl.
  exists comps. split; auto.
  assert (He : estado2 (adj g) (∅ ∪ list_to_set (concat comps)) comps).
  { apply (passo2_estado (adj g) t fuel ordem) with (ws := rev ordem)
      (pre := []) (W := ∅) (comps := []); auto.
    - now apply NoDup_ListNoDup.
    - intros x y (e & He & _). apply Hks. rewrite <- Hk.
      eapply adj_get_In_keys; eauto.
    - easy.
    - apply estado2_inicial. }
  apply He.
Qed.


(** ** The further properties at concrete graphs *)

Lemma adicionar_aresta_repetida_witness :
  fst (Main11.adicionar_aresta desconexo2 1 2 None) = true
  /\ Main11.adicionar_aresta
       (snd (Main11.adicionar_aresta desconexo2 1 2 None)) 2 1 None
     = (false, snd (Main11.adicionar_aresta desconexo2 1 2 None)).
Proof.
  split; [reflexivity|].
  apply (adicionar_aresta_repetida desconexo2 1 2 None); reflexivity.
Defined.

Lemma adicionar_remover_aresta_witness :
  Main11.remover_aresta (snd (Main11.adicionar_aresta desconexo2 1 2 None)) 1 2
  = (true, desconexo2).
Proof.
  apply (adicionar_remover_aresta 3
           [AddVertice 1 "a" None; AddVertice 2 "b" None] 1 2 None).
  - reflexivity.
  - intros q (e & H & _). vm_compute in H. exact H.
Defined.

Lemma calcular_graus_dirigido_witness :
  Main11.calcular_graus dirigido2 = Ok [(1, 1); (2, 0)].
Proof.
  apply (calcular_graus_dirigido 0
           [AddVertice 1 "a" None; AddVertice 2 "b" None; AddAresta 1 2 None]).
  discriminate.
Defined.

Lemma soma_dos_graus_witness :
  soma (Dict.values [(1, 1); (2, 2); (3, 2); (4, 2); (5, 1)])
  = 2 * Z.of_nat (length (arestas_contadas caminho5)).
Proof.
  apply (soma_dos_graus caminho5 [(1, 1); (2, 2); (3, 2); (4, 2); (5, 1)]).
  - reflexivity.
  - vm_compute. reflexivity.
Defined.

Lemma conexo_nao_direcionado_correto_witness :
  bem_formado caminho5 = true
  /\ exists b, Main11.conexo_nao_direcionado caminho5 = Ok b.
Proof.
  split; [reflexivity|].
  destruct (conexo_nao_direcionado_correto caminho5) as (b & H & _).
  - reflexivity.
  - exists b. exact H.
Defined.

Lemma hamiltoniano_decisao_witness :
  exists b msgs, Main11.tem_ciclo_hamiltoniano completo5 = Ok (b, msgs).
Proof.
  destruct (hamiltoniano_decisao
              [AddVertice 1 "a" None; AddVertice 2 "b" None;
               AddVertice 3 "c" None; AddVertice 4 "d" None;
               AddVertice 5 "e" None;
               AddAresta 1 2 None; AddAresta 1 3 None; AddAresta 1 4 None;
               AddAresta 1 5 None; AddAresta 2 3 None; AddAresta 2 4 None;
               AddAresta 2 5 None; AddAresta 3 4 None; AddAresta 3 5 None;
               AddAresta 4 5 None])
    as (b & msgs & H & _).
  - vm_compute. discriminate.
  - exists b, msgs. exact H.
Defined.


(** ** The category of a directed graph, in terms of reachability *)

Lemma NoDup_concat_In (cs : list (list Z)) c :
  List.NoDup (concat cs) -> In c cs -> List.NoDup c.
Proof.
  induction cs as [|c0 cs IH]; [easy|]. simpl. intros Hnd [->|Hc].
  - now apply List.NoDup_app_remove_r in Hnd.
  - apply IH; auto. now apply List.NoDup_app_remove_l in Hnd.
Qed.

Lemma unitario_de (c : list Z) v :
  List.NoDup c -> In v c -> (forall w, In w c -> w = v) -> length c = 1%nat.
Proof.
  intros Hnd Hv Hc. destruct c as [|x [|y c]]; [easy|reflexivity|].
  exfalso. apply List.NoDup_cons_iff in Hnd as [Hx _]. apply Hx.
  rewrite (Hc x), (Hc y); simpl; auto.
Qed.

(** C7. On a well-formed graph [categoria_direcionado] returns [C0] exactly
    when there is no vertex or no edge.  Otherwise the components it looks
    at are the strongly connected components (every vertex is in one, and
    two vertices share one exactly when they reach each other), and it
    returns [C3] exactly when there is a single component holding every
    vertex, that is when every vertex reaches every vertex; otherwise [C1]
    exactly when some component has size 1 and there is more than one
    component, that is when some vertex is a component on its own;
    otherwise [C2].  The empty graph gets [C0] and the directed 3-cycle
    gets [C3]. *)
Theorem categoria_direcionado_spec :
  (forall g, bem_formado g = true ->
     exists cat,
       Part000.categoria_direcionado g = Ok cat
       /\ (cat = Part000.C0 <-> vertices g = [] \/ lista_arestas g = [])
       /\ (vertices g <> [] -> lista_arestas g <> [] ->
           exists comps,
             Part000.componentes_fortemente_conexas g = Ok comps
             /\ (forall v, In v (Dict.keys (vertices g))
                           <-> exists c, In c comps /\ In v c)
             /\ (forall c x y, In c comps -> In x c ->
                   (In y c <-> alcanca (adj g) x y /\ alcanca (adj g) y x))
             /\ let um_bloco :=
                  exists c, comps = [c]
                            /\ forall v, In v (Dict.keys (vertices g)) -> In v c in
                let unitario :=
                  (exists c, In c comps /\ length c = 1%nat)
                  /\ (1 < length comps)%nat in
                (cat = Part000.C3 <-> um_bloco)
                /\ (cat = Part000.C1 <-> ~ um_bloco /\ unitario)
                /\ (cat = Part000.C2 <-> ~ um_bloco /\ ~ unitario)
                /\ (cat = Part000.C3 <-> conexo_vale g)
                /\ (cat = Part000.C1
                    <-> ~ conexo_vale g /\ exists v, sozinho g v)
                /\ (cat = Part000.C2
                    <-> ~ conexo_vale g /\ ~ exists v, sozinho g v)))
  /\ (forall tp, Part000.categoria_direcionado (Grafo_init tp) = Ok Part000.C0)
  /\ Part000.categoria_direcionado ciclo3 = Ok Part000.C3.
Proof.
  split; [|split; [reflexivity|vm_compute; reflexivity]].
  intros g Hwf.
  destruct (proj1 categoria_direcionado_tabela g Hwf) as (cat & Ecat & H0 & Htab).
  exists cat. split; auto. split; auto. intros Hv He.
  destruct (Htab Hv He) as (comps & E & T3 & T1 & T2).
  apply inv_bem_formado in Hwf.
  destruct (componentes_ok g Hwf) as (comps' & E' & Hnd & Hel & Hne).
  rewrite E in E'. injection E' as <-.
  destruct (componentes_classes g Hwf) as (comps' & E' & Hcl).
  rewrite E in E'. injection E' as <-.
  apply NoDup_ListNoDup in Hnd.
  assert (Hne' : forall c, In c comps -> c <> []).
  { intros c Hc. apply Hne. now apply list_elem_of_In. }
  assert (Hem : forall v, In v (Dict.keys (vertices g))
                          <-> exists c, In c comps /\ In v c).
  { intros v. now rewrite <- Hel, list_elem_of_In, in_concat. }
  exists comps. split; auto. split; auto. split; [exact Hcl|].
  cbv zeta in *.
  set (um_bloco := exists c, comps = [c]
                     /\ forall v, In v (Dict.keys (vertices g)) -> In v c) in *.
  assert (Hbloco : um_bloco <-> conexo_vale g).
  { split.
    - intros (c & -> & Hc) u v Hu Hw.
      apply (Hcl c u v); simpl; auto.
    - intros Hcon. destruct comps as [|c cs].
      { exfalso. destruct (vertices g) as [|[k x] vs]; [easy|].
        destruct (proj1 (Hem k)) as (c & [] & _). now left. }
      destruct cs as [|c' cs].
      { exists c. split; auto. intros v Hw.
        apply Hem in Hw as (c0 & [<-|[]] & Hw). auto. }
      exfalso.
      destruct c as [|x c]; [apply (Hne' []); [now left|reflexivity]|].
      destruct c' as [|x' c'];
        [apply (Hne' []); [right; now left|reflexivity]|].
      assert (Hx : In x (Dict.keys (vertices g))).
      { apply Hem. exists (x :: c). simpl. auto. }
      assert (Hx' : In x' (Dict.keys (vertices g))).
      { apply Hem. exists (x' :: c'). simpl. auto. }
      assert (Hin : In x' (x :: c)).
      { apply (Hcl (x :: c) x x'); simpl; auto. split; apply Hcon; auto. }
      assert (H01 : 0%nat = 1%nat).
      { apply (NoDup_concat_unico _ (proj2 (NoDup_ListNoDup _) Hnd)
                 0%nat 1%nat (x :: c) (x' :: c') x'); simpl; auto. }
      discriminate. }
  assert (Hsoz : (exists c, In c comps /\ length c = 1%nat)
                 <-> exists v, sozinho g v).
  { split.
    - intros (c & Hc & Hl). destruct c as [|v [|? ?]]; try discriminate.
      exists v. split.
      + apply Hem. exists [v]. simpl. auto.
      + intros w H1 H2.
        assert (Hw : In w [v]).
        { apply (Hcl [v] v w); [exact Hc|now left|now split]. }
        destruct Hw as [<-|[]]. reflexivity.
    - intros (v & Hw & Hs). apply Hem in Hw as (c & Hc & Hw).
      exists c. split; auto. apply (unitario_de c v); auto.
      + eapply NoDup_concat_In; eauto.
      + intros w Hwc. apply (Hcl c v w) in Hwc as [H1 H2]; auto. }
  assert (Hmais : ~ um_bloco -> (1 < length comps)%nat).
  { intros Hnb. destruct comps as [|c [|c' cs]]; simpl; try lia.
    - exfalso. destruct (vertices g) as [|[k x] vs]; [easy|].
      destruct (proj1 (Hem k)) as (c & [] & _). now left.
    - exfalso. apply Hnb. exists c. split; auto. intros v Hw.
      apply Hem in Hw as (c0 & [<-|[]] & Hw). auto. }
  split; [exact T3|]. split; [exact T1|]. split; [exact T2|].
  split; [now rewrite T3|]. split.
  - rewrite T1, <- Hbloco, <- Hsoz. split; [tauto|].
    intros [H1 H2]. split; auto.
  - rewrite T2, <- Hbloco, <- Hsoz. split.
    + intros [H1 H2]. split; [exact H1|].
      intros H. apply H2. split; [exact H|now apply Hmais].
    + intros [H1 H2]. split; [exact H1|]. intros [H _]. now apply H2.
Qed.

Lemma categoria_direcionado_spec_witness :
  bem_formado ciclo3 = true
  /\ exists cat, Part000.categoria_direcionado ciclo3 = Ok cat
                 /\ (cat = Part000.C0
                     <-> vertices ciclo3 = [] \/ lista_arestas ciclo3 = []).
Proof.
  split; [reflexivity|].
  destruct (proj1 categoria_direcionado_spec ciclo3) as (cat & H1 & H2 & _).
  - reflexivity.
  - exists cat. split; assumption.
Defined.

(** ** The reduced graph has no cycle *)

(** The arcs of the reduced graph of a well-formed graph. *)
Lemma grafo_reduzido_arcos (g : Grafo) :
  inv g ->
  exists comps reduzido,
    Part000.grafo_reduzido g = Ok (comps, reduzido)
    /\ Part000.componentes_fortemente_conexas g = Ok comps
    /\ forall cu cv,
         cv ∈ default ∅ (reduzido !! cu)
         <-> cu <> cv
             /\ exists u e, In e (adj_get (adj g) u)
                            /\ componente_de comps u cu
                            /\ componente_de comps (destino e) cv.
Proof.
  intros Hwf.
  destruct (componentes_ok g Hwf) as (comps & E & Hnd & Hel & Hne).
  pose proof Hwf as (HndV & Hk & Hd).
  unfold Part000.grafo_reduzido. rewrite E. cbn [mbind result_bind].
  set (cd := Part000.comp_de_desde 0 comps ∅).
  rewrite (foldM_plano (Part000.reduz_aresta cd)).
  assert (Hcd : forall v, In v (Dict.keys (vertices g)) -> is_Some (cd !! v)).
  { intros v Hv. apply Hel, list_elem_of_In, in_concat in Hv as (c & Hc & Hv).
    apply In_nth_error in Hc as [i Hi]. exists i.
    apply comp_de_componente; auto. exists c. auto. }
  destruct (reduz_ok cd (arestas_com_origem (adj g)) ∅) as (r & Er & Hr).
  { intros [u e] Hue. simpl.
    apply In_arestas_com_origem in Hue; [|now rewrite Hk].
    split; apply Hcd; [|eauto].
    rewrite <- Hk. eapply adj_get_In_keys, Hue. }
  rewrite Er. exists comps, r. split; auto. split; auto.
  intros cu cv. rewrite Hr, lookup_empty. simpl. split.
  - intros [H|([u e] & Hue & H1 & H2 & H3)]; [set_solver|].
    simpl in *. split; auto. exists u, e.
    apply In_arestas_com_origem in Hue; [|now rewrite Hk].
    split; auto. split; now apply comp_de_componente.
  - intros (Hne' & u & e & He & H1 & H2). right. exists (u, e). simpl.
    split; [apply In_arestas_com_origem; auto; now rewrite Hk|].
    split; [now apply comp_de_componente|].
    split; [now apply comp_de_componente|auto].
Qed.

(** X14. On a well-formed graph the reduced graph returned by
    [grafo_reduzido] has no cycle: a component that is reached from another
    one along arcs of the reduced graph is a different component, and every
    vertex of it is reached in the graph from every vertex of the other. *)
Theorem grafo_reduzido_aciclico (g : Grafo) :
  bem_formado g = true ->
  exists comps reduzido,
    Part000.grafo_reduzido g = Ok (comps, reduzido)
    /\ forall cu cv,
         tc (fun a b => b ∈ default ∅ (reduzido !! a)) cu cv ->
         cu <> cv
         /\ forall u v, componente_de comps u cu -> componente_de comps v cv ->
                        alcanca (adj g) u v.
Proof.
  intros Hwf. apply inv_bem_formado in Hwf.
  destruct (grafo_reduzido_arcos g Hwf) as (comps & r & Er & E & Harco).
  destruct (componentes_ok g Hwf) as (comps' & E' & Hnd & _).
  rewrite E in E'. injection E' as <-.
  destruct (componentes_classes g Hwf) as (comps' & E' & Hcl).
  rewrite E in E'. injection E' as <-.
  exists comps, r. split; auto.
  assert (Hcomp : forall i u v, componente_de comps u i ->
                    componente_de comps v i -> alcanca (adj g) u v).
  { intros i u v (c & Hc & Hu) (c' & Hc' & Hw).
    rewrite Hc in Hc'. injection Hc' as <-.
    apply (Hcl c u v); auto. eapply nth_error_In; eauto. }
  assert (Hcam : forall cu cv,
            tc (fun a b => b ∈ default ∅ (r !! a)) cu cv ->
            forall u v, componente_de comps u cu -> componente_de comps v cv ->
                        alcanca (adj g) u v).
  { intros cu cv H. induction H as [cu cv H|cu cm cv H _ IH]; intros u v Hu Hw;
      apply Harco in H as (_ & u0 & e & He & H1 & H2).
    - eapply rtc_trans; [apply (Hcomp cu u u0); auto|].
      eapply rtc_l; [exists e; eauto|]. apply (Hcomp cv); auto.
    - eapply rtc_trans; [apply (Hcomp cu u u0); auto|].
      eapply rtc_l; [exists e; eauto|]. apply IH; auto. }
  intros cu cv H. split; [|now apply Hcam].
  destruct H as [cu cv H|cu cm cv H Htc].
  - apply Harco in H. tauto.
  - intros <-. apply Harco in H as (Hne & u0 & e & He & H1 & H2).
    apply Hne.
    assert (Hvolta : alcanca (adj g) (destino e) u0) by (eapply Hcam; eauto).
    destruct H1 as (c & Hc & Hu0). destruct H2 as (c' & Hc' & Hd).
    apply (NoDup_concat_unico comps Hnd cu cm c c' (destino e)); auto.
    apply (Hcl c u0 (destino e)); [eapply nth_error_In; eauto|auto|].
    split; auto. apply rtc_once. exists e. auto.
Qed.

Lemma grafo_reduzido_aciclico_witness :
  bem_formado ciclo3 = true
  /\ exists comps reduzido,
       Part000.grafo_reduzido ciclo3 = Ok (comps, reduzido)
       /\ forall cu,
            ~ tc (fun a b => b ∈ default ∅ (reduzido !! a)) cu cu.
Proof.
  split; [reflexivity|].
  destruct (grafo_reduzido_aciclico ciclo3) as (comps & r & E & H).
  - reflexivity.
  - exists comps, r. split; [exact E|].
    intros cu Hc. destruct (H cu cu Hc) as [Hne _]. now apply Hne.
Defined.

(** ** Connectivity in the older variant *)

Lemma origens_filtradas a u (vis : gset Z) :
  flat_map
    (fun sl : Z * list Aresta =>
       flat_map
         (fun e => if Z.eqb (destino e) u && negb (bool_decide (fst sl ∈ vis))
                   then [fst sl] else [])
         (snd sl))
    a
  = List.filter (fun d => negb (bool_decide (d ∈ vis))) (origens a u).
Proof.
  unfold origens, arestas_com_origem.
  induction a as [|[o l] a IH]; simpl; auto.
  rewrite List.filter_app, map_app, List.filter_app, IH. f_equal.
  clear. induction l as [|e l IHl]; simpl; auto.
  rewrite IHl. destruct (Z.eqb (destino e) u); simpl; auto.
  destruct (bool_decide (o ∈ vis)); simpl; auto.
Qed.

Lemma conexo_laco_000_busca fuel a pilha vis :
  Part000.conexo_laco fuel a pilha vis
  = busca_pilha (vizinhos a) fuel pilha vis.
Proof.
  revert pilha vis. induction fuel as [|f IH]; intros pilha vis; simpl; auto.
  destruct pilha as [|u resto]; auto.
  destruct (decide (u ∈ vis)); auto.
  rewrite IH, origens_filtradas. unfold vizinhos.
  now rewrite List.filter_app, rev_app_distr, <- app_assoc.
Qed.

Lemma indicador_visita (vis : gset Z) u x :
  u ∉ vis ->
  ((if decide (x ∈ {[u]} ∪ vis) then 0 else 1)
   + (if Z.eqb x u then 1 else 0)
   <= (if decide (x ∈ vis) then 0 else 1))%nat.
Proof.
  intros Hu. destruct (Z.eqb_spec x u) as [->|Hx].
  - destruct (decide (u ∈ {[u]} ∪ vis)) as [_|H]; [|exfalso; set_solver].
    destruct (decide (u ∈ vis)); [tauto|lia].
  - destruct (decide (x ∈ {[u]} ∪ vis)) as [H|H], (decide (x ∈ vis)) as [H'|H'];
      try lia.
    exfalso. apply H. apply elem_of_union_r, H'.
Qed.

Lemma peso_duplo_visita E (vis : gset Z) u :
  u ∉ vis ->
  (peso_duplo E ({[u]} ∪ vis)
   + length (List.filter (fun oe : Z * Aresta => Z.eqb (fst oe) u) E)
   + length (List.filter (fun oe : Z * Aresta => Z.eqb (destino (snd oe)) u) E)
   <= peso_duplo E vis)%nat.
Proof.
  intros Hu. unfold peso_duplo.
  induction E as [|[o e] E IH]; simpl; [lia|].
  pose proof (indicador_visita vis u o Hu) as H1.
  pose proof (indicador_visita vis u (destino e) Hu) as H2.
  destruct (Z.eqb o u), (Z.eqb (destino e) u); simpl; lia.
Qed.

Lemma peso_duplo_vazio E : peso_duplo E ∅ = (2 * length E)%nat.
Proof.
  induction E as [|[o e] E IH]; [reflexivity|].
  change (peso_duplo ((o, e) :: E) ∅)
    with (((if decide (o ∈ (∅ : gset Z)) then 0 else 1)
           + (if decide (destino e ∈ (∅ : gset Z)) then 0 else 1)
           + peso_duplo E ∅)%nat).
  rewrite IH. cbn [length].
  destruct (decide (o ∈ (∅ : gset Z))) as [H|_];
    [now apply not_elem_of_empty in H|].
  destruct (decide (destino e ∈ (∅ : gset Z))) as [H|_];
    [now apply not_elem_of_empty in H|].
  lia.
Qed.

Lemma length_arestas_com_origem a :
  length (arestas_com_origem a) = length (concat (Dict.values a)).
Proof.
  unfold arestas_com_origem, Dict.values.
  induction a as [|[o l] a IH]; simpl; auto.
  now rewrite !length_app, length_map, IH.
Qed.

Lemma conexo_laco_000_total a :
  List.NoDup (Dict.keys a) ->
  forall fuel pilha (vis : gset Z),
    (length pilha + peso_duplo (arestas_com_origem a) vis < fuel)%nat ->
    exists vis', busca_pilha (vizinhos a) fuel pilha vis = Ok vis'.
Proof.
  intros Hnd. induction fuel as [|f IH]; intros pilha vis Hf; [lia|].
  destruct pilha as [|u resto]; simpl; [eauto|].
  destruct (decide (u ∈ vis)) as [Hu|Hu].
  - apply IH. simpl in Hf. lia.
  - apply IH. simpl in Hf.
    pose proof (peso_duplo_visita (arestas_com_origem a) vis u Hu) as H.
    rewrite (filter_origem a u Hnd), length_map in H.
    rewrite length_app, length_rev.
    pose proof (length_filter_le
                  (fun d => negb (bool_decide (d ∈ {[u]} ∪ vis)))
                  (vizinhos a u)) as H0.
    unfold vizinhos at 2 in H0. unfold origens in H0.
    rewrite length_app, !length_map in H0. lia.
Qed.

Lemma In_vizinhos a x y :
  List.NoDup (Dict.keys a) -> In y (vizinhos a x) <-> ligados a x y.
Proof.
  intros Hnd. unfold vizinhos, ligados, origens.
  rewrite in_app_iff, In_destinos. apply or_iff_compat_l.
  rewrite in_map_iff. unfold aresta_entre. split.
  - intros ([o e] & <- & H). apply filter_In in H as [H1 H2]. simpl in *.
    apply Z.eqb_eq in H2. exists e. split; auto.
    now apply In_arestas_com_origem.
  - intros (e & He & Hd). exists (y, e). split; auto.
    apply filter_In. simpl. split; [now apply In_arestas_com_origem|].
    now apply Z.eqb_eq.
Qed.

Lemma ligados_vertice g u v :
  inv g -> In u (Dict.keys (vertices g)) -> rtc (ligados (adj g)) u v ->
  In v (Dict.keys (vertices g)).
Proof.
  intros (_ & Hk & Hd) Hu Hr.
  induction Hr as [|x y z [(e & He & <-)|(e & He & _)] _ IH]; auto.
  - apply IH. eauto.
  - apply IH. rewrite <- Hk. eapply adj_get_In_keys; eauto.
Qed.

Lemma conexo_000_inv_correto (g : Grafo) :
  inv g ->
  exists b,
    Part000.conexo_nao_direcionado g = Ok b
    /\ (b = true
        <-> match Dict.keys (vertices g) with
            | [] => True
            | inicio :: _ =>
                forall v, In v (Dict.keys (vertices g)) ->
                          rtc (ligados (adj g)) inicio v
            end).
Proof.
  intros Hwf.
  pose proof Hwf as (Hnd & Hk & Hd).
  assert (Hnda : List.NoDup (Dict.keys (adj g))) by now rewrite Hk.
  unfold Part000.conexo_nao_direcionado.
  destruct (Dict.keys (vertices g)) as [|inicio ks] eqn:Eks.
  { exists true. tauto. }
  rewrite conexo_laco_000_busca.
  destruct (conexo_laco_000_total (adj g) Hnda
              (Part000.conexo_fuel g) [inicio] ∅) as [vis Hvis].
  { rewrite peso_duplo_vazio, length_arestas_com_origem.
    unfold Part000.conexo_fuel, lista_arestas. simpl. lia. }
  rewrite Hvis. simpl. eexists. split; [reflexivity|].
  pose proof (busca_pilha_alcance _ _ _ _ Hvis) as Hal.
  assert (Hi : In inicio (Dict.keys (vertices g))) by (rewrite Eks; now left).
  assert (Hlig : forall z, rtc (fun x y => In y (vizinhos (adj g) x)) inicio z
                           <-> rtc (ligados (adj g)) inicio z).
  { intros z. split; apply rtc_subrel; intros x y; now apply In_vizinhos. }
  rewrite tamanho_visitados; auto.
  - rewrite Eks. split; intros H v Hv.
    + apply Hlig, Hal, H, Hv.
    + apply Hal, Hlig, H, Hv.
  - intros z Hz. apply Hal, Hlig in Hz.
    eapply ligados_vertice; eauto.
Qed.

(** X15. On a well-formed graph the older [conexo_nao_direcionado], which
    also scans the edges that end at the current vertex, returns a result,
    and it returns [True] exactly when every vertex can be reached from the
    first vertex inserted along stored edges taken in either direction
    (always, when there is no vertex). *)
Theorem conexo_nao_direcionado_000_correto (g : Grafo) :
  bem_formado g = true ->
  exists b,
    Part000.conexo_nao_direcionado g = Ok b
    /\ (b = true
        <-> match Dict.keys (vertices g) with
            | [] => True
            | inicio :: _ =>
                forall v, In v (Dict.keys (vertices g)) ->
                          rtc (ligados (adj g)) inicio v
            end).
Proof.
  intros Hwf. apply conexo_000_inv_correto. now apply inv_bem_formado.
Qed.

Lemma conexo_nao_direcionado_000_correto_witness :
  bem_formado ciclo3 = true
  /\ exists b, Part000.conexo_nao_direcionado ciclo3 = Ok b.
Proof.
  split; [reflexivity|].
  destruct (conexo_nao_direcionado_000_correto ciclo3) as (b & H & _).
  - reflexivity.
  - exists b. exact H.
Defined.

Lemma ligados_espelhado g u v :
  espelhado g -> rtc (ligados (adj g)) u v <-> alcanca (adj g) u v.
Proof.
  intros Hesp. split.
  - apply rtc_subrel. intros x y [H|H]; auto.
    apply aresta_entre_em in H as [p Hp]. apply aresta_entre_em.
    exists p. now apply Hesp.
  - apply rtc_subrel. intros x y H. now left.
Qed.

(** X16. On an undirected graph built by the operations, where every edge
    is stored in both directions, the two variants of
    [conexo_nao_direcionado] return the same answer: scanning the edges
    that end at a vertex finds nothing that following its own edges does
    not. *)
Theorem conexo_variantes_concordam (ops : list Op) :
  let g := construido11 3 ops in
  exists b, Main11.conexo_nao_direcionado g = Ok b
            /\ Part000.conexo_nao_direcionado g = Ok b.
Proof.
  intros g. pose proof (inv_construido11 3 ops) as Hwf. fold g in Hwf.
  pose proof (espelhado_construido11 ops) as Hesp. fold g in Hesp.
  destruct (conexo_inv_correto g Hwf) as (b1 & E1 & H1).
  destruct (conexo_000_inv_correto g Hwf) as (b2 & E2 & H2).
  exists b1. split; auto. rewrite E2. f_equal.
  assert (H : b2 = true <-> b1 = true).
  { rewrite H1, H2. destruct (Dict.keys (vertices g)) as [|inicio ks];
      [tauto|].
    split; intros H v Hv; apply (ligados_espelhado g inicio v Hesp), H, Hv. }
  destruct b1, b2; auto.
  - apply H. reflexivity.
  - symmetry. apply H. reflexivity.
Qed.

(** ** The edges written by [salvar_grafo] *)

Lemma salvar_plano (passo : Z -> list Aresta * gset (Z * Z) -> Aresta ->
                            list Aresta * gset (Z * Z)) a K :
  forall st,
    fold_left (fun st o => fold_left (passo o) (adj_get a o) st) K st
    = fold_left (fun st oe => passo (fst oe) st (snd oe))
                (flat_map (fun o => map (pair o) (adj_get a o)) K) st.
Proof.
  induction K as [|o K IH]; intros st; simpl; auto.
  rewrite fold_left_app, IH. f_equal.
  generalize (adj_get a o). intros l. revert st.
  induction l as [|e l IHl]; intros st; simpl; auto.
Qed.

Lemma liga_com x y oe : liga x y oe = liga y x oe.
Proof. unfold liga. apply orb_comm. Qed.

Lemma liga_true x y oe :
  liga x y oe = true
  <-> (fst oe = x /\ destino (snd oe) = y) \/ (fst oe = y /\ destino (snd oe) = x).
Proof.
  unfold liga. rewrite orb_true_iff, !andb_true_iff, !Z.eqb_eq. reflexivity.
Qed.

Lemma primeira_com E x y : primeira E x y = primeira E y x.
Proof.
  unfold primeira. induction E as [|oe E IH]; simpl; auto.
  rewrite (liga_com y x oe). destruct (liga x y oe); auto.
Qed.

Lemma primeira_app E X x y :
  primeira (E ++ X) x y
  = match primeira E x y with Some r => Some r | None => primeira X x y end.
Proof.
  unfold primeira. induction E as [|oe E IH]; simpl; auto.
  destruct (liga x y oe); auto.
Qed.

Lemma primeira_Some E x y u v :
  primeira E x y = Some (u, v) -> (u = x /\ v = y) \/ (u = y /\ v = x).
Proof.
  unfold primeira. destruct (find (liga x y) E) as [oe|] eqn:H; [|easy].
  intros Heq. injection Heq as <- <-.
  apply find_some in H as [_ H]. now apply liga_true.
Qed.

Lemma primeira_um oe x y :
  primeira [oe] x y
  = if liga x y oe then Some (fst oe, destino (snd oe)) else None.
Proof. unfold primeira. simpl. now destruct (liga x y oe). Qed.

(** The set [vistas] holds a pair exactly when the first edge seen that
    joins its two vertices has that direction. *)
Lemma vistas_passo (Ep : list (Z * Aresta)) (V : gset (Z * Z)) (o : Z)
    (e : Aresta) :
  (forall x y, (x, y) ∈ V <-> primeira Ep x y = Some (x, y)) ->
  forall x y,
    (x, y) ∈ (if bool_decide ((destino e, o) ∈ V) then V
              else {[ (o, destino e) ]} ∪ V)
    <-> primeira (Ep ++ [(o, e)]) x y = Some (x, y).
Proof.
  intros HV x y. rewrite primeira_app, primeira_um.
  set (d := destino e). cbn [fst snd]. fold d.
  destruct (bool_decide_reflect ((d, o) ∈ V)) as [Hin|Hin].
  - apply HV in Hin.
    destruct (primeira Ep x y) as [r|] eqn:Er; [now rewrite HV, Er|].
    destruct (liga x y (o, e)) eqn:El; [|now rewrite HV, Er].
    exfalso. apply liga_true in El. cbn [fst snd] in El. fold d in El.
    destruct El as [[<- <-]|[<- <-]].
    + rewrite primeira_com, Hin in Er. discriminate.
    + rewrite Hin in Er. discriminate.
  - rewrite elem_of_union, elem_of_singleton, HV.
    assert (Hno : primeira Ep d o <> Some (d, o)) by now rewrite <- HV.
    destruct (primeira Ep x y) as [[u v]|] eqn:Er.
    + split; [|tauto]. intros [Heq|H]; auto.
      injection Heq as -> ->.
      destruct (primeira_Some _ _ _ _ _ Er) as [[-> ->]|[-> ->]]; auto.
      exfalso. apply Hno. now rewrite primeira_com.
    + destruct (liga x y (o, e)) eqn:El.
      * split; [|intros H; left; congruence].
        intros [Heq|H]; [congruence|discriminate].
      * split; [|discriminate]. intros [Heq|H]; [|discriminate].
        injection Heq as -> ->. exfalso.
        assert (H : liga o d (o, e) = true); [|congruence].
        apply liga_true. left. auto.
Qed.

Lemma salvar_selecionadas Er :
  forall (Ep : list (Z * Aresta)) S (V : gset (Z * Z)),
    (forall x y, (x, y) ∈ V <-> primeira Ep x y = Some (x, y)) ->
    fst (fold_left (fun st oe => Main11.salvar_passo 3 (fst oe) st (snd oe))
                   Er (S, V))
    = S ++ selecionadas Ep Er.
Proof.
  induction Er as [|[o e] Er IH]; intros Ep S V HV; simpl.
  { now rewrite app_nil_r. }
  pose proof (vistas_passo Ep V o e HV) as HV'.
  unfold Main11.salvar_passo at 2. cbn [fst snd andb Z.eqb Pos.eqb].
  destruct (bool_decide_reflect ((destino e, o) ∈ V)) as [Hin|Hin].
  - rewrite (IH (Ep ++ [(o, e)]) S V HV').
    destruct (decide _) as [_|Hn]; [reflexivity|].
    exfalso. apply Hn. now apply HV.
  - rewrite (IH (Ep ++ [(o, e)]) (S ++ [e]) _ HV').
    destruct (decide _) as [Hy|_]; [|now rewrite <- app_assoc].
    exfalso. apply Hin. now apply HV.
Qed.

Lemma In_selecionadas Er :
  forall Ep e,
    In e (selecionadas Ep Er)
    <-> exists E1 E2 o,
          Er = E1 ++ (o, e) :: E2
          /\ primeira (Ep ++ E1) (destino e) o <> Some (destino e, o).
Proof.
  induction Er as [|[o0 e0] Er IH]; intros Ep e; simpl.
  { split; [easy|]. intros (E1 & E2 & o & H & _). now destruct E1. }
  rewrite in_app_iff, IH. split.
  - intros [H|(E1 & E2 & o & -> & H)].
    + destruct (decide _) as [|Hn]; [easy|]. destruct H as [<-|[]].
      exists [], Er, o0. rewrite app_nil_r. auto.
    + exists ((o0, e0) :: E1), E2, o. split; auto.
      now rewrite <- app_assoc in H.
  - intros (E1 & E2 & o & Heq & H). destruct E1 as [|oe E1].
    + injection Heq as -> -> ->. rewrite app_nil_r in H. left.
      destruct (decide _); [contradiction|now left].
    + injection Heq as -> ->. right. exists E1, E2, o. split; auto.
      now rewrite <- app_assoc.
Qed.

Lemma selecionadas_sublist Er :
  forall Ep, sublist (selecionadas Ep Er) (map snd Er).
Proof.
  induction Er as [|oe Er IH]; intros Ep; simpl; [constructor|].
  destruct (decide _); simpl.
  - apply sublist_cons, IH.
  - apply sublist_skip, IH.
Qed.

Lemma In_arestas_por_chave a o e :
  In (o, e) (arestas_por_chave a) <-> In e (adj_get a o).
Proof.
  unfold arestas_por_chave. rewrite in_flat_map. split.
  - intros (k & _ & H). apply in_map_iff in H as (e' & Heq & He).
    now injection Heq as -> ->.
  - intros He. exists o. split; [eapply adj_get_In_keys; eauto|].
    apply in_map_iff. eauto.
Qed.

Lemma NoDup_arestas_por_chave a :
  (forall o e, In e (adj_get a o) -> origem e = o) ->
  (forall o, List.NoDup (adj_get a o)) ->
  forall K, List.NoDup K ->
    List.NoDup (map snd (flat_map (fun o => map (pair o) (adj_get a o)) K)).
Proof.
  intros Ho Hl. induction K as [|k K IH]; intros Hnd; simpl; [constructor|].
  apply List.NoDup_cons_iff in Hnd as [Hk Hnd].
  rewrite map_app, map_map. simpl. rewrite map_id.
  apply List.NoDup_app; [apply Hl|now apply IH|].
  intros e He Hin. apply in_map_iff in Hin as ([o e'] & Heq & Hin).
  simpl in Heq. subst e'. apply in_flat_map in Hin as (o' & Ho' & Hin).
  apply in_map_iff in Hin as (e' & Heq & He'). injection Heq as -> ->.
  apply Ho in He, He'. congruence.
Qed.

Lemma valores_por_chave (a : Dict.t (list Aresta)) :
  List.NoDup (Dict.keys a) ->
  map snd (arestas_por_chave a) = concat (Dict.values a).
Proof.
  unfold arestas_por_chave. intros Hnd.
  assert (H : forall K,
    map snd (flat_map (fun o => map (pair o) (adj_get a o)) K)
    = concat (map (adj_get a) K)).
  { induction K as [|k K IH]; simpl; auto.
    rewrite map_app, map_map, IH. simpl. now rewrite map_id. }
  rewrite H. f_equal. clear H.
  induction a as [|[k l] a IH]; simpl; auto.
  apply List.NoDup_cons_iff in Hnd as [Hk Hnd]. f_equal.
  - unfold adj_get. simpl. now rewrite Z.eqb_refl.
  - rewrite <- IH by auto. apply map_ext_in. intros k' Hk'.
    unfold adj_get. simpl. destruct (Z.eqb_spec k' k) as [->|]; [tauto|auto].
Qed.

Lemma salvar_todas tp Er :
  tp <> 3 ->
  forall S (V : gset (Z * Z)),
    fst (fold_left (fun st oe => Main11.salvar_passo tp (fst oe) st (snd oe))
                   Er (S, V))
    = S ++ map snd Er.
Proof.
  intros Htp. apply Z.eqb_neq in Htp.
  induction Er as [|[o e] Er IH]; intros S V; simpl.
  { now rewrite app_nil_r. }
  unfold Main11.salvar_passo at 2. rewrite Htp. simpl.
  now rewrite IH, <- app_assoc.
Qed.

Lemma primeiro_unico {A} (f : A -> bool) (E1 : list A) :
  forall x E2 E1' x' E2',
    E1 ++ x :: E2 = E1' ++ x' :: E2' ->
    find f E1 = None -> find f E1' = None -> f x = true -> f x' = true ->
    x = x'.
Proof.
  induction E1 as [|a E1 IH]; intros x E2 E1' x' E2' Heq H1 H1' Hx Hx'.
  - destruct E1' as [|a' E1']; simpl in Heq; injection Heq as -> Heq; auto.
    simpl in H1'. rewrite Hx in H1'. discriminate.
  - destruct E1' as [|a' E1']; simpl in Heq; injection Heq as -> Heq.
    + simpl in H1. rewrite Hx' in H1. discriminate.
    + simpl in H1, H1'. destruct (f a'); [discriminate|]. eapply IH; eauto.
Qed.

Lemma find_divide {A} (f : A -> bool) (E : list A) x :
  find f E = Some x ->
  exists E1 E2, E = E1 ++ x :: E2 /\ find f E1 = None /\ f x = true.
Proof.
  induction E as [|a E IH]; simpl; [easy|].
  destruct (f a) eqn:Ha.
  - intros Heq. injection Heq as ->. exists [], E. auto.
  - intros H. destruct (IH H) as (E1 & E2 & -> & H1 & Hx).
    exists (a :: E1), E2. simpl. rewrite Ha. auto.
Qed.

Lemma primeira_None E x y : primeira E x y = None <-> find (liga x y) E = None.
Proof. unfold primeira. destruct (find _ _); split; easy. Qed.

(** Away from self-loops, an edge is selected exactly when the first edge
    that joins its two vertices has its direction. *)
Lemma selecionada_direcao E o e :
  (forall o e, In (o, e) E -> origem e = o) ->
  In (o, e) E -> o <> destino e ->
  In e (selecionadas [] E)
  <-> primeira E o (destino e) = Some (o, destino e).
Proof.
  intros Ho Hin Hne. set (d := destino e) in *.
  assert (Hl : liga o d (o, e) = true) by (apply liga_true; left; auto).
  rewrite In_selecionadas. split.
  - intros (E1 & E2 & o' & -> & H). simpl in H.
    assert (o' = o) as ->.
    { rewrite <- (Ho o' e), <- (Ho o e); auto.
      apply in_app_iff. simpl. auto. }
    fold d in H. rewrite primeira_app.
    destruct (primeira E1 o d) as [[u v]|] eqn:E1o.
    + destruct (primeira_Some _ _ _ _ _ E1o) as [[-> ->]|[-> ->]]; auto.
      exfalso. apply H. now rewrite primeira_com.
    + unfold primeira. simpl. now rewrite Hl.
  - intros H. apply in_split in Hin as (E1 & E2 & ->).
    exists E1, E2, o. split; auto. simpl. fold d. intros H1.
    rewrite primeira_com, primeira_app, H1 in H. congruence.
Qed.

Lemma salvar_grafo_arestas_3 g :
  tipo g = 3 ->
  Main11.salvar_grafo_arestas g = selecionadas [] (arestas_por_chave (adj g)).
Proof.
  intros Htp. unfold Main11.salvar_grafo_arestas.
  rewrite (salvar_plano (Main11.salvar_passo (tipo g))), Htp.
  rewrite (salvar_selecionadas _ [] [] ∅); [reflexivity|].
  intros x y. split; [intros H; now apply not_elem_of_empty in H|easy].
Qed.

(** X17. The list of edges that [salvar_grafo] writes.  For a kind other
    than 3 it is the list of all stored edges.  For a graph of kind 3 built
    by the operations it holds only stored edges, none twice; of an edge
    between two different vertices exactly one of its two stored directions
    is written; and for a vertex with self-loops exactly one self-loop is
    written, however many are stored with different weights. *)
Theorem salvar_grafo_arestas_spec :
  (forall tp ops, tp <> 3 ->
     Main11.salvar_grafo_arestas (construido11 tp ops)
     = lista_arestas (construido11 tp ops))
  /\ (forall ops,
        let g := construido11 3 ops in
        let S := Main11.salvar_grafo_arestas g in
        (forall e, In e S -> In e (adj_get (adj g) (origem e)))
        /\ List.NoDup S
        /\ (forall o d p, o <> d -> aresta_em g o d p ->
              (In (mkAresta o d p) S /\ ~ In (mkAresta d o p) S)
              \/ (~ In (mkAresta o d p) S /\ In (mkAresta d o p) S))
        /\ (forall o, (exists p, aresta_em g o o p) ->
              exists q, aresta_em g o o q
                        /\ forall p, In (mkAresta o o p) S <-> p = q)).
Proof.
  split.
  { intros tp ops Htp. pose proof (inv_construido11 tp ops) as (Hnd & Hk & _).
    unfold Main11.salvar_grafo_arestas.
    rewrite (salvar_plano (Main11.salvar_passo _)), tipo_construido11.
    fold (arestas_por_chave (adj (construido11 tp ops))).
    rewrite (salvar_todas tp _ Htp). simpl. unfold lista_arestas.
    apply valores_por_chave. now rewrite Hk. }
  intros ops g S.
  pose proof (inv_construido11 3 ops) as (Hnd & Hk & _). fold g in Hnd, Hk.
  pose proof (espelhado_construido11 ops) as [Hesp Hch]. fold g in Hesp, Hch.
  assert (Ho : forall o e, In e (adj_get (adj g) o) -> origem e = o).
  { unfold g, construido11. apply origem_fold_exec11. intros o e []. }
  set (E := arestas_por_chave (adj g)).
  assert (HS : S = selecionadas [] E).
  { apply salvar_grafo_arestas_3, tipo_construido11. }
  assert (HE : forall o e, In (o, e) E <-> In e (adj_get (adj g) o)).
  { intros o e. apply In_arestas_por_chave. }
  assert (HoE : forall o e, In (o, e) E -> origem e = o).
  { intros o e H. apply Ho. now apply HE. }
  assert (Hmk : forall o d p, aresta_em g o d p <-> In (o, mkAresta o d p) E).
  { intros o d p. rewrite HE. split.
    - intros (e & He & Hd & Hp). pose proof (Ho _ _ He) as Horig.
      destruct e as [o' d' p']. simpl in *. now subst.
    - intros H. exists (mkAresta o d p). auto. }
  rewrite HS. split; [|split; [|split]].
  - intros e He. apply In_selecionadas in He as (E1 & E2 & o & Heq & _).
    assert (Hin : In (o, e) E).
    { rewrite Heq. apply in_app_iff. simpl. auto. }
    rewrite (HoE o e Hin). now apply HE.
  - apply NoDup_ListNoDup.
    eapply sublist_NoDup; [|apply selecionadas_sublist].
    apply NoDup_ListNoDup. unfold E, arestas_por_chave.
    apply NoDup_arestas_por_chave; auto.
    + intros o. eapply NoDup_map_inv, Hch.
    + now rewrite Hk.
  - intros o d p Hne Hod.
    pose proof (Hesp _ _ _ Hod) as Hdo.
    apply Hmk in Hod, Hdo.
    rewrite (selecionada_direcao E o (mkAresta o d p)); auto.
    rewrite (selecionada_direcao E d (mkAresta d o p)); auto.
    simpl. rewrite (primeira_com E d o).
    destruct (primeira E o d) as [[u v]|] eqn:Ep.
    + destruct (primeira_Some _ _ _ _ _ Ep) as [[-> ->]|[-> ->]].
      * left. split; auto. congruence.
      * right. split; auto. congruence.
    + exfalso. apply primeira_None in Ep.
      apply (find_none _ _ Ep) in Hod.
      assert (H : liga o d (o, mkAresta o d p) = true); [|congruence].
      apply liga_true. left. auto.
  - intros o [p Hp]. apply Hmk in Hp.
    destruct (find (liga o o) E) as [[o' e']|] eqn:Ef.
    2:{ exfalso. apply (find_none _ _ Ef) in Hp.
        assert (H : liga o o (o, mkAresta o o p) = true); [|congruence].
        apply liga_true. left. auto. }
    destruct (find_divide _ _ _ Ef) as (E1 & E2 & Heq & Hnone & Hl).
    apply liga_true in Hl. simpl in Hl.
    assert (Hl' : o' = o /\ destino e' = o) by tauto. clear Hl.
    destruct Hl' as [-> Hd'].
    assert (Hin : In (o, e') E).
    { rewrite Heq. apply in_app_iff. simpl. auto. }
    pose proof (HoE _ _ Hin) as Horig.
    assert (He' : e' = mkAresta o o (peso e')).
    { destruct e' as [a b c]. simpl in *. now subst. }
    exists (peso e'). split; [apply Hmk; now rewrite <- He'|].
    intros q. rewrite In_selecionadas. split.
    + intros (E1' & E2' & o'' & Heq' & H). simpl in H.
      assert (Hin' : In (o'', mkAresta o o q) E).
      { rewrite Heq'. apply in_app_iff. simpl. auto. }
      apply HoE in Hin'. simpl in Hin'. subst o''.
      assert (Hn' : find (liga o o) E1' = None).
      { apply primeira_None. destruct (primeira E1' o o) as [[u v]|] eqn:E1o;
          auto.
        destruct (primeira_Some _ _ _ _ _ E1o) as [[-> ->]|[-> ->]];
          contradiction. }
      assert (Hx : (o, e') = (o, mkAresta o o q)).
      { apply (primeiro_unico (liga o o) E1 (o, e') E2 E1' _ E2'); auto.
        - now rewrite <- Heq.
        - apply liga_true. left. auto.
        - apply liga_true. left. auto. }
      injection Hx as Hx. rewrite Hx. reflexivity.
    + intros ->. exists E1, E2, o. rewrite <- He'. split; auto.
      simpl. rewrite Hd'. apply primeira_None in Hnone. now rewrite Hnone.
Qed.
